(** * AgentProfiler: trace extraction, glyph assignment and the UpSet view

    A shallow embedding of the extraction and rendering core of
    [agentprofiler_react/app/upset_plot.js] and
    [agentprofiler_react/app/tool_call_graph.js].

    Conventions of the embedding
    - a JavaScript [Map] is an association list in insertion order
      ([JsMap]): [set] on a present key replaces the value in place, on an
      absent key appends; a [Set] is a duplicate-free list in insertion
      order ([JsSet]); an object mutated through a [Map] entry is written
      back with [set] under its own key, which keeps its position;
    - a call that can raise returns an [outcome]; the only exception the
      modelled code raises is a [TypeError] (property access on
      [undefined], [forEach] on [null]);
    - object fields the code tests with [in] or for truthiness are
      options: [None] is an absent key;
    - the functions take the trace records by value; where a property is
      about the records as objects of the host, [ByRef] gives the same
      functions over a heap of objects, with allocation and assignment;
    - a string is held as its UTF-8 bytes; [Array.prototype.sort] without
      a comparator orders strings by their UTF-16 code units, which
      [codeUnit_le] computes on the bytes;
    - counts and indices are natural numbers, other numbers are rationals
      and their arithmetic is exact, but for the product under
      [Math.floor] in [ProfileUpperBarChart], which is rounded to a double
      as the code rounds it ([roundDouble]): there the rounding decides
      the integer [Math.floor] returns. *)

From Stdlib Require Import ZArith QArith Qround Qpower Lqa String Ascii.
From stdpp Require Import base decidable option list strings sorting gmap
  pretty.

Set Default Proof Using "Type".
Local Open Scope string_scope.
Local Open Scope nat_scope.
Local Open Scope list_scope.

(** ** Outcomes of calls that may raise *)

Inductive JsError := TypeError.

Inductive outcome (A : Type) :=
  | Returns (a : A)
  | Throws (e : JsError).
Arguments Returns {A} a.
Arguments Throws {A} e.

Definition obind {A B} (m : outcome A) (k : A → outcome B) : outcome B :=
  match m with
  | Returns a => k a
  | Throws e => Throws e
  end.

Notation "'let!' x ':=' m 'in' k" := (obind m (λ x, k))
  (at level 10, x name, m at level 100, k at level 200, only parsing).

(** [l.forEach(f)] where [f] may raise: the first exception aborts the loop. *)
Fixpoint forEachM {A S} (f : S → A → outcome S) (s : S) (l : list A)
    : outcome S :=
  match l with
  | [] => Returns s
  | x :: l' => let! s' := f s x in forEachM f s' l'
  end.

(** ** JavaScript [Map] and [Set], in insertion order *)

Module JsMap.
Section jsmap.
Context {K V : Type} `{EqDecision K}.

Fixpoint get (k : K) (m : list (K * V)) : option V :=
  match m with
  | [] => None
  | (k', v) :: m' => if decide (k' = k) then Some v else get k m'
  end.

Definition has (k : K) (m : list (K * V)) : bool :=
  match get k m with Some _ => true | None => false end.

Fixpoint set (k : K) (v : V) (m : list (K * V)) : list (K * V) :=
  match m with
  | [] => [(k, v)]
  | (k', v') :: m' =>
      if decide (k' = k) then (k, v) :: m' else (k', v') :: set k v m'
  end.

Definition keys (m : list (K * V)) : list K := m.*1.
Definition values (m : list (K * V)) : list V := m.*2.
End jsmap.
End JsMap.

Module JsSet.
Section jsset.
Context {A : Type} `{EqDecision A}.

Definition add (x : A) (s : list A) : list A :=
  if decide (x ∈ s) then s else s ++ [x].

(** [new Set(l)], read back with [Array.from]. *)
Definition ofList (l : list A) : list A := foldl (λ s x, add x s) [] l.
End jsset.
End JsSet.

(** ** Data model *)

(** One request of a tool-call event: [{id, name, type, args}]. *)
Record ToolCall := {
  tc_id : string;
  tc_name : string;
  tc_type : option string;
  tc_args : option string;
}.

(** One entry of [outputs.messages]. [o_tool_calls] is [None] when the key
    is absent, [Some None] when it is present and [null]. *)
Record Output := {
  o_tool_calls : option (option (list ToolCall));
  o_tool_call_id : option string;
  o_status : option string;
  o_content : option string;
}.

Record Outputs := { messages : option (list Output) }.

Inductive TraceId :=
  | NumId (n : nat)
  | StrId (s : string).

(** A trace record: [id], [outputs] and [score] are the fields the code
    reads; [tr_other] holds the remaining fields of the record. *)
Record Tracing := {
  tr_id : option TraceId;
  tr_outputs : option Outputs;
  tr_score : option Q;
  tr_other : list (string * string);
}.

Global Instance TraceId_eq_dec : EqDecision TraceId.
Proof. solve_decision. Defined.

(** ** [upset_plot.js]: [assignIdsToTracings] *)

(** [{...tracing, id: index}]: a new record, the input is left alone. *)
Definition assignIdsToTracings (tracings : list Tracing) : list Tracing :=
  imap (λ index tracing,
          {| tr_id := Some (NumId index);
             tr_outputs := tr_outputs tracing;
             tr_score := tr_score tracing;
             tr_other := tr_other tracing |}) tracings.

(** ** [upset_plot.js]: [getTools] *)

Record ToolCallInfo := {
  info_id : string;
  info_name : string;
  info_type : option string;
  info_args : option string;
  info_status : option string;
  info_content : option string;
}.

Record TracingEntry := {
  toolCalls : list (string * ToolCallInfo);
  score : option Q;
}.

Record ToolsResult := {
  tools : list string;
  tracingToolCalls : list (option TraceId * TracingEntry);
}.

Definition toolCallInfo (toolCall : ToolCall) : ToolCallInfo :=
  {| info_id := tc_id toolCall;
     info_name := tc_name toolCall;
     info_type := tc_type toolCall;
     info_args := tc_args toolCall;
     info_status := None;
     info_content := None |}.

(** Body of [output.tool_calls.forEach]. *)
Definition addToolCall (st : list (string * ToolCallInfo) * list string)
    (toolCall : ToolCall) : list (string * ToolCallInfo) * list string :=
  (JsMap.set (tc_id toolCall) (toolCallInfo toolCall) st.1,
   JsSet.add (tc_name toolCall) st.2).

(** The [else if ("tool_call_id" in output)] branch: the record found under
    the id is updated in place. *)
Definition addResponse (output : Output) (toolCallId : string)
    (calls : list (string * ToolCallInfo)) : list (string * ToolCallInfo) :=
  match JsMap.get toolCallId calls with
  | Some info =>
      JsMap.set toolCallId
        {| info_id := info_id info;
           info_name := info_name info;
           info_type := info_type info;
           info_args := info_args info;
           info_status := o_status output;
           info_content := o_content output |} calls
  | None => calls
  end.

(** Body of [outputs.forEach]. *)
Definition walkOutput (st : list (string * ToolCallInfo) * list string)
    (output : Output) : outcome (list (string * ToolCallInfo) * list string) :=
  match o_tool_calls output with
  | Some (Some calls) => Returns (foldl addToolCall st calls)
  | Some None => Throws TypeError
  | None =>
      match o_tool_call_id output with
      | Some toolCallId => Returns (addResponse output toolCallId st.1, st.2)
      | None => Returns st
      end
  end.

(** Body of [tracings.forEach]. *)
Definition walkTracing
    (st : list string * list (option TraceId * TracingEntry))
    (tracing : Tracing)
    : outcome (list string * list (option TraceId * TracingEntry)) :=
  match tr_outputs tracing with
  | None => Throws TypeError
  | Some o =>
      match messages o with
      | None => Throws TypeError
      | Some outputs =>
          let! r := forEachM walkOutput ([], st.1) outputs in
          Returns (r.2,
                   JsMap.set (tr_id tracing)
                     {| toolCalls := r.1; score := tr_score tracing |} st.2)
      end
  end.

Definition getTools (tracings : list Tracing) : outcome ToolsResult :=
  let! r := forEachM walkTracing ([], []) tracings in
  Returns {| tools := r.1; tracingToolCalls := r.2 |}.

(** ** [upset_plot.js]: [createGlyphSystem] *)

Definition availableGlyphs : list string :=
  ["circle"; "cross"; "diamond"; "square"; "triangle"; "star"; "wye";
   "plus"; "times"].

(** The taxonomy object: group name to tool names, in key insertion order.
    The keys of an object are pairwise distinct. *)
Definition ToolSets := list (string * list string).

(** [Array.prototype.sort] without a comparator orders strings by their
    UTF-16 code units. A string is held here as its UTF-8 bytes, whose
    order is that of the code points; the code units order the same way
    but for one exchange: a character beyond U+FFFF (lead bytes F0 and
    up) is a pair of surrogates D800..DFFF and so comes before the
    characters U+E000..U+FFFF (lead bytes EE and EF). [unitRank] moves
    the lead bytes accordingly and leaves every other byte in place. *)
Definition unitRank (c : ascii) : ascii :=
  let n := N_of_ascii c in
  ascii_of_N (if (n <? 238)%N then n
              else if (n <? 240)%N then (n + 16)%N
              else (n - 2)%N).

Fixpoint unitKey (s : string) : string :=
  match s with
  | EmptyString => EmptyString
  | String c s' => String (unitRank c) (unitKey s')
  end.

Definition codeUnit_le (s1 s2 : string) : Prop :=
  String.le (unitKey s1) (unitKey s2).

Global Instance codeUnit_le_dec : RelDecision codeUnit_le.
Proof. intros s1 s2. unfold codeUnit_le. apply _. Defined.

Definition sortStrings (l : list string) : list string :=
  merge_sort codeUnit_le l.

(** A string in a boolean position. *)
Definition truthy (s : string) : bool :=
  match s with EmptyString => false | _ => true end.

(** [a || b] on strings. *)
Definition orElse (a : option string) (b : string) : string :=
  match a with
  | Some s => if truthy s then s else b
  | None => b
  end.

Record GlyphSystem := {
  toolToGroup : list (string * string);
  groupToGlyph : list (string * string);
}.

Definition groupNamesOf (toolSets : ToolSets) : list string :=
  sortStrings (JsMap.keys toolSets).

(** The first [groupNames.forEach]: every tool of the group is mapped to
    the group. *)
Definition registerGroup (toolSets : ToolSets) (m : list (string * string))
    (groupName : string) : list (string * string) :=
  foldl (λ m toolName, JsMap.set toolName groupName m) m
    (default [] (JsMap.get groupName toolSets)).

(** The second [groupNames.forEach]. An index out of the palette would read
    [undefined], which is falsy like the empty string used here; the index
    is taken modulo the palette length. *)
Definition assignGlyph (st : list (string * string) * nat)
    (groupName : string) : list (string * string) * nat :=
  (JsMap.set groupName
     (nth (st.2 mod length availableGlyphs) availableGlyphs "") st.1,
   S st.2).

Definition createGlyphSystem (toolSets : ToolSets) : GlyphSystem :=
  let groupNames := groupNamesOf toolSets in
  {| toolToGroup := foldl (registerGroup toolSets) [] groupNames;
     groupToGlyph := (foldl assignGlyph ([], 0) groupNames).1 |}.

Definition getGlyph (g : GlyphSystem) (toolName : string) : string :=
  match JsMap.get toolName (toolToGroup g) with
  | Some group =>
      if truthy group then orElse (JsMap.get group (groupToGlyph g)) "circle"
      else "circle"
  | None => "circle"
  end.

Definition getGroup (g : GlyphSystem) (toolName : string) : string :=
  orElse (JsMap.get toolName (toolToGroup g)) "unknown".

Definition getAllGroups (g : GlyphSystem) : list string :=
  JsMap.keys (groupToGlyph g).

Definition getGroupGlyph (g : GlyphSystem) (groupName : string) : string :=
  orElse (JsMap.get groupName (groupToGlyph g)) "circle".

(** ** [tool_call_graph.js]: [extractToolCallOrder] *)

(** The tool calls of an output that passes
    ["tool_calls" in output && output.tool_calls]. *)
Definition truthyToolCalls (output : Output) : list ToolCall :=
  match o_tool_calls output with
  | Some (Some calls) => calls
  | _ => []
  end.

Record CallEntry := {
  ce_id : string;
  ce_name : string;
  ce_index : nat;
  ce_args : option string;
  ce_outputIndex : nat;
}.

Record OrderNode := {
  on_id : string;
  on_name : string;
  on_index : nat;
  on_callIndex : nat;
}.

Record OrderLink := {
  ol_source : string;
  ol_target : string;
  ol_weight : nat;
}.

Record OrderGraph := {
  og_nodes : list OrderNode;
  og_links : list OrderLink;
}.

Definition callEntry (outputIndex callIndex : nat) (toolCall : ToolCall)
    : CallEntry :=
  {| ce_id := tc_id toolCall;
     ce_name := tc_name toolCall;
     ce_index := callIndex;
     ce_args := tc_args toolCall;
     ce_outputIndex := outputIndex |}.

(** Body of [output.tool_calls.forEach]; the state is [toolCallMap] and
    [callIndex]. *)
Definition recordCall (outputIndex : nat)
    (st : list (string * CallEntry) * nat) (toolCall : ToolCall)
    : list (string * CallEntry) * nat :=
  if JsMap.has (tc_id toolCall) st.1 then st
  else (JsMap.set (tc_id toolCall) (callEntry outputIndex st.2 toolCall) st.1,
        S st.2).

Definition recordCalls (outputs : list Output)
    : list (string * CallEntry) * nat :=
  foldl (λ st io, foldl (recordCall io.1) st (truthyToolCalls io.2))
    ([], 0) (imap pair outputs).

(** [.sort((a, b) => a.index - b.index)]. *)
Definition index_le (a b : CallEntry) : Prop := ce_index a ≤ ce_index b.
Global Instance index_le_dec a b : Decision (index_le a b).
Proof. unfold index_le. apply _. Defined.
Definition sortByIndex (l : list CallEntry) : list CallEntry :=
  merge_sort index_le l.

Definition orderNode (idx : nat) (call : CallEntry) : OrderNode :=
  {| on_id := ce_id call;
     on_name := ce_name call;
     on_index := idx;
     on_callIndex := ce_index call |}.

(** The [for (let i = 0; i < orderedCalls.length - 1; i++)] loop. *)
Definition orderLinks (orderedCalls : list CallEntry) : list OrderLink :=
  omap (λ i,
          match orderedCalls !! i, orderedCalls !! S i with
          | Some a, Some b =>
              Some {| ol_source := ce_id a; ol_target := ce_id b;
                      ol_weight := 1 |}
          | _, _ => None
          end)
       (seq 0 (length orderedCalls - 1)).

Definition extractToolCallOrder (tracing : Tracing) : OrderGraph :=
  match tr_outputs tracing with
  | None => {| og_nodes := []; og_links := [] |}
  | Some o =>
      match messages o with
      | None => {| og_nodes := []; og_links := [] |}
      | Some outputs =>
          let toolCallMap := (recordCalls outputs).1 in
          let orderedCalls := sortByIndex (JsMap.values toolCallMap) in
          {| og_nodes := imap orderNode orderedCalls;
             og_links := orderLinks orderedCalls |}
      end
  end.

(** ** [tool_call_graph.js]: [extractToolCallFlow] *)

Record FlowNode := {
  fn_id : string;
  fn_name : string;
  fn_index : nat;
  fn_count : nat;
}.

Record FlowLink := {
  fl_source : string;
  fl_target : string;
  fl_weight : nat;
  fl_sequence : nat * nat;
}.

Record FlowGraph := {
  fg_nodes : list FlowNode;
  fg_links : list FlowLink;
  fg_callSequence : option (list string);
}.

(** The state is [toolCallMap], [callIndex] and [callSequence]. *)
Definition recordFlowCall (outputIndex : nat)
    (st : list (string * CallEntry) * nat * list string)
    (toolCall : ToolCall) : list (string * CallEntry) * nat * list string :=
  if JsMap.has (tc_id toolCall) st.1.1 then st
  else (JsMap.set (tc_id toolCall)
          (callEntry outputIndex st.1.2 toolCall) st.1.1,
        S st.1.2,
        st.2 ++ [tc_name toolCall]).

Definition recordFlowCalls (outputs : list Output)
    : list (string * CallEntry) * nat * list string :=
  foldl (λ st io, foldl (recordFlowCall io.1) st (truthyToolCalls io.2))
    ([], 0, []) (imap pair outputs).

Definition flowNode (callSequence : list string) (idx : nat) (name : string)
    : FlowNode :=
  {| fn_id := name;
     fn_name := name;
     fn_index := idx;
     fn_count := length (filter (λ n, n = name) callSequence) |}.

Definition edgeKey (source target : string) : string :=
  source +:+ "->" +:+ target.

Definition bumpWeight (e : FlowLink) : FlowLink :=
  {| fl_source := fl_source e; fl_target := fl_target e;
     fl_weight := fl_weight e + 1; fl_sequence := fl_sequence e |}.

(** The insertion or update made for the consecutive pair
    [(source, target)] met at position [i]. *)
Definition addEdge (edgeMap : list (string * FlowLink))
    (i : nat) (source target : string) : list (string * FlowLink) :=
  match JsMap.get (edgeKey source target) edgeMap with
  | Some e => JsMap.set (edgeKey source target) (bumpWeight e) edgeMap
  | None =>
      JsMap.set (edgeKey source target)
        {| fl_source := source; fl_target := target; fl_weight := 1;
           fl_sequence := (i, S i) |} edgeMap
  end.

(** Body of the [for (let i = 0; i < callSequence.length - 1; i++)] loop. *)
Definition addTransition (callSequence : list string)
    (edgeMap : list (string * FlowLink)) (i : nat)
    : list (string * FlowLink) :=
  match callSequence !! i, callSequence !! S i with
  | Some source, Some target => addEdge edgeMap i source target
  | _, _ => edgeMap
  end.

Definition flowEdges (callSequence : list string)
    : list (string * FlowLink) :=
  foldl (addTransition callSequence) []
    (seq 0 (length callSequence - 1)).

Definition extractToolCallFlow (tracing : Tracing) : FlowGraph :=
  match tr_outputs tracing with
  | None => {| fg_nodes := []; fg_links := []; fg_callSequence := None |}
  | Some o =>
      match messages o with
      | None => {| fg_nodes := []; fg_links := []; fg_callSequence := None |}
      | Some outputs =>
          let callSequence := (recordFlowCalls outputs).2 in
          let uniqueToolNames := JsSet.ofList callSequence in
          {| fg_nodes := imap (flowNode callSequence) uniqueToolNames;
             fg_links := JsMap.values (flowEdges callSequence);
             fg_callSequence := Some callSequence |}
      end
  end.

(** ** [tool_call_graph.js]: the link styling of [renderToolCallFlow]

    The force layout places the nodes; what the code itself computes for a
    link is a ratio of its weight to the heaviest weight. *)

(** [d3.max(links, (d) => d.weight) || 1] *)
Definition maxWeight (links : list FlowLink) : nat :=
  match max_list (fl_weight <$> links) with
  | 0 => 1
  | S m => S m
  end.

(** [d.weight / maxWeight] *)
Definition linkStrength (maxWeight : nat) (d : FlowLink) : Q :=
  (inject_Z (Z.of_nat (fl_weight d)) / inject_Z (Z.of_nat maxWeight))%Q.

(** [80 + (d.weight / maxWeight) * 40] *)
Definition linkDistance (maxWeight : nat) (d : FlowLink) : Q :=
  (80 + linkStrength maxWeight d * 40)%Q.

(** [2 + (d.weight / maxWeight) * 6] *)
Definition strokeWidth (maxWeight : nat) (d : FlowLink) : Q :=
  (2 + linkStrength maxWeight d * 6)%Q.

(** [0.4 + (d.weight / maxWeight) * 0.4] *)
Definition strokeOpacity (maxWeight : nat) (d : FlowLink) : Q :=
  ((4 # 10) + linkStrength maxWeight d * (4 # 10))%Q.

(** ** [upset_plot.js]: bar chart data *)

(** [Math.random] is a source of draws in the interval from 0 to 1; a
    render reads the draws from its cursor on. *)
Definition RandomSource := nat → Q.

Record BarDatum := {
  toolName : string;
  shapleyValue : Q;
}.

Record ScoreDatum := {
  sd_id : option TraceId;
  sd_score : option Q;
}.

(** The double nearest to a rational, ties to the even mantissa. The
    doubles around [x] are the multiples of 2 to the power [ulpExponent x]:
    52 binary places below the leading bit of [x], and never below 2 to
    the power -1074, the spacing of the subnormal doubles. (No overflow: the
    modelled products stay below 200.) *)
Definition ulpExponent (x : Q) : Z :=
  Z.max (Z.log2 (Qfloor (x * inject_Z (2 ^ 1074))) - 1074 - 52) (-1074).

Definition roundHalfEven (m : Q) : Z :=
  let fl := Qfloor m in
  match (m - inject_Z fl ?= 1 # 2)%Q with
  | Lt => fl
  | Gt => (fl + 1)%Z
  | Eq => if Z.even fl then fl else (fl + 1)%Z
  end.

Definition roundMagnitude (x : Q) : Q :=
  let q := ulpExponent x in
  (inject_Z (roundHalfEven (x / 2 ^ q)) * 2 ^ q)%Q.

Definition roundDouble (x : Q) : Q :=
  if Qle_bool 0 x then roundMagnitude x else (- roundMagnitude (- x))%Q.

(** [(Math.floor(Math.random() * 200) - 100) / 100]: the product is a
    double, and [Math.floor] takes the integer part of that double; the
    quotient by 100 is kept exact. *)
Definition randomShapley (r : Q) : Q :=
  (inject_Z (Qfloor (roundDouble (r * 200)) - 100) / 100)%Q.

(** One draw per tool, in the order of [tools]. *)
Definition ProfileUpperBarChart (random : RandomSource) (cursor : nat)
    (tools : list string) : list BarDatum :=
  imap (λ i tool,
          {| toolName := tool;
             shapleyValue := randomShapley (random (cursor + i)) |}) tools.

Definition ProfileLowerBarChart
    (tracingToolCalls : list (option TraceId * TracingEntry))
    : list ScoreDatum :=
  map (λ kv, {| sd_id := kv.1; sd_score := score kv.2 |}) tracingToolCalls.

(** ** The drawn view

    The mount point holds a tree of elements. An element records its tag,
    its class and geometry attributes, its text, the datum d3 binds to it
    (an appended element inherits the datum of its parent) and its
    children. Paint attributes (fill, stroke, font size, cursor) and event
    handlers are left out. d3 itself is not embedded: the application of a
    d3 scale is kept as an expression over the scale and its argument, and
    what [.call(axis)] draws into a group (the domain path and the ticks,
    which d3 computes from the scale of the axis) is kept as the axis
    called, under the attribute "axis" of the group. *)

Record BandScale (K : Type) := {
  band_domain : list K;
  band_range : Q * Q;
  band_padding : Q;
}.
Arguments band_domain {K} _.
Arguments band_range {K} _.
Arguments band_padding {K} _.

Record LinearScale := {
  lin_domain : Q * Q;
  lin_nice : bool;
  lin_range : Q * Q;
}.

Inductive AttrValue :=
  | Num (q : Q)
  | Str (s : string)
  | XScale (xScale : BandScale string) (tool : string)
  | XBandwidth (xScale : BandScale string)
  | TraceScale (traceScale : BandScale (option TraceId)) (id : option TraceId)
  | TraceBandwidth (traceScale : BandScale (option TraceId))
  | YScale (yScale : LinearScale) (v : Q)
  | ScoreX (scoreX : LinearScale) (v : Q)
  | Add (a b : AttrValue)
  | Sub (a b : AttrValue)
  | Half (a : AttrValue)
  | Abs (a : AttrValue)
  | Translate (x y : AttrValue)
  | TranslateRotate (x y : AttrValue) (deg : Q)
  | Rotate (deg x y : Q)
  | SymbolPath (type : string) (size : Q)
  | AxisLeft (scale : LinearScale) (ticks : nat)
  | AxisTop (scale : LinearScale) (ticks : nat) (tickSize : Q).

Inductive TextContent :=
  | Text (s : string)
  | IdText (id : option TraceId)
  | Fixed3 (q : Q).

Inductive Datum :=
  | BarD (d : BarDatum)
  | ScoreD (d : ScoreDatum)
  | TracingD (t : Tracing)
  | ToolD (tool : string).

Local Unset Elimination Schemes.
Inductive Element :=
  | Elem (tag : string) (attrs : list (string * AttrValue))
      (text : option TextContent) (datum : option Datum)
      (children : list Element).
Local Set Elimination Schemes.

Record Mount := {
  m_styles : list (string * string);
  m_children : list Element;
}.

(** The scales one render derives. *)
Record Scales := {
  s_x : BandScale string;
  s_yBar : LinearScale;
  s_traceScale : BandScale (option TraceId);
  s_scoreX : LinearScale;
}.

Record MarginOptions := {
  mo_top : option Q;
  mo_right : option Q;
  mo_bottom : option Q;
  mo_left : option Q;
}.

Record Options := {
  opt_width : option Q;
  opt_height : option Q;
  opt_margin : option MarginOptions;
}.

Record Margin := {
  top : Q;
  right : Q;
  bottom : Q;
  left : Q;
}.

(** ** Operations on the mount point *)

(** The elements below an element, in document order. *)
Fixpoint descendants (e : Element) : list Element :=
  match e with
  | Elem _ _ _ _ children =>
      flat_map (λ child, child :: descendants child) children
  end.

(** [selectAll("*")] from the mount point. *)
Definition allElements (children : list Element) : list Element :=
  flat_map (λ child, child :: descendants child) children.

(** An element after [remove] has taken it and every element below it
    out of their parents. *)
Definition detach (e : Element) : Element :=
  match e with
  | Elem tag attrs text datum _ => Elem tag attrs text datum []
  end.

Definition appendChild (child e : Element) : Element :=
  match e with
  | Elem tag attrs text datum children =>
      Elem tag attrs text datum (children ++ [child])
  end.

(** [d3.select(container).selectAll("*").remove()]: every element below
    the mount point is taken out of its parent, which leaves the mount
    point without children; the selection [remove] returns holds the
    removed elements. *)
Definition removeAll (container : Mount) : Mount * list Element :=
  ({| m_styles := m_styles container; m_children := [] |},
   map detach (allElements (m_children container))).

(** [d3.select(container).append(...)]: the new element comes after the
    children the mount point has. *)
Definition appendTo (child : Element) (container : Mount) : Mount :=
  {| m_styles := m_styles container;
     m_children := m_children container ++ [child] |}.

(** [d3.select(container).style(name, value)] *)
Definition setStyle (name value : string) (container : Mount) : Mount :=
  {| m_styles := JsMap.set name value (m_styles container);
     m_children := m_children container |}.

(** ** [upset_plot.js]: [renderGlyph] *)

Definition glyphBar (datum : option Datum) (x y w h : AttrValue) : Element :=
  Elem "rect" [("x", x); ("y", y); ("width", w); ("height", h)]
    None datum [].

Definition glyphCircle (datum : option Datum) (x y : AttrValue) (size : Q)
    : Element :=
  Elem "circle" [("cx", x); ("cy", y); ("r", Num size)] None datum [].

Definition glyphPath (datum : option Datum) (symbol : string)
    (x y : AttrValue) (size : Q) : Element :=
  Elem "path"
    [("d", SymbolPath symbol (size * 8)); ("transform", Translate x y)]
    None datum [].

Definition glyphStrokes (datum : option Datum) (size : Q) : list Element :=
  [glyphBar datum (Num (- size)) (Num (-1)) (Num (size * 2)) (Num 2);
   glyphBar datum (Num (-1)) (Num (- size)) (Num 2) (Num (size * 2))].

Definition renderGlyph (datum : option Datum) (glyphType : string)
    (x y : AttrValue) (size : Q) : Element :=
  if decide (glyphType = "circle") then glyphCircle datum x y size
  else if decide (glyphType = "cross") then
    glyphPath datum "symbolCross" x y size
  else if decide (glyphType = "diamond") then
    glyphPath datum "symbolDiamond" x y size
  else if decide (glyphType = "square") then
    glyphBar datum (Sub x (Num size)) (Sub y (Num size))
      (Num (size * 2)) (Num (size * 2))
  else if decide (glyphType = "triangle") then
    glyphPath datum "symbolTriangle" x y size
  else if decide (glyphType = "star") then
    glyphPath datum "symbolStar" x y size
  else if decide (glyphType = "wye") then
    glyphPath datum "symbolWye" x y size
  else if decide (glyphType = "plus") then
    Elem "g" [("transform", Translate x y)] None datum
      (glyphStrokes datum size)
  else if decide (glyphType = "times") then
    Elem "g" [("transform", TranslateRotate x y 45)] None datum
      (glyphStrokes datum size)
  else glyphCircle datum x y size.

(** ** [upset_plot.js]: [createTooltip] *)

Definition createTooltip : Element :=
  Elem "div" [("class", Str "upset-tooltip")] None None [].

(** ** [upset_plot.js]: [renderToolImportanceBars] *)

(** [xScale(tool) + xScale.bandwidth() / 2] *)
Definition xMid (xScale : BandScale string) (tool : string) : AttrValue :=
  Add (XScale xScale tool) (Half (XBandwidth xScale)).

(** [traceScale(id) + traceScale.bandwidth() / 2] *)
Definition rowMid (traceScale : BandScale (option TraceId))
    (id : option TraceId) : AttrValue :=
  Add (TraceScale traceScale id) (Half (TraceBandwidth traceScale)).

Definition importanceBar (xScale : BandScale string) (yScale : LinearScale)
    (d : BarDatum) : Element :=
  let zeroY := YScale yScale 0 in
  Elem "rect"
    [("x", XScale xScale (toolName d));
     ("y", if Qle_bool 0 (shapleyValue d) then YScale yScale (shapleyValue d)
           else zeroY);
     ("width", XBandwidth xScale);
     ("height", Abs (Sub (YScale yScale (shapleyValue d)) zeroY))]
    None (Some (BarD d)) [].

Definition toolLabel (xScale : BandScale string) (glyphSystem : GlyphSystem)
    (d : BarDatum) : Element :=
  Elem "g"
    [("class", Str "tool-label");
     ("transform", Translate (xMid xScale (toolName d)) (Num 0))]
    None (Some (BarD d))
    [renderGlyph (Some (BarD d)) (getGlyph glyphSystem (toolName d))
       (Num 0) (Num (-10)) 4;
     Elem "text"
       [("x", Num 6); ("y", Num (-10)); ("transform", Rotate (-60) 0 (-12))]
       (Some (Text (toolName d))) (Some (BarD d)) []].

Definition renderToolImportanceBars (data : list BarDatum)
    (xScale : BandScale string) (yScale : LinearScale)
    (matrixWidth : Q) (glyphSystem : GlyphSystem) : Element :=
  let zeroY := YScale yScale 0 in
  Elem "g" [("class", Str "tool-importance")] None None
    ([Elem "line"
        [("class", Str "zero-line"); ("x1", Num 0); ("x2", Num matrixWidth);
         ("y1", zeroY); ("y2", zeroY)] None None []]
     ++ map (importanceBar xScale yScale) data
     ++ [Elem "g" [("class", Str "y-axis"); ("axis", AxisLeft yScale 5)]
           None None [];
         Elem "g" [("class", Str "tool-names-top")] None None
           (map (toolLabel xScale glyphSystem) data)]).

(** ** [upset_plot.js]: [renderCoverageGrid] *)

Definition callsForTool (tracingToolCalls : list (option TraceId * TracingEntry))
    (tracing : Tracing) (tool : string) : list ToolCallInfo :=
  filter (λ toolCall, info_name toolCall = tool)
    (JsMap.values
       (match JsMap.get (tr_id tracing) tracingToolCalls with
        | Some entry => toolCalls entry
        | None => []
        end)).

Definition intersectionCol (tracings : list Tracing)
    (xScale : BandScale string) (traceScale : BandScale (option TraceId))
    (tracingToolCalls : list (option TraceId * TracingEntry))
    (glyphSystem : GlyphSystem) (tool : string) : Element :=
  Elem "g"
    [("class", Str "intersection-col");
     ("transform", Translate (xMid xScale tool) (Num 0))]
    None (Some (ToolD tool))
    (omap (λ tracing,
             match callsForTool tracingToolCalls tracing tool with
             | [] => None
             | _ :: _ =>
                 Some (renderGlyph (Some (ToolD tool))
                         (getGlyph glyphSystem tool)
                         (Num 0) (rowMid traceScale (tr_id tracing)) 5)
             end) tracings).

Definition renderCoverageGrid (tracings : list Tracing) (tools : list string)
    (matrixWidth matrixTop matrixHeight scoreWidth : Q)
    (xScale : BandScale string) (traceScale : BandScale (option TraceId))
    (tracingToolCalls : list (option TraceId * TracingEntry))
    (glyphSystem : GlyphSystem) : list Element :=
  [Elem "rect"
     [("class", Str "matrix-highlight-row"); ("x", Num 0);
      ("y", Num matrixTop); ("width", Num (matrixWidth + scoreWidth));
      ("height", TraceBandwidth traceScale)] None None [];
   Elem "rect"
     [("class", Str "matrix-highlight-col"); ("x", Num 0);
      ("y", Num matrixTop); ("width", XBandwidth xScale);
      ("height", Num matrixHeight)] None None [];
   Elem "g" [("class", Str "matrix-rows")] None None
     (map (λ t,
             Elem "line"
               [("x1", Num 0); ("x2", Num matrixWidth);
                ("y1", rowMid traceScale (tr_id t));
                ("y2", rowMid traceScale (tr_id t))]
               None (Some (TracingD t)) []) tracings);
   Elem "g" [("class", Str "matrix-cols")] None None
     (map (λ tool,
             Elem "line"
               [("y1", Num matrixTop); ("y2", Num (matrixTop + matrixHeight));
                ("x1", xMid xScale tool); ("x2", xMid xScale tool)]
               None (Some (ToolD tool)) []) tools);
   Elem "g" [("class", Str "matrix-dots")] None None
     (map (intersectionCol tracings xScale traceScale tracingToolCalls
             glyphSystem) tools)].

(** ** [upset_plot.js]: [renderScoreRail] and the row labels *)

Definition formatScore (value : option Q) : TextContent :=
  match value with
  | Some v => Fixed3 v
  | None => Text "—"
  end.

Definition scoreOrZero (d : ScoreDatum) : Q := default 0%Q (sd_score d).

Definition renderScoreRail (data : list ScoreDatum)
    (traceScale : BandScale (option TraceId)) (scoreX : LinearScale)
    (matrixTop matrixWidth scoreWidth : Q) : Element :=
  Elem "g"
    [("class", Str "score-rail");
     ("transform", Translate (Num matrixWidth) (Num 0))] None None
    ([Elem "g"
        [("transform", Translate (Num 0) (Num (matrixTop - 12)));
         ("axis", AxisTop scoreX 4 (-6))] None None [];
      Elem "text"
        [("x", Num (scoreWidth / 2)); ("y", Num (matrixTop - 24))]
        (Some (Text "Run Score")) None []]
     ++ map (λ d,
               Elem "rect"
                 [("class", Str "score-bar"); ("x", Num 0);
                  ("y", TraceScale traceScale (sd_id d));
                  ("height", TraceBandwidth traceScale);
                  ("width", ScoreX scoreX (scoreOrZero d))]
                 None (Some (ScoreD d)) []) data
     ++ map (λ d,
               Elem "text"
                 [("class", Str "score-value");
                  ("x", Add (ScoreX scoreX (scoreOrZero d)) (Num 6));
                  ("y", rowMid traceScale (sd_id d))]
                 (Some (formatScore (sd_score d))) (Some (ScoreD d)) [])
          data).

Definition setLabels (data : list ScoreDatum)
    (traceScale : BandScale (option TraceId)) : Element :=
  Elem "g" [] None None
    (map (λ d,
            Elem "text"
              [("class", Str "set-label"); ("x", Num (-12));
               ("y", rowMid traceScale (sd_id d))]
              (Some (IdText (sd_id d))) (Some (ScoreD d)) []) data).

(** ** [upset_plot.js]: [renderUpsetPlot] *)

(** [d3.extent]: smallest and largest value, [None] on an empty list. *)
Definition extent (l : list Q) : option (Q * Q) :=
  match l with
  | [] => None
  | v :: l' =>
      Some (foldl (λ mm value,
                     (if Qle_bool mm.1 value then mm.1 else value,
                      if Qle_bool value mm.2 then mm.2 else value))
              (v, v) l')
  end.

(** [d3.max] over the scores that are defined. *)
Definition maxDefined (l : list (option Q)) : option Q :=
  snd <$> extent (omap (λ v : option Q, v) l).

Definition qmin (a b : Q) : Q := if Qle_bool a b then a else b.
Definition qmax (a b : Q) : Q := if Qle_bool a b then b else a.

(** [v || 1] on a number. *)
Definition orOne (v : option Q) : Q :=
  match v with
  | Some q => if Qeq_bool q 0 then 1%Q else q
  | None => 1%Q
  end.

Definition marginOf (options : Options) : Margin :=
  match opt_margin options with
  | Some m =>
      {| top := default 80%Q (mo_top m);
         right := default 24%Q (mo_right m);
         bottom := default 40%Q (mo_bottom m);
         left := default 80%Q (mo_left m) |}
  | None => {| top := 80; right := 24; bottom := 40; left := 80 |}
  end.

Record RenderResult := {
  rr_container : option Mount;
  rr_cursor : nat;
  rr_scales : option Scales;
}.

Definition noDataText (width height : Q) : Element :=
  Elem "text" [("x", Num (width / 2)); ("y", Num (height / 2))]
    (Some (Text "No data")) None [].

Definition svgElement (width height : Q) (children : list Element)
    : Element :=
  Elem "svg" [("width", Num width); ("height", Num height)] None None
    children.

(** The container after [selectAll("*").remove()] and
    [style("position", "relative")]. *)
Definition clearContainer (container : Mount) : Mount :=
  setStyle "position" "relative" (removeAll container).1.

(** [renderUpsetPlot] from the call of [createGlyphSystem] on: what it does
    with the traces [assignIdsToTracings] returned and the extraction of
    [getTools]. *)
Definition drawUpsetPlot (random : RandomSource) (cursor : nat)
    (container : Mount) (data tracings : list Tracing)
    (extracted : ToolsResult) (toolSets : ToolSets) (options : Options)
    : RenderResult :=
  let tools := tools extracted in
  let tracingToolCalls := tracingToolCalls extracted in
  let glyphSystem := createGlyphSystem toolSets in
  let upperBarChartData := ProfileUpperBarChart random cursor tools in
  let cursor' := cursor + length tools in
  let lowerBarChartData := ProfileLowerBarChart tracingToolCalls in
  let width := default 640%Q (opt_width options) in
  let margin := marginOf options in
  let topBarHeightFixed := 200%Q in
  let matrixHeightRequired :=
    inject_Z (Z.max (Z.of_nat (length tracings) * 20) 100) in
  let calculatedHeight :=
    (top margin + topBarHeightFixed + matrixHeightRequired
     + bottom margin)%Q in
  let height := default calculatedHeight (opt_height options) in
  let cleared := clearContainer container in
  match data with
  | [] =>
      {| rr_container :=
           Some (appendTo createTooltip
                   (appendTo
                      (svgElement width height [noDataText width height])
                      cleared));
         rr_cursor := cursor';
         rr_scales := None |}
  | _ :: _ =>
      let innerWidth := (width - left margin - right margin)%Q in
      let innerHeight := (height - top margin - bottom margin)%Q in
      let matrixTop := topBarHeightFixed in
      let matrixHeight := (innerHeight - topBarHeightFixed)%Q in
      let matrixWidth := (innerWidth * (3 # 4))%Q in
      let scoreWidth := (innerWidth - matrixWidth)%Q in
      let x :=
        {| band_domain := tools;
           band_range := (0%Q, matrixWidth);
           band_padding := 3 # 10 |} in
      let shapleyExtent := extent (map shapleyValue upperBarChartData) in
      let shapleyMin := default (-1)%Q (fst <$> shapleyExtent) in
      let shapleyMax := default 1%Q (snd <$> shapleyExtent) in
      let yBar :=
        {| lin_domain := (qmin shapleyMin 0, qmax shapleyMax 0);
           lin_nice := true;
           lin_range := (topBarHeightFixed, 0%Q) |} in
      let traceScale :=
        {| band_domain := map tr_id tracings;
           band_range := (matrixTop, (matrixTop + matrixHeight)%Q);
           band_padding := 4 # 10 |} in
      let maxScore := orOne (maxDefined (map sd_score lowerBarChartData)) in
      let scoreX :=
        {| lin_domain := (0%Q, maxScore);
           lin_nice := false;
           lin_range := (0%Q, scoreWidth) |} in
      let g :=
        Elem "g"
          [("transform", Translate (Num (left margin)) (Num (top margin)))]
          None None
          ([renderToolImportanceBars upperBarChartData x yBar matrixWidth
              glyphSystem]
           ++ renderCoverageGrid tracings tools matrixWidth matrixTop
                matrixHeight scoreWidth x traceScale tracingToolCalls
                glyphSystem
           ++ [setLabels lowerBarChartData traceScale;
               renderScoreRail lowerBarChartData traceScale scoreX
                 matrixTop matrixWidth scoreWidth]) in
      {| rr_container :=
           Some (appendTo createTooltip
                   (appendTo (svgElement width height [g]) cleared));
         rr_cursor := cursor';
         rr_scales :=
           Some {| s_x := x; s_yBar := yBar; s_traceScale := traceScale;
                   s_scoreX := scoreX |} |}
  end.

Definition renderUpsetPlot (random : RandomSource) (cursor : nat)
    (container : option Mount) (data : option (list Tracing))
    (toolSets : ToolSets) (options : Options) : outcome RenderResult :=
  match container with
  | None =>
      Returns {| rr_container := None; rr_cursor := cursor;
                 rr_scales := None |}
  | Some container =>
      match data with
      | None => Throws TypeError
      | Some data =>
          let tracings := assignIdsToTracings data in
          let! extracted := getTools tracings in
          Returns
            (drawUpsetPlot random cursor container data tracings extracted
               toolSets options)
      end
  end.

(** ** [upset_plot.js]: the trace records as objects

    The functions above take the trace records by value. The host hands
    the core references to its records, and the code creates objects of
    its own and writes to some of them. [ByRef] models that: the heap holds
    the trace records and the [toolCallInfo] objects, a reference is an
    address of the heap, and an operation returns the heap it leaves with
    its outcome, also when it raises. A [Map] holds references to its
    values. The events and the tool calls of a record are part of the
    record: the code reads them and copies their fields ([args] is shared
    with the new object and never assigned to). The draws, the scales and
    the elements of the view are values as before: they are no records of
    the host. *)

Inductive Cell :=
  | RecordCell (tracing : Tracing)
  | InfoCell (info : ToolCallInfo).

Abbreviation Ref := nat.
Abbreviation Heap := (list Cell).
Definition Op (A : Type) : Type := Heap → Heap * outcome A.

(** A value that is no object: it has none of the fields the code reads. *)
Definition noRecord : Tracing :=
  {| tr_id := None; tr_outputs := None; tr_score := None; tr_other := [] |}.

(** The trace record a reference stands for. *)
Definition recordAt (h : Heap) (r : Ref) : Tracing :=
  match h !! r with
  | Some (RecordCell tracing) => tracing
  | _ => noRecord
  end.

Definition infoAt (h : Heap) (r : Ref) : option ToolCallInfo :=
  match h !! r with
  | Some (InfoCell info) => Some info
  | _ => None
  end.

Record EntryRef := {
  toolCallRefs : list (string * Ref);
  entryScore : option Q;
}.

(** The entry of [tracingToolCalls] with the objects of its [toolCalls]
    read from the heap. *)
Definition entryAt (h : Heap) (entry : EntryRef) : TracingEntry :=
  {| toolCalls :=
       omap (λ kr : string * Ref, pair kr.1 <$> infoAt h kr.2)
         (toolCallRefs entry);
     score := entryScore entry |}.

Module ByRef.

Definition ret {A} (a : A) : Op A := λ h, (h, Returns a).

Definition raise {A} (e : JsError) : Op A := λ h, (h, Throws e).

Definition bind {A B} (m : Op A) (k : A → Op B) : Op B :=
  λ h, match m h with
       | (h', Returns a) => k a h'
       | (h', Throws e) => (h', Throws e)
       end.

Notation "'let*' x ':=' m 'in' k" := (bind m (λ x, k))
  (at level 10, x name, m at level 100, k at level 200, only parsing).

(** A new object: it gets an address no object has. *)
Definition alloc (c : Cell) : Op Ref :=
  λ h, (h ++ [c], Returns (length h)).

(** An assignment to fields of the object at [r]. *)
Definition write (r : Ref) (c : Cell) : Op () :=
  λ h, (<[r := c]> h, Returns ()).

Definition readRecord (r : Ref) : Op Tracing :=
  λ h, (h, Returns (recordAt h r)).

Definition readInfo (r : Ref) : Op (option ToolCallInfo) :=
  λ h, (h, Returns (infoAt h r)).

Fixpoint forEach {A S} (f : S → A → Op S) (s : S) (l : list A) : Op S :=
  match l with
  | [] => ret s
  | x :: l' => let* s' := f s x in forEach f s' l'
  end.

(** [l.map((x, index) => f(x, index))] from the index [index] on. *)
Fixpoint mapFrom {A B} (f : nat → A → Op B) (index : nat) (l : list A)
    : Op (list B) :=
  match l with
  | [] => ret []
  | x :: l' =>
      let* y := f index x in
      let* ys := mapFrom f (S index) l' in
      ret (y :: ys)
  end.

(** [{...tracing, id: index}]: a new object with the fields of the record
    and the id [index]. *)
Definition spreadWithId (index : nat) (tracing : Ref) : Op Ref :=
  let* record := readRecord tracing in
  alloc (RecordCell {| tr_id := Some (NumId index);
                       tr_outputs := tr_outputs record;
                       tr_score := tr_score record;
                       tr_other := tr_other record |}).

Definition assignIdsToTracings (tracings : list Ref) : Op (list Ref) :=
  mapFrom spreadWithId 0 tracings.

(** Body of [output.tool_calls.forEach]: [toolCallInfo] is a new object. *)
Definition addToolCall (st : list (string * Ref) * list string)
    (toolCall : ToolCall) : Op (list (string * Ref) * list string) :=
  let* info := alloc (InfoCell (toolCallInfo toolCall)) in
  ret (JsMap.set (tc_id toolCall) info st.1,
       JsSet.add (tc_name toolCall) st.2).

(** The [else if ("tool_call_id" in output)] branch: [status] and
    [content] are assigned on the object found under the id. *)
Definition addResponse (output : Output) (toolCallId : string)
    (calls : list (string * Ref)) : Op () :=
  match JsMap.get toolCallId calls with
  | Some r =>
      let* found := readInfo r in
      match found with
      | Some info =>
          write r
            (InfoCell {| info_id := info_id info;
                         info_name := info_name info;
                         info_type := info_type info;
                         info_args := info_args info;
                         info_status := o_status output;
                         info_content := o_content output |})
      | None => ret ()
      end
  | None => ret ()
  end.

(** Body of [outputs.forEach]. *)
Definition walkOutput (st : list (string * Ref) * list string)
    (output : Output) : Op (list (string * Ref) * list string) :=
  match o_tool_calls output with
  | Some (Some calls) => forEach addToolCall st calls
  | Some None => raise TypeError
  | None =>
      match o_tool_call_id output with
      | Some toolCallId =>
          let* _ := addResponse output toolCallId st.1 in ret st
      | None => ret st
      end
  end.

(** Body of [tracings.forEach]. *)
Definition walkTracing
    (st : list string * list (option TraceId * EntryRef))
    (tracing : Ref)
    : Op (list string * list (option TraceId * EntryRef)) :=
  let* record := readRecord tracing in
  match tr_outputs record with
  | None => raise TypeError
  | Some o =>
      match messages o with
      | None => raise TypeError
      | Some outputs =>
          let* r := forEach walkOutput ([], st.1) outputs in
          ret (r.2,
               JsMap.set (tr_id record)
                 {| toolCallRefs := r.1; entryScore := tr_score record |}
                 st.2)
      end
  end.

Definition getTools (tracings : list Ref)
    : Op (list string * list (option TraceId * EntryRef)) :=
  forEach walkTracing ([], []) tracings.

(** The extraction with its objects read from the heap. *)
Definition extractedAt (h : Heap)
    (r : list string * list (option TraceId * EntryRef)) : ToolsResult :=
  {| tools := r.1;
     tracingToolCalls := (λ ke, (ke.1, entryAt h ke.2)) <$> r.2 |}.

Definition renderUpsetPlot (random : RandomSource) (cursor : nat)
    (container : option Mount) (data : option (list Ref))
    (toolSets : ToolSets) (options : Options) : Op RenderResult :=
  match container with
  | None =>
      ret {| rr_container := None; rr_cursor := cursor; rr_scales := None |}
  | Some container =>
      match data with
      | None => raise TypeError
      | Some data =>
          let* tracings := assignIdsToTracings data in
          let* extracted := getTools tracings in
          λ h, (h,
                Returns
                  (drawUpsetPlot random cursor container
                     (recordAt h <$> data) (recordAt h <$> tracings)
                     (extractedAt h extracted) toolSets options))
      end
  end.

End ByRef.

(** ** [upset_plot.js]: the highlight controls

    What the event handlers of a drawn view change: the two highlight
    rectangles of the matrix, the fills of the bar chart (a bar, its label
    and its glyph are filled together), the fills of the score rail (a bar
    and its label), the tooltip, and the listener the matrix reports its
    row to. A fill is recorded as whether it is the highlight colour, an
    opacity as whether it is 1. *)

Record View := {
  highlightRow_y : Q;
  highlightRow_shown : bool;
  highlightCol_x : Q;
  highlightCol_shown : bool;
  bars_lit : list bool;
  scoreBars_lit : list bool;
  tooltip_shown : bool;
  rowHighlightListener : bool;
}.

Definition setRow (y : Q) (shown : bool) (v : View) : View :=
  {| highlightRow_y := y; highlightRow_shown := shown;
     highlightCol_x := highlightCol_x v;
     highlightCol_shown := highlightCol_shown v;
     bars_lit := bars_lit v; scoreBars_lit := scoreBars_lit v;
     tooltip_shown := tooltip_shown v;
     rowHighlightListener := rowHighlightListener v |}.

Definition setCol (x : Q) (shown : bool) (v : View) : View :=
  {| highlightRow_y := highlightRow_y v;
     highlightRow_shown := highlightRow_shown v;
     highlightCol_x := x; highlightCol_shown := shown;
     bars_lit := bars_lit v; scoreBars_lit := scoreBars_lit v;
     tooltip_shown := tooltip_shown v;
     rowHighlightListener := rowHighlightListener v |}.

Definition setBars (lit : list bool) (v : View) : View :=
  {| highlightRow_y := highlightRow_y v;
     highlightRow_shown := highlightRow_shown v;
     highlightCol_x := highlightCol_x v;
     highlightCol_shown := highlightCol_shown v;
     bars_lit := lit; scoreBars_lit := scoreBars_lit v;
     tooltip_shown := tooltip_shown v;
     rowHighlightListener := rowHighlightListener v |}.

Definition setScoreBars (lit : list bool) (v : View) : View :=
  {| highlightRow_y := highlightRow_y v;
     highlightRow_shown := highlightRow_shown v;
     highlightCol_x := highlightCol_x v;
     highlightCol_shown := highlightCol_shown v;
     bars_lit := bars_lit v; scoreBars_lit := lit;
     tooltip_shown := tooltip_shown v;
     rowHighlightListener := rowHighlightListener v |}.

(** [showTooltip] and [hideTooltip] of [createTooltip], as far as the
    opacity goes. *)
Definition setTooltip (shown : bool) (v : View) : View :=
  {| highlightRow_y := highlightRow_y v;
     highlightRow_shown := highlightRow_shown v;
     highlightCol_x := highlightCol_x v;
     highlightCol_shown := highlightCol_shown v;
     bars_lit := bars_lit v; scoreBars_lit := scoreBars_lit v;
     tooltip_shown := shown;
     rowHighlightListener := rowHighlightListener v |}.

(** The argument of a row listener: a trace id or [null]. *)
Inductive RowRef :=
  | NullRow
  | RowId (id : option TraceId).

(** The events the handlers are bound to: an active glyph of the matrix,
    the drawing as a whole, a bar of the score rail. *)
Inductive Event :=
  | GlyphEnter (tracing : Tracing) (tool : string)
  | GlyphMove
  | GlyphLeave
  | SvgMove (mx my : Q)
  | SvgLeave
  | ScoreEnter (d : ScoreDatum)
  | ScoreMove
  | ScoreLeave.

(** The controls [renderToolImportanceBars] returns. *)
Module Bars.

Definition setColumnHighlight (data : list BarDatum) (name : string)
    : list bool :=
  if truthy name then map (λ d, bool_decide (toolName d = name)) data
  else map (λ _, false) data.

Definition clearColumnHighlight (data : list BarDatum) : list bool :=
  map (λ _, false) data.

End Bars.

(** The control [renderScoreRail] returns: [d.id === tracingId]. *)
Module Rail.

Definition setRowHighlight (data : list ScoreDatum) (tracingId : RowRef)
    : list bool :=
  map (λ d, match tracingId with
            | RowId id => bool_decide (sd_id d = id)
            | NullRow => false
            end) data.

End Rail.

(** The controls and handlers of [renderCoverageGrid], wired as
    [renderUpsetPlot] wires them: the bar controls are given, the score
    rail focuses and blurs rows through [setRowHighlight] and
    [clearRowHighlight]. The two band scales are functions that give no
    position outside their domain. *)
Module Grid.
Section grid.
Variable xScale : string → option Q.
Variable traceScale : option TraceId → option Q.
Variables xBandwidth traceBandwidth : Q.
Variables matrixWidth matrixTop matrixHeight scoreWidth : Q.
Variable tracings : list Tracing.
Variable tools : list string.
Variable barData : list BarDatum.
Variable scoreData : list ScoreDatum.
Variable data : list Tracing.
Variable onTracingSelect : bool.

(** [rowHighlightListener(tracingId)]: nothing listens until the score
    rail is registered. *)
Definition notifyRow (tracingId : RowRef) (v : View) : View :=
  if rowHighlightListener v
  then setScoreBars (Rail.setRowHighlight scoreData tracingId) v
  else v.

Definition setRowHighlight (tracingId : option TraceId) (v : View) : View :=
  match traceScale tracingId with
  | None => notifyRow NullRow (setRow (highlightRow_y v) false v)
  | Some yPos => notifyRow (RowId tracingId) (setRow yPos true v)
  end.

Definition clearRowHighlight (v : View) : View :=
  notifyRow NullRow (setRow (highlightRow_y v) false v).

Definition setColumnHighlight (tool : string) (v : View) : View :=
  match xScale tool with
  | None =>
      setBars (Bars.clearColumnHighlight barData)
        (setCol (highlightCol_x v) false v)
  | Some xPos =>
      setBars (Bars.setColumnHighlight barData tool) (setCol xPos true v)
  end.

Definition clearColumnHighlight (v : View) : View :=
  setBars (Bars.clearColumnHighlight barData)
    (setCol (highlightCol_x v) false v).

Definition clearAllHighlights (v : View) : View :=
  clearColumnHighlight (clearRowHighlight v).

(** [rowHighlightListener = listener || (() => {})] *)
Definition registerExternalRowHighlight (listener : bool) (v : View) : View :=
  {| highlightRow_y := highlightRow_y v;
     highlightRow_shown := highlightRow_shown v;
     highlightCol_x := highlightCol_x v;
     highlightCol_shown := highlightCol_shown v;
     bars_lit := bars_lit v; scoreBars_lit := scoreBars_lit v;
     tooltip_shown := tooltip_shown v;
     rowHighlightListener := listener |}.

(** The test of [findTracingAtY] on the id of a row. *)
Definition rowAt (yPos : Q) (id : option TraceId) : bool :=
  match traceScale id with
  | None => false
  | Some rowStart =>
      Qle_bool rowStart yPos && Qle_bool yPos (rowStart + traceBandwidth)
  end.

Definition findTracingAtY (yPos : Q) : option Tracing :=
  List.find (λ tracing, rowAt yPos (tr_id tracing)) tracings.

Definition colAt (xPos : Q) (name : string) : bool :=
  match xScale name with
  | None => false
  | Some colStart =>
      Qle_bool colStart xPos && Qle_bool xPos (colStart + xBandwidth)
  end.

Definition findToolAtX (xPos : Q) : option string :=
  List.find (colAt xPos) tools.

Definition withinBand (mx my : Q) : bool :=
  Qle_bool 0 mx && Qle_bool mx (matrixWidth + scoreWidth)
  && Qle_bool matrixTop my && Qle_bool my (matrixTop + matrixHeight).

Definition handlePointerMove (mx my : Q) (v : View) : View :=
  if withinBand mx my then
    let v :=
      match findTracingAtY my with
      | Some hoveredTracing => setRowHighlight (tr_id hoveredTracing) v
      | None => clearRowHighlight v
      end in
    if Qle_bool mx matrixWidth then
      match findToolAtX mx with
      | Some hoveredTool =>
          if truthy hoveredTool then setColumnHighlight hoveredTool v
          else clearColumnHighlight v
      | None => clearColumnHighlight v
      end
    else clearColumnHighlight v
  else clearAllHighlights v.

(** The record [onTracingSelect] is called with, if it is called. The
    rows carry the ids [assignIdsToTracings] gave them, which are
    positions in [data]: [data[clickedTracing.id]]. *)
Definition handleClick (mx my : Q) : option Tracing :=
  if withinBand mx my then
    match findTracingAtY my with
    | Some clickedTracing =>
        if onTracingSelect then
          match tr_id clickedTracing with
          | Some (NumId index) => data !! index
          | _ => None
          end
        else None
    | None => None
    end
  else None.

(** The handlers bound to the events. *)
Definition handle (v : View) (e : Event) : View :=
  match e with
  | GlyphEnter tracing tool =>
      setTooltip true
        (setColumnHighlight tool (setRowHighlight (tr_id tracing) v))
  | GlyphMove => setTooltip true v
  | GlyphLeave => setTooltip false v
  | SvgMove mx my => handlePointerMove mx my v
  | SvgLeave => clearAllHighlights (setTooltip false v)
  | ScoreEnter d => setTooltip true (setRowHighlight (sd_id d) v)
  | ScoreMove => setTooltip true v
  | ScoreLeave => clearRowHighlight (setTooltip false v)
  end.

(** The view when [renderUpsetPlot] returns: nothing is highlighted and
    the score rail is registered as the row listener. *)
Definition drawn : View :=
  registerExternalRowHighlight true
    {| highlightRow_y := matrixTop; highlightRow_shown := false;
       highlightCol_x := 0; highlightCol_shown := false;
       bars_lit := map (λ _, false) barData;
       scoreBars_lit := map (λ _, false) scoreData;
       tooltip_shown := false;
       rowHighlightListener := false |}.

End grid.
End Grid.

(** ** [tool_call_graph.js]: the two graph views

    What a call leaves in the mount point when it returns. The force
    simulation moves the nodes afterwards, tick by tick: what it writes
    (the end points of a line, the place of a link label, the [transform]
    of a node) is not part of the drawing here. Paint attributes are left
    out as before, and so is the datum of an element. *)

(** [v || fallback] on a number. *)
Definition orDefault (v fallback : Q) : Q :=
  if Qeq_bool v 0 then fallback else v.

Definition noToolCallsText : Element :=
  Elem "text" [("x", Str "50%"); ("y", Str "50%")]
    (Some (Text "No tool calls in this tracing")) None [].

(** The empty state of both views:
    [selectAll("*").remove().append("text")] appends the text to every
    element of the selection [remove] returns. *)
Definition noToolCalls (container : Mount) : Mount * list Element :=
  let cleared := removeAll container in
  (cleared.1, map (appendChild noToolCallsText) cleared.2).

(** *** [renderToolCallFlow] *)

Definition flowLinkLine (d : FlowLink) : Element :=
  Elem "line" [("marker-end", Str "url(#arrowhead-flow)")] None None [].

Definition flowLinkLabel (d : FlowLink) : Element :=
  Elem "text" [("class", Str "link-label")]
    (Some (Text (pretty (fl_weight d)))) None [].

Definition flowNodeGroup (glyphSystem : GlyphSystem) (d : FlowNode)
    : Element :=
  Elem "g" [("class", Str "node")] None None
    ([Elem "circle" [("r", Num 25)] None None []]
     ++ (if decide (1 < fn_count d) then
           [Elem "circle" [("r", Num 10); ("cx", Num 18); ("cy", Num (-18))]
              None None [];
            Elem "text" [("x", Num 18); ("y", Num (-18))]
              (Some (Text (pretty (fn_count d)))) None []]
         else [])
     ++ [renderGlyph None (getGlyph glyphSystem (fn_name d))
           (Num 0) (Num 0) 10;
         Elem "text" [("dy", Num 40)] (Some (Text (fn_name d))) None []]).

Definition sequenceItem (glyphSystem : GlyphSystem) (sequenceItemWidth : Q)
    (i : nat) (d : string) : Element :=
  Elem "g"
    [("class", Str "sequence-item");
     ("transform",
      Translate
        (Num (inject_Z (Z.of_nat i) * sequenceItemWidth
              + sequenceItemWidth / 2))
        (Num 0))]
    None None
    [Elem "circle" [("r", Num 8)] None None [];
     renderGlyph None (getGlyph glyphSystem d) (Num 0) (Num 0) 5;
     Elem "line"
       [("x1", Num (sequenceItemWidth / 2));
        ("x2", Num (sequenceItemWidth / 2));
        ("y1", Num 0); ("y2", Num (-15))] None None [];
     Elem "text" [("y", Num 20)] (Some (Text (pretty (i + 1)))) None []].

(** The mount point after the call; [clientWidth] and [clientHeight] are
    those of the mount point. Reading [callSequence.length] of a missing
    call sequence would raise. *)
Definition renderToolCallFlow (container : option Mount)
    (tracing : option Tracing) (toolSets : ToolSets)
    (clientWidth clientHeight : Q) : outcome (option Mount) :=
  match container, tracing with
  | Some container, Some tracing =>
      let flow := extractToolCallFlow tracing in
      match fg_nodes flow with
      | [] => Returns (Some (noToolCalls container).1)
      | _ :: _ =>
          let cleared := (removeAll container).1 in
          let width := orDefault clientWidth 400 in
          let height := orDefault clientHeight 400 in
          let innerWidth := (width - 40 - 40)%Q in
          let glyphSystem := createGlyphSystem toolSets in
          let g :=
            Elem "g" [("transform", Translate (Num 40) (Num 40))] None None
              [Elem "g" [("class", Str "links")] None None
                 (map flowLinkLine (fg_links flow));
               Elem "g" [("class", Str "link-labels")] None None
                 (map flowLinkLabel
                    (filter (λ d, 1 < fl_weight d) (fg_links flow)));
               Elem "g" [("class", Str "nodes")] None None
                 (map (flowNodeGroup glyphSystem) (fg_nodes flow))] in
          match fg_callSequence flow with
          | None => Throws TypeError
          | Some callSequence =>
              let sequenceItemWidth :=
                (innerWidth
                 / inject_Z (Z.of_nat (Nat.max (length callSequence) 1)))%Q
              in
              Returns
                (Some
                   (appendTo
                      (svgElement width height
                         [g;
                          Elem "g"
                            [("class", Str "sequence");
                             ("transform",
                              Translate (Num 40) (Num (height - 60 + 10)))]
                            None None
                            (imap (sequenceItem glyphSystem
                                     sequenceItemWidth) callSequence)])
                      cleared))
          end
      end
  | _, _ => Returns container
  end.

(** *** [renderToolCallGraph] *)

Definition orderLinkLine (d : OrderLink) : Element :=
  Elem "line" [("marker-end", Str "url(#arrowhead)")] None None [].

Definition arrowMarker : Element :=
  Elem "defs" [] None None
    [Elem "marker"
       [("id", Str "arrowhead"); ("viewBox", Str "0 -5 10 10");
        ("refX", Num 25); ("refY", Num 0); ("markerWidth", Num 6);
        ("markerHeight", Num 6); ("orient", Str "auto")]
       None None
       [Elem "path" [("d", Str "M0,-5L10,0L0,5")] None None []]].

Definition orderNodeGroup (glyphSystem : GlyphSystem) (d : OrderNode)
    : Element :=
  Elem "g" [("class", Str "node")] None None
    [Elem "circle" [("r", Num 20)] None None [];
     renderGlyph None (getGlyph glyphSystem (on_name d)) (Num 0) (Num 0) 8;
     Elem "text" [("dy", Num 35)] (Some (Text (on_name d))) None []].

Definition renderToolCallGraph (container : option Mount)
    (tracing : option Tracing) (toolSets : ToolSets)
    (clientWidth clientHeight : Q) : option Mount :=
  match container, tracing with
  | Some container, Some tracing =>
      let graph := extractToolCallOrder tracing in
      match og_nodes graph with
      | [] => Some (noToolCalls container).1
      | _ :: _ =>
          let cleared := (removeAll container).1 in
          let width := orDefault clientWidth 400 in
          let height := orDefault clientHeight 400 in
          let glyphSystem := createGlyphSystem toolSets in
          let g :=
            Elem "g" [("transform", Translate (Num 20) (Num 20))] None None
              [Elem "g" [("class", Str "links")] None None
                 (map orderLinkLine (og_links graph));
               Elem "g" [("class", Str "nodes")] None None
                 (map (orderNodeGroup glyphSystem) (og_nodes graph))] in
          Some (appendTo (svgElement width height [g; arrowMarker]) cleared)
      end
  | _, _ => container
  end.

(** ** Vocabulary of the statements *)

(** The outputs of a trace; none when [outputs] or [messages] is missing. *)
Definition traceOutputs (tracing : Tracing) : list Output :=
  match tr_outputs tracing with
  | Some o => default [] (messages o)
  | None => []
  end.

(** The requests of a trace, walking its outputs in sequence order. *)
Definition traceCalls (tracing : Tracing) : list ToolCall :=
  traceOutputs tracing ≫= truthyToolCalls.

(** The requests of a trace read off its events one by one: an event
    whose [tool_calls] is an array contributes the calls of the array in
    their order, any other event (no [tool_calls] key, or [null] under the
    key) contributes none; a trace without [outputs] or without [messages]
    has no request. *)
Inductive listedCalls : list Output → list ToolCall → Prop :=
  | listed_nil : listedCalls [] []
  | listed_calls o outputs calls rest :
      o_tool_calls o = Some (Some calls) →
      listedCalls outputs rest →
      listedCalls (o :: outputs) (calls ++ rest)
  | listed_absent o outputs rest :
      o_tool_calls o = None →
      listedCalls outputs rest →
      listedCalls (o :: outputs) rest
  | listed_null o outputs rest :
      o_tool_calls o = Some None →
      listedCalls outputs rest →
      listedCalls (o :: outputs) rest.

Definition requestsOf (tracing : Tracing) (calls : list ToolCall) : Prop :=
  match tr_outputs tracing with
  | Some {| messages := Some outputs |} => listedCalls outputs calls
  | _ => calls = []
  end.

(** The tool names met while walking the traces in input order. *)
Definition seenNames (tracings : list Tracing) : list string :=
  tracings ≫= λ tracing, tc_name <$> traceCalls tracing.

(** The first position of [x] in [l]. *)
Definition firstIndex {A} `{EqDecision A} (x : A) (l : list A) : option nat :=
  fst <$> list_find (λ y, y = x) l.

(** [l] holds each element of [seen] exactly once, ordered by the first
    position at which the element occurs in [seen]. *)
Definition first_seen_order {A} `{EqDecision A} (l seen : list A) : Prop :=
  NoDup l ∧
  (∀ x, x ∈ l ↔ x ∈ seen) ∧
  ∀ i j a b, l !! i = Some a → l !! j = Some b → i < j →
    ∃ p q, firstIndex a seen = Some p ∧ firstIndex b seen = Some q ∧ p < q.

(** The elements of [l] whose key occurs for the first time. *)
Definition firstBy {A K} `{EqDecision K} (key : A → K) (l : list A) : list A :=
  foldl (λ acc x, if decide (key x ∈ key <$> acc) then acc else acc ++ [x])
    [] l.

(** The requests made under a call id, the first and the last of them. *)
Definition callsWithId (id : string) (calls : list ToolCall) : list ToolCall :=
  filter (λ c, tc_id c = id) calls.
Definition firstCall (id : string) (calls : list ToolCall) : option ToolCall :=
  head (callsWithId id calls).
Definition lastCall (id : string) (calls : list ToolCall) : option ToolCall :=
  last (callsWithId id calls).

(** *** Views

    The view with the tool-importance values taken out: the value bound
    to a bar, the domain of the bar scale (which is derived from the
    values), and with the domain what is placed through that scale: the
    bars, the zero line and the axis of the bar chart. *)
Definition eraseDomain (scale : LinearScale) : LinearScale :=
  {| lin_domain := (0%Q, 0%Q);
     lin_nice := lin_nice scale;
     lin_range := lin_range scale |}.

Fixpoint eraseAttr (a : AttrValue) : AttrValue :=
  match a with
  | YScale yScale _ => YScale (eraseDomain yScale) 0
  | AxisLeft yScale ticks => AxisLeft (eraseDomain yScale) ticks
  | Add a b => Add (eraseAttr a) (eraseAttr b)
  | Sub a b => Sub (eraseAttr a) (eraseAttr b)
  | Half a => Half (eraseAttr a)
  | Abs a => Abs (eraseAttr a)
  | Translate x y => Translate (eraseAttr x) (eraseAttr y)
  | TranslateRotate x y deg => TranslateRotate (eraseAttr x) (eraseAttr y) deg
  | _ => a
  end.

Definition eraseDatum (d : Datum) : Datum :=
  match d with
  | BarD b => BarD {| toolName := toolName b; shapleyValue := 0 |}
  | _ => d
  end.

Fixpoint eraseElement (e : Element) : Element :=
  match e with
  | Elem tag attrs text datum children =>
      Elem tag (map (λ kv, (kv.1, eraseAttr kv.2)) attrs) text
        (eraseDatum <$> datum) (map eraseElement children)
  end.

Definition withoutShapley (m : Mount) : Mount :=
  {| m_styles := m_styles m;
     m_children := map eraseElement (m_children m) |}.

(** The scales of a render with the domain of the bar scale taken out. *)
Definition withoutShapleyDomain (s : Scales) : Scales :=
  {| s_x := s_x s;
     s_yBar := eraseDomain (s_yBar s);
     s_traceScale := s_traceScale s;
     s_scoreX := s_scoreX s |}.

(** *** Objects of the heap *)

(** The map [refs] holds references to the objects [infos], key by key;
    the objects were created at addresses from [n] on, and no object is
    held twice. *)
Definition callsAt (h : Heap) (n : nat) (refs : list (string * Ref))
    (infos : list (string * ToolCallInfo)) : Prop :=
  Forall2 (λ (kr : string * Ref) (ki : string * ToolCallInfo),
             kr.1 = ki.1 ∧ n ≤ kr.2 ∧ h !! kr.2 = Some (InfoCell ki.2))
    refs infos ∧
  NoDup refs.*2.

(** The references of the entries are addresses of the heap. *)
Definition entriesIn (h : Heap) (entries : list (option TraceId * EntryRef))
    : Prop :=
  Forall (λ ke : option TraceId * EntryRef,
            Forall (λ kr : string * Ref, kr.2 < length h)
              (toolCallRefs ke.2)) entries.

(** What two outcomes have in common when the one computes with
    references what the other computes with values. *)
Definition sameOutcome {A B} (R : A → B → Prop) (a : outcome A)
    (b : outcome B) : Prop :=
  match a, b with
  | Returns x, Returns y => R x y
  | Throws e, Throws e' => e = e'
  | _, _ => False
  end.

(** *** The walk of [getTools] *)

Definition addName (s : list string) (x : string) : list string :=
  JsSet.add x s.

(** A trace [getTools] can walk: [outputs.messages] is a list and no
    output carries a null [tool_calls]. *)
Definition walkable (tracing : Tracing) : Prop :=
  (∃ outputs, tr_outputs tracing = Some {| messages := Some outputs |}) ∧
  Forall (λ o, o_tool_calls o ≠ Some None) (traceOutputs tracing).

Definition infoCore (info : ToolCallInfo)
    : string * string * option string * option string :=
  (info_id info, info_name info, info_type info, info_args info).

Definition callCore (c : ToolCall)
    : string * string * option string * option string :=
  (tc_id c, tc_name c, tc_type c, tc_args c).

Definition requestIds (outputs : list Output) : list string :=
  tc_id <$> (outputs ≫= truthyToolCalls).

(** The record [getTools] keeps for a trace: the score of the trace and,
    under every call id, the request that used the id last. *)
Definition entryOf (tracing : Tracing) (entry : TracingEntry) : Prop :=
  score entry = tr_score tracing ∧
  ∀ id, infoCore <$> JsMap.get id (toolCalls entry) =
        callCore <$> lastCall id (traceCalls tracing).

(** *** The walks of the two graph extractions *)

(** The outputs paired with their index, flattened to the requests. *)
Definition indexedCalls (outputs : list Output) : list (nat * ToolCall) :=
  imap pair outputs ≫= λ io, pair io.1 <$> truthyToolCalls io.2.

Definition recordStep (st : list (string * CallEntry) * nat)
    (ic : nat * ToolCall) : list (string * CallEntry) * nat :=
  recordCall ic.1 st ic.2.

(** What the nodes and links read from an entry of [toolCallMap]. *)
Definition entryView (ke : string * CallEntry)
    : string * string * string * nat :=
  (ke.1, ce_id ke.2, ce_name ke.2, ce_index ke.2).

Definition callView (i : nat) (c : ToolCall) : string * string * string * nat :=
  (tc_id c, tc_id c, tc_name c, i).

Definition callNode (i : nat) (c : ToolCall) : OrderNode :=
  {| on_id := tc_id c; on_name := tc_name c; on_index := i;
     on_callIndex := i |}.

Definition idLinks (ids : list string) : list OrderLink :=
  omap (λ i,
          match ids !! i, ids !! S i with
          | Some a, Some b =>
              Some {| ol_source := a; ol_target := b; ol_weight := 1 |}
          | _, _ => None
          end)
       (seq 0 (length ids - 1)).

Definition flowStep (st : list (string * CallEntry) * nat * list string)
    (ic : nat * ToolCall) : list (string * CallEntry) * nat * list string :=
  recordFlowCall ic.1 st ic.2.

(** *** Flow graphs *)

(** The call sequence: the name of the first request of every call id. *)
Definition callSequenceOf (tracing : Tracing) : list string :=
  tc_name <$> firstBy tc_id (traceCalls tracing).

Definition flowOf (callSequence : list string) : FlowGraph :=
  {| fg_nodes := imap (flowNode callSequence) (JsSet.ofList callSequence);
     fg_links := JsMap.values (flowEdges callSequence);
     fg_callSequence := Some callSequence |}.

Definition weightSum (m : list (string * FlowLink)) : nat :=
  sum_list (fl_weight <$> JsMap.values m).

(** The consecutive pairs of the call sequence, with their position. *)
Definition transitions (callSequence : list string)
    : list (nat * (string * string)) :=
  omap (λ i,
          match callSequence !! i, callSequence !! S i with
          | Some a, Some b => Some (i, (a, b))
          | _, _ => None
          end)
       (seq 0 (length callSequence - 1)).

Definition transitionKey (t : nat * (string * string)) : string :=
  edgeKey t.2.1 t.2.2.

Definition edgeStep (m : list (string * FlowLink))
    (t : nat * (string * string)) : list (string * FlowLink) :=
  addEdge m t.1 t.2.1 t.2.2.

(** The link kept under a key: as heavy as the transitions with that key are
    many, and drawn between the names of the first of them. *)
Definition linkOf (ts : list (nat * (string * string))) (k : string)
    (e : FlowLink) : Prop :=
  fl_weight e = length (filter (λ t, transitionKey t = k) ts) ∧
  ∃ t, head (filter (λ t, transitionKey t = k) ts) = Some t ∧
       fl_source e = t.2.1 ∧ fl_target e = t.2.2 ∧
       fl_sequence e = (t.1, S t.1).

(** The trace with its outputs replaced. *)
Definition withOutputs (tracing : Tracing) (outputs : list Output) : Tracing :=
  {| tr_id := tr_id tracing;
     tr_outputs := Some {| messages := Some outputs |};
     tr_score := tr_score tracing;
     tr_other := tr_other tracing |}.

(** Whether a name holds the character [>]. *)
Fixpoint hasGt (s : string) : bool :=
  match s with
  | EmptyString => false
  | String c s' => if decide (c = ">"%char) then true else hasGt s'
  end.

(** ** Sample data *)

Definition request (id name : string) : ToolCall :=
  {| tc_id := id; tc_name := name; tc_type := Some "tool_call";
     tc_args := None |}.

Definition callEvent (calls : list ToolCall) : Output :=
  {| o_tool_calls := Some (Some calls); o_tool_call_id := None;
     o_status := None; o_content := None |}.

Definition resultEvent (id : string) : Output :=
  {| o_tool_calls := None; o_tool_call_id := Some id;
     o_status := Some "success"; o_content := Some "done" |}.

Definition traceOf (outputs : list Output) : Tracing :=
  {| tr_id := None;
     tr_outputs := Some {| messages := Some outputs |};
     tr_score := Some 1%Q;
     tr_other := [("inputs", "{}")] |}.

Definition emptyMount : Mount := {| m_styles := []; m_children := [] |}.

Definition defaultOptions : Options :=
  {| opt_width := None; opt_height := None; opt_margin := None |}.

(** What [Math.random] can return: a double of the interval from 0 to 1,
    1 excluded, so at most the largest double below 1. *)
Definition isDraw (r : Q) : Prop :=
  (0 <= r)%Q ∧ (r <= 1 - (1 # 2 ^ 53))%Q.

(** The double nearest to 0.015, which lies below 0.015. *)
Definition double_0_015 : Q := 1080863910568919 # 2 ^ 56.

(** A source whose first draw is 0 and whose later draws are 1/2. *)
Definition sampleDraws : RandomSource :=
  λ n, match n with 0 => 0%Q | S _ => (1 # 2)%Q end.

(** ** Further vocabulary *)

(** The call ids answered by the result events of the outputs. *)
Definition resultIds (outputs : list Output) : list string :=
  omap (λ o, match o_tool_calls o with
             | None => o_tool_call_id o
             | Some _ => None
             end) outputs.

(** An output that is neither a tool-call event nor a result event. *)
Definition unknownOutput (o : Output) : Prop :=
  o_tool_calls o = None ∧ o_tool_call_id o = None.

(** Two input records that differ at most in the id the host gave. *)
Definition sameButId (t t' : Tracing) : Prop :=
  tr_outputs t = tr_outputs t' ∧ tr_score t = tr_score t' ∧
  tr_other t = tr_other t'.

(** *** Elements of a drawing *)

Definition tagOf (e : Element) : string :=
  match e with Elem tag _ _ _ _ => tag end.

Definition attrOf (name : string) (e : Element) : option AttrValue :=
  match e with Elem _ attrs _ _ _ => JsMap.get name attrs end.

(** Whether an element refers to the marker [id], whether it carries the
    id [id]. *)
Definition refersTo (id : string) (e : Element) : bool :=
  match attrOf "marker-end" e with
  | Some (Str s) => bool_decide (s = "url(#" +:+ id +:+ ")")
  | _ => false
  end.

Definition hasId (id : string) (e : Element) : bool :=
  match attrOf "id" e with
  | Some (Str s) => bool_decide (s = id)
  | _ => false
  end.

(** How many elements of the drawing satisfy [p]. *)
Definition countOf (p : Element → bool) (m : Mount) : nat :=
  length (List.filter p (allElements (m_children m))).

Definition isMarker (e : Element) : bool := bool_decide (tagOf e = "marker").

(** *** Linked highlights *)

(** The score rail marks the rows the matrix highlights: none when the
    row rectangle is hidden, the rows with the id at whose position the
    rectangle sits otherwise. *)
Definition rowsLinked (traceScale : option TraceId → option Q)
    (scoreData : list ScoreDatum) (v : View) : Prop :=
  if highlightRow_shown v then
    ∃ id, traceScale id = Some (highlightRow_y v) ∧
          scoreBars_lit v = map (λ d, bool_decide (sd_id d = id)) scoreData
  else scoreBars_lit v = map (λ _, false) scoreData.

(** The bar chart marks the column the matrix highlights. *)
Definition columnsLinked (xScale : string → option Q)
    (barData : list BarDatum) (v : View) : Prop :=
  if highlightCol_shown v then
    ∃ tool, xScale tool = Some (highlightCol_x v) ∧
            bars_lit v = map (λ d, bool_decide (toolName d = tool)) barData
  else bars_lit v = map (λ _, false) barData.

Definition litCount (lit : list bool) : nat :=
  length (filter (λ b, b = true) lit).

(** Two rows and two columns for the examples. *)
Definition sampleTraceScale (id : option TraceId) : option Q :=
  match id with
  | Some (NumId 0) => Some 200%Q
  | Some (NumId 1) => Some 260%Q
  | _ => None
  end.

Definition sampleXScale (tool : string) : option Q :=
  if decide (tool = "search") then Some 20%Q
  else if decide (tool = "read") then Some 220%Q
  else None.

(** * Properties *)

(** ** Loops *)

Lemma forEachM_app {A S} (f : S → A → outcome S) s l1 l2 :
  forEachM f s (l1 ++ l2) =
  obind (forEachM f s l1) (λ s', forEachM f s' l2).
Proof.
  revert s. induction l1 as [|x l1 IH]; intros s; simpl; [done|].
  destruct (f s x); simpl; [apply IH|done].
Qed.

Lemma foldl_ext {A B} (f g : A → B → A) a (l : list B) :
  (∀ a x, f a x = g a x) → foldl f a l = foldl g a l.
Proof.
  intros Hfg. revert a. induction l as [|x l IH]; intros a; simpl; [done|].
  by rewrite Hfg, IH.
Qed.

Lemma foldl_bind {A B S} (f : S → B → S) (g : A → list B) s (l : list A) :
  foldl f s (l ≫= g) = foldl (λ s x, foldl f s (g x)) s l.
Proof.
  revert s. induction l as [|x l IH]; intros s; simpl; [done|].
  by rewrite foldl_app, IH.
Qed.

(** ** Maps in insertion order *)

Section jsmap_facts.
Context {K V : Type} `{EqDecision K}.
Implicit Types (m : list (K * V)) (k : K) (v : V).

Lemma get_None m k : JsMap.get k m = None ↔ k ∉ JsMap.keys m.
Proof.
  unfold JsMap.keys. induction m as [|[k' v'] m IH]; simpl.
  - split; [intros _; apply not_elem_of_nil|done].
  - rewrite not_elem_of_cons. destruct (decide (k' = k)) as [->|Hne].
    + split; [done|]. intros [? _]. done.
    + rewrite IH. split; [by intros ?; split|by intros [_ ?]].
Qed.

Lemma get_is_Some m k : is_Some (JsMap.get k m) ↔ k ∈ JsMap.keys m.
Proof.
  rewrite <-not_eq_None_Some, get_None.
  destruct (decide (k ∈ JsMap.keys m)); naive_solver.
Qed.

Lemma has_true m k : JsMap.has k m = true ↔ k ∈ JsMap.keys m.
Proof.
  unfold JsMap.has. rewrite <-get_is_Some.
  destruct (JsMap.get k m); [split; eauto|split; [done|by intros [? ?]]].
Qed.

Lemma has_false m k : JsMap.has k m = false ↔ k ∉ JsMap.keys m.
Proof. rewrite <-has_true. destruct (JsMap.has k m); naive_solver. Qed.

Lemma set_absent m k v : k ∉ JsMap.keys m → JsMap.set k v m = m ++ [(k, v)].
Proof.
  unfold JsMap.keys. induction m as [|[k' v'] m IH]; simpl; [done|].
  rewrite not_elem_of_cons. intros [Hne Hm].
  destruct (decide (k' = k)); [congruence|]. by rewrite IH.
Qed.

Lemma keys_set_present m k v :
  k ∈ JsMap.keys m → JsMap.keys (JsMap.set k v m) = JsMap.keys m.
Proof.
  unfold JsMap.keys. induction m as [|[k' v'] m IH]; simpl.
  - intros Hk. by apply elem_of_nil in Hk.
  - destruct (decide (k' = k)) as [->|Hne]; simpl; [done|].
    rewrite elem_of_cons. intros [?|Hk]; [congruence|].
    f_equal. by apply IH.
Qed.

Lemma get_set_eq m k v : JsMap.get k (JsMap.set k v m) = Some v.
Proof.
  induction m as [|[k' v'] m IH]; simpl.
  - by rewrite decide_True.
  - destruct (decide (k' = k)) as [->|Hne]; simpl.
    + by rewrite decide_True.
    + by rewrite decide_False.
Qed.

Lemma get_set_ne m k k' v :
  k ≠ k' → JsMap.get k' (JsMap.set k v m) = JsMap.get k' m.
Proof.
  intros Hne. induction m as [|[k0 v0] m IH]; simpl.
  - by rewrite decide_False.
  - destruct (decide (k0 = k)) as [->|Hne0]; simpl.
    + by rewrite !decide_False.
    + by rewrite IH.
Qed.

Lemma get_app_l m1 m2 k :
  k ∈ JsMap.keys m1 → JsMap.get k (m1 ++ m2) = JsMap.get k m1.
Proof.
  unfold JsMap.keys. induction m1 as [|[k' v'] m1 IH]; simpl.
  - intros Hk. by apply elem_of_nil in Hk.
  - destruct (decide (k' = k)); [done|].
    rewrite elem_of_cons. intros [?|Hk]; [congruence|]. by apply IH.
Qed.

Lemma get_app_r m1 m2 k :
  k ∉ JsMap.keys m1 → JsMap.get k (m1 ++ m2) = JsMap.get k m2.
Proof.
  unfold JsMap.keys. induction m1 as [|[k' v'] m1 IH]; simpl; [done|].
  rewrite not_elem_of_cons. intros [Hne Hk].
  rewrite decide_False by congruence. by apply IH.
Qed.

Lemma get_elem_of m k v : JsMap.get k m = Some v → (k, v) ∈ m.
Proof.
  induction m as [|[k' v'] m IH]; simpl; [done|].
  destruct (decide (k' = k)) as [->|Hne].
  - intros [= ->]. apply list_elem_of_here.
  - intros Hg. apply list_elem_of_further. by apply IH.
Qed.

Lemma elem_of_get m k v :
  NoDup (JsMap.keys m) → (k, v) ∈ m → JsMap.get k m = Some v.
Proof.
  unfold JsMap.keys. induction m as [|[k' v'] m IH]; simpl.
  - intros _ Hin. by apply elem_of_nil in Hin.
  - rewrite NoDup_cons, elem_of_cons. intros [Hk' Hnd] [Heq|Hin].
    + injection Heq as -> ->. by rewrite decide_True.
    + destruct (decide (k' = k)) as [->|Hne]; [|by apply IH].
      exfalso. apply Hk'. apply list_elem_of_fmap. by exists (k, v).
Qed.
End jsmap_facts.

(** ** Sets in insertion order *)

Section jsset_facts.
Context {A : Type} `{EqDecision A}.
Implicit Types (l s : list A) (x : A).

Lemma ofList_app l1 l2 :
  JsSet.ofList (l1 ++ l2) =
  foldl (λ s x, JsSet.add x s) (JsSet.ofList l1) l2.
Proof. apply foldl_app. Qed.

Lemma ofList_snoc l x :
  JsSet.ofList (l ++ [x]) = JsSet.add x (JsSet.ofList l).
Proof. by rewrite ofList_app. Qed.

Lemma elem_of_ofList l x : x ∈ JsSet.ofList l ↔ x ∈ l.
Proof.
  induction l as [|y l IH] using rev_ind.
  - done.
  - rewrite ofList_snoc, elem_of_app, list_elem_of_singleton, <-IH.
    unfold JsSet.add. case_decide as Hy.
    + split; [by left|]. intros [?| ->]; done.
    + by rewrite elem_of_app, list_elem_of_singleton.
Qed.

Lemma NoDup_ofList l : NoDup (JsSet.ofList l).
Proof.
  induction l as [|y l IH] using rev_ind.
  - constructor.
  - rewrite ofList_snoc. unfold JsSet.add. case_decide as Hy; [done|].
    apply NoDup_app. split_and!; [done| |apply NoDup_singleton].
    intros z Hz ->%list_elem_of_singleton. done.
Qed.

Lemma firstIndex_app_l l1 l2 x p :
  firstIndex x l1 = Some p → firstIndex x (l1 ++ l2) = Some p.
Proof.
  unfold firstIndex. intros Hp.
  destruct (list_find (λ y, y = x) l1) as [[i y]|] eqn:Hf; [|done].
  by rewrite (list_find_app_l _ _ _ _ _ Hf).
Qed.

Lemma firstIndex_is_Some l x : x ∈ l → ∃ p, firstIndex x l = Some p ∧ p < length l.
Proof.
  intros Hx. unfold firstIndex.
  destruct (list_find_elem_of (λ y, y = x) l x Hx eq_refl) as [[i y] Hf].
  rewrite Hf. exists i. split; [done|].
  apply list_find_Some in Hf as (Hi & _). by eapply lookup_lt_Some.
Qed.

Lemma firstIndex_fresh l x : x ∉ l → firstIndex x (l ++ [x]) = Some (length l).
Proof.
  intros Hx. unfold firstIndex.
  assert (list_find (λ y, y = x) l = None) as Hn.
  { apply list_find_None, Forall_forall. intros y Hy ->. done. }
  rewrite (list_find_app_r _ _ _ Hn). simpl. by rewrite decide_True.
Qed.

(** [new Set(l)] lists the distinct elements of [l] by first
    occurrence. *)
Lemma ofList_first_seen l : first_seen_order (JsSet.ofList l) l.
Proof.
  split_and!; [apply NoDup_ofList|apply elem_of_ofList|].
  induction l as [|y l IH] using rev_ind.
  - intros i j a b Hi. done.
  - intros i j a b. rewrite ofList_snoc. unfold JsSet.add.
    case_decide as Hy.
    + intros Hi Hj Hij. destruct (IH i j a b Hi Hj Hij) as (p & q & ? & ? & ?).
      exists p, q. split_and!; [by apply firstIndex_app_l..|done].
    + intros Hi Hj Hij.
      apply lookup_snoc_Some in Hj as [[Hjl Hj]|[Hjl ->]].
      * rewrite lookup_app_l in Hi by lia.
        destruct (IH i j a b Hi Hj Hij) as (p & q & ? & ? & ?).
        exists p, q. split_and!; [by apply firstIndex_app_l..|done].
      * rewrite lookup_app_l in Hi by lia.
        assert (a ∈ l) as Ha.
        { apply elem_of_ofList. by eapply list_elem_of_lookup_2. }
        destruct (firstIndex_is_Some l a Ha) as (p & Hp & Hlt).
        exists p, (length l). split_and!; [by apply firstIndex_app_l| |done].
        apply firstIndex_fresh. by rewrite <-elem_of_ofList.
Qed.

End jsset_facts.

(** ** [getTools]: the tool set *)

Lemma addToolCalls_tools st calls :
  (foldl addToolCall st calls).2 = foldl addName st.2 (tc_name <$> calls).
Proof.
  revert st. induction calls as [|c calls IH]; intros st; simpl; [done|].
  by rewrite IH.
Qed.

Lemma walkOutput_tools st o st' :
  walkOutput st o = Returns st' →
  st'.2 = foldl addName st.2 (tc_name <$> truthyToolCalls o).
Proof.
  unfold walkOutput, truthyToolCalls.
  destruct (o_tool_calls o) as [[calls|]|]; simpl.
  - intros [= <-]. apply addToolCalls_tools.
  - done.
  - destruct (o_tool_call_id o); by intros [= <-].
Qed.

Lemma walkOutputs_tools outputs st st' :
  forEachM walkOutput st outputs = Returns st' →
  st'.2 = foldl addName st.2 (tc_name <$> (outputs ≫= truthyToolCalls)).
Proof.
  revert st. induction outputs as [|o outputs IH]; intros st; simpl.
  - by intros [= <-].
  - destruct (walkOutput st o) as [st1|] eqn:Ho; simpl; [|done].
    intros Hrest. rewrite fmap_app, foldl_app.
    rewrite <-(walkOutput_tools _ _ _ Ho). by apply IH.
Qed.

Lemma walkTracing_outputs st tracing st' :
  walkTracing st tracing = Returns st' →
  tr_outputs tracing = Some {| messages := Some (traceOutputs tracing) |}.
Proof.
  unfold walkTracing, traceOutputs.
  destruct (tr_outputs tracing) as [[[outputs|]]|]; simpl; done.
Qed.

Lemma walkTracing_unfold st tracing :
  walkTracing st tracing =
  match tr_outputs tracing with
  | Some {| messages := Some outputs |} =>
      let! r := forEachM walkOutput ([], st.1) outputs in
      Returns (r.2,
               JsMap.set (tr_id tracing)
                 {| toolCalls := r.1; score := tr_score tracing |} st.2)
  | _ => Throws TypeError
  end.
Proof.
  unfold walkTracing. by destruct (tr_outputs tracing) as [[[outputs|]]|].
Qed.

Lemma walkTracing_tools st tracing st' :
  walkTracing st tracing = Returns st' →
  st'.1 = foldl addName st.1 (tc_name <$> traceCalls tracing).
Proof.
  intros Hw. pose proof (walkTracing_outputs _ _ _ Hw) as Ho.
  rewrite walkTracing_unfold, Ho in Hw. unfold traceCalls.
  destruct (forEachM walkOutput ([], st.1) (traceOutputs tracing))
    as [r|] eqn:Hr; simpl in Hw; [|done].
  injection Hw as <-. simpl. by rewrite (walkOutputs_tools _ _ _ Hr).
Qed.

Lemma walkTracings_tools tracings st st' :
  forEachM walkTracing st tracings = Returns st' →
  st'.1 = foldl addName st.1 (seenNames tracings).
Proof.
  revert st. induction tracings as [|t tracings IH]; intros st; simpl.
  - by intros [= <-].
  - destruct (walkTracing st t) as [st1|] eqn:Ht; simpl; [|done].
    intros Hrest. unfold seenNames. simpl. rewrite foldl_app.
    rewrite <-(walkTracing_tools _ _ _ Ht). by apply IH.
Qed.

Lemma getTools_tools tracings r :
  getTools tracings = Returns r → tools r = JsSet.ofList (seenNames tracings).
Proof.
  unfold getTools.
  destruct (forEachM walkTracing ([], []) tracings) as [st|] eqn:Hst;
    simpl; [|done].
  intros [= <-]. simpl. by rewrite (walkTracings_tools _ _ _ Hst).
Qed.

Lemma walkOutput_returns st o :
  o_tool_calls o ≠ Some None → ∃ st', walkOutput st o = Returns st'.
Proof.
  unfold walkOutput. destruct (o_tool_calls o) as [[calls|]|]; [eauto|done|].
  destruct (o_tool_call_id o); eauto.
Qed.

Lemma walkOutputs_returns outputs st :
  Forall (λ o, o_tool_calls o ≠ Some None) outputs →
  ∃ st', forEachM walkOutput st outputs = Returns st'.
Proof.
  intros Hall. revert st. induction Hall as [|o outputs Ho _ IH]; intros st.
  - by eexists.
  - simpl. destruct (walkOutput_returns st o Ho) as [st1 ->]. simpl. apply IH.
Qed.

Lemma walkTracing_returns st tracing :
  walkable tracing → ∃ st', walkTracing st tracing = Returns st'.
Proof.
  intros [[outputs Ho] Hall]. rewrite walkTracing_unfold, Ho.
  unfold traceOutputs in Hall. rewrite Ho in Hall. simpl in Hall.
  destruct (walkOutputs_returns outputs ([], st.1) Hall) as [r ->].
  simpl. by eexists.
Qed.

Lemma getTools_returns tracings :
  Forall walkable tracings → ∃ r, getTools tracings = Returns r.
Proof.
  intros Hall. unfold getTools.
  assert (∀ st, ∃ st', forEachM walkTracing st tracings = Returns st') as Hst.
  { induction Hall as [|t tracings Ht _ IH]; intros st; [by eexists|].
    simpl. destruct (walkTracing_returns st t Ht) as [st1 ->]. simpl.
    apply IH. }
  destruct (Hst ([], [])) as [st' ->]. simpl. by eexists.
Qed.

(** C1. For every list of traces on which [getTools] returns, its [tools]
    array holds each tool name met in the traces exactly once, ordered by
    the first time the name is seen while walking the traces in input
    order and the outputs of each trace in sequence order. *)
Theorem getTools_tools_first_seen tracings r :
  getTools tracings = Returns r →
  first_seen_order (tools r) (seenNames tracings).
Proof.
  intros Hr. rewrite (getTools_tools _ _ Hr). apply ofList_first_seen.
Qed.

Lemma getTools_tools_first_seen_witness :
  let tracings :=
    [traceOf [callEvent [request "a1" "search"]; resultEvent "a1";
              callEvent [request "a2" "read"]];
     traceOf [callEvent [request "b1" "search"]]] in
  ∃ r, getTools tracings = Returns r ∧
       tools r = ["search"; "read"] ∧
       first_seen_order (tools r) (seenNames tracings).
Proof.
  eexists. split; [reflexivity|]. split; [reflexivity|].
  by apply getTools_tools_first_seen.
Defined.

(** ** [getTools]: the per-trace map *)

Lemma lastCall_app id l1 l2 :
  lastCall id (l1 ++ l2) =
  match lastCall id l2 with
  | Some c => Some c
  | None => lastCall id l1
  end.
Proof. unfold lastCall, callsWithId. by rewrite filter_app, last_app. Qed.

Lemma lastCall_cons id c l :
  lastCall id (c :: l) =
  match lastCall id l with
  | Some c' => Some c'
  | None => if decide (tc_id c = id) then Some c else None
  end.
Proof.
  change (c :: l) with ([c] ++ l). rewrite lastCall_app.
  destruct (lastCall id l); [done|].
  unfold lastCall, callsWithId. rewrite filter_cons, filter_nil.
  by case_decide.
Qed.

Lemma lastCall_is_Some id l :
  is_Some (lastCall id l) ↔ id ∈ tc_id <$> l.
Proof.
  unfold lastCall, callsWithId. rewrite last_is_Some, list_elem_of_fmap.
  split.
  - intros Hne. destruct (filter (λ c, tc_id c = id) l) as [|c l'] eqn:Hf;
      [done|].
    assert (c ∈ filter (λ c, tc_id c = id) l) as Hc
      by (rewrite Hf; apply list_elem_of_here).
    apply list_elem_of_filter in Hc as [Hid Hin]. by exists c.
  - intros (c & -> & Hin) Hnil.
    by apply (filter_nil_not_elem_of _ _ c Hnil).
Qed.

Lemma firstCall_id id l c : firstCall id l = Some c → tc_id c = id.
Proof.
  unfold firstCall, callsWithId. intros Hl%head_Some_elem_of.
  by apply list_elem_of_filter in Hl as [? _].
Qed.

Lemma addToolCalls_get st calls id :
  infoCore <$> JsMap.get id (foldl addToolCall st calls).1 =
  match lastCall id calls with
  | Some c => Some (callCore c)
  | None => infoCore <$> JsMap.get id st.1
  end.
Proof.
  revert st. induction calls as [|c calls IH]; intros st; simpl; [done|].
  rewrite IH, lastCall_cons. destruct (lastCall id calls); [done|].
  simpl. case_decide as Hid.
  - subst id. by rewrite get_set_eq.
  - by rewrite get_set_ne.
Qed.

Lemma addResponse_get output toolCallId calls id :
  infoCore <$> JsMap.get id (addResponse output toolCallId calls) =
  infoCore <$> JsMap.get id calls.
Proof.
  unfold addResponse.
  destruct (JsMap.get toolCallId calls) as [info|] eqn:Hg; [|done].
  destruct (decide (toolCallId = id)) as [->|Hne].
  - by rewrite get_set_eq, Hg.
  - by rewrite get_set_ne.
Qed.

Lemma addResponse_absent output toolCallId calls :
  toolCallId ∉ JsMap.keys calls → addResponse output toolCallId calls = calls.
Proof. unfold addResponse. intros Hk%get_None. by rewrite Hk. Qed.

Lemma walkOutput_get st o st' id :
  walkOutput st o = Returns st' →
  infoCore <$> JsMap.get id st'.1 =
  match lastCall id (truthyToolCalls o) with
  | Some c => Some (callCore c)
  | None => infoCore <$> JsMap.get id st.1
  end.
Proof.
  unfold walkOutput, truthyToolCalls.
  destruct (o_tool_calls o) as [[calls|]|]; simpl.
  - intros [= <-]. apply addToolCalls_get.
  - done.
  - destruct (o_tool_call_id o); intros [= <-]; simpl; [|done].
    apply addResponse_get.
Qed.

Lemma walkOutputs_get outputs st st' id :
  forEachM walkOutput st outputs = Returns st' →
  infoCore <$> JsMap.get id st'.1 =
  match lastCall id (outputs ≫= truthyToolCalls) with
  | Some c => Some (callCore c)
  | None => infoCore <$> JsMap.get id st.1
  end.
Proof.
  revert st. induction outputs as [|o outputs IH]; intros st.
  - by intros [= <-].
  - rewrite bind_cons. cbn [forEachM].
    destruct (walkOutput st o) as [st1|] eqn:Ho; cbn [obind]; [|done].
    intros Hrest. rewrite (IH _ Hrest), lastCall_app.
    destruct (lastCall id (outputs ≫= truthyToolCalls)); [done|].
    apply (walkOutput_get _ _ _ _ Ho).
Qed.

Lemma walkOutputs_keys outputs tools0 st' id :
  forEachM walkOutput ([], tools0) outputs = Returns st' →
  id ∈ JsMap.keys st'.1 ↔ id ∈ requestIds outputs.
Proof.
  intros Hw. pose proof (walkOutputs_get _ _ _ id Hw) as Hg. simpl in Hg.
  rewrite <-get_is_Some. unfold requestIds. rewrite <-lastCall_is_Some.
  destruct (lastCall id (outputs ≫= truthyToolCalls)),
    (JsMap.get id st'.1); simpl in Hg; try done.
  all: split; intros [? ?]; done.
Qed.

Lemma walkTracing_entry st tracing st' :
  walkTracing st tracing = Returns st' →
  (∃ entry, JsMap.get (tr_id tracing) st'.2 = Some entry ∧
            entryOf tracing entry) ∧
  ∀ k, k ≠ tr_id tracing → JsMap.get k st'.2 = JsMap.get k st.2.
Proof.
  intros Hw. pose proof (walkTracing_outputs _ _ _ Hw) as Ho.
  rewrite walkTracing_unfold, Ho in Hw.
  destruct (forEachM walkOutput ([], st.1) (traceOutputs tracing))
    as [r|] eqn:Hr; simpl in Hw; [|done].
  injection Hw as <-. simpl. split.
  - eexists. split; [apply get_set_eq|]. split; [done|]. intros id. simpl.
    rewrite (walkOutputs_get _ _ _ id Hr). unfold traceCalls.
    by destruct (lastCall id (traceOutputs tracing ≫= truthyToolCalls)).
  - intros k Hk. by rewrite get_set_ne.
Qed.

Lemma walkTracings_other tracings st st' k :
  forEachM walkTracing st tracings = Returns st' →
  k ∉ tr_id <$> tracings → JsMap.get k st'.2 = JsMap.get k st.2.
Proof.
  revert st. induction tracings as [|t tracings IH]; intros st; simpl.
  - by intros [= <-].
  - destruct (walkTracing st t) as [st1|] eqn:Ht; simpl; [|done].
    intros Hrest [Hne Hk]%not_elem_of_cons. rewrite (IH _ Hrest Hk).
    by apply (walkTracing_entry _ _ _ Ht).
Qed.

Lemma walkTracings_entry tracings st st' before tracing after :
  forEachM walkTracing st tracings = Returns st' →
  tracings = before ++ tracing :: after →
  tr_id tracing ∉ tr_id <$> after →
  ∃ entry, JsMap.get (tr_id tracing) st'.2 = Some entry ∧
           entryOf tracing entry.
Proof.
  intros Hw -> Hafter. rewrite forEachM_app in Hw.
  destruct (forEachM walkTracing st before) as [st0|]; simpl in Hw; [|done].
  destruct (walkTracing st0 tracing) as [st1|] eqn:Ht; simpl in Hw; [|done].
  rewrite (walkTracings_other _ _ _ _ Hw Hafter).
  by apply (walkTracing_entry _ _ _ Ht).
Qed.

Lemma getTools_entry before tracing after r :
  getTools (before ++ tracing :: after) = Returns r →
  tr_id tracing ∉ tr_id <$> after →
  ∃ entry, JsMap.get (tr_id tracing) (tracingToolCalls r) = Some entry ∧
           entryOf tracing entry.
Proof.
  unfold getTools.
  destruct (forEachM walkTracing ([], []) (before ++ tracing :: after))
    as [st|] eqn:Hst; simpl; [|done].
  intros [= <-] Hafter. simpl. by eapply walkTracings_entry.
Qed.

(** ** First occurrences *)

Section firstBy_facts.
Context {A K : Type} `{EqDecision K} (key : A → K).
Implicit Types (l : list A) (x : A).

Lemma firstBy_snoc l x :
  firstBy key (l ++ [x]) =
  if decide (key x ∈ key <$> firstBy key l) then firstBy key l
  else firstBy key l ++ [x].
Proof. unfold firstBy. by rewrite foldl_snoc. Qed.

Lemma firstBy_keys l : key <$> firstBy key l = JsSet.ofList (key <$> l).
Proof.
  induction l as [|x l IH] using rev_ind; [done|].
  rewrite firstBy_snoc, fmap_snoc, ofList_snoc, <-IH. unfold JsSet.add.
  case_decide; [done|]. by rewrite fmap_snoc.
Qed.

(** An element kept by [firstBy] is the first of the list with its key. *)
Lemma firstBy_head l x :
  x ∈ firstBy key l → head (filter (λ y, key y = key x) l) = Some x.
Proof.
  induction l as [|y l IH] using rev_ind; [by intros ?%elem_of_nil|].
  rewrite firstBy_snoc, filter_app. case_decide as Hy.
  - intros Hx. rewrite head_app, (IH Hx). done.
  - rewrite elem_of_app, list_elem_of_singleton. intros [Hx| ->].
    + rewrite head_app, (IH Hx). done.
    + assert (filter (λ y0, key y0 = key y) l = []) as ->.
      { destruct (filter (λ y0, key y0 = key y) l) as [|z l'] eqn:Hf;
          [done|]. exfalso. apply Hy.
        assert (z ∈ filter (λ y0, key y0 = key y) l) as Hz
          by (rewrite Hf; apply list_elem_of_here).
        apply list_elem_of_filter in Hz as [Hkz Hz].
        rewrite firstBy_keys, elem_of_ofList, <-Hkz.
        by apply list_elem_of_fmap_2. }
      simpl. rewrite filter_cons, decide_True by done. done.
Qed.
End firstBy_facts.

Lemma firstBy_firstCall calls c :
  c ∈ firstBy tc_id calls → firstCall (tc_id c) calls = Some c.
Proof. apply (firstBy_head tc_id). Qed.

(** ** [extractToolCallOrder] *)

Lemma indexedCalls_snd_gen (f : nat → nat) outputs :
  snd <$> (imap (λ i o, (f i, o)) outputs
           ≫= λ io, pair io.1 <$> truthyToolCalls io.2) =
  outputs ≫= truthyToolCalls.
Proof.
  revert f. induction outputs as [|o outputs IH]; intros f; [done|].
  rewrite imap_cons, !bind_cons, fmap_app. f_equal.
  - simpl. rewrite <-list_fmap_compose. apply list_fmap_id.
  - apply (IH (f ∘ S)).
Qed.

Lemma indexedCalls_snd outputs :
  snd <$> indexedCalls outputs = outputs ≫= truthyToolCalls.
Proof. apply (indexedCalls_snd_gen id). Qed.

Lemma recordCalls_flat outputs :
  recordCalls outputs = foldl recordStep ([], 0) (indexedCalls outputs).
Proof.
  unfold recordCalls, indexedCalls. rewrite foldl_bind.
  apply foldl_ext. intros st [i o]. simpl. by rewrite foldl_fmap.
Qed.

Lemma entryView_keys (m : list (string * CallEntry)) (l : list ToolCall) :
  entryView <$> m = imap callView l → JsMap.keys m = tc_id <$> l.
Proof.
  intros Hv. unfold JsMap.keys.
  transitivity ((λ v : string * string * string * nat, v.1.1.1)
                  <$> (entryView <$> m)).
  - rewrite <-list_fmap_compose. by apply list_fmap_ext.
  - rewrite Hv, fmap_imap. apply imap_const.
Qed.

Lemma recordSteps_view (ics : list (nat * ToolCall)) :
  let st := foldl recordStep ([], 0) ics in
  st.2 = length st.1 ∧
  entryView <$> st.1 = imap callView (firstBy tc_id (snd <$> ics)).
Proof.
  induction ics as [|[i c] ics [IHn IHv]] using rev_ind; [done|].
  rewrite foldl_snoc, fmap_snoc, firstBy_snoc. simpl.
  set (st := foldl recordStep ([], 0) ics) in *.
  unfold recordStep, recordCall. simpl.
  pose proof (entryView_keys _ _ IHv) as Hk.
  destruct (JsMap.has (tc_id c) st.1) eqn:Hhas.
  - apply has_true in Hhas. rewrite Hk in Hhas.
    rewrite decide_True by done. done.
  - apply has_false in Hhas. rewrite decide_False by by rewrite <-Hk.
    simpl. rewrite set_absent by done. rewrite length_app. simpl.
    split; [lia|]. rewrite fmap_snoc, imap_app, IHv. simpl. f_equal.
    unfold entryView, callView. simpl. rewrite IHn.
    rewrite <-(length_fmap entryView st.1), IHv, length_imap.
    by rewrite Nat.add_0_r.
Qed.

Global Instance index_le_trans : Transitive index_le.
Proof. unfold index_le. intros a b c ??. lia. Qed.
Global Instance index_le_total : Total index_le.
Proof. unfold index_le. intros a b. lia. Qed.

Lemma indexed_StronglySorted (l : list CallEntry) n :
  (∀ i e, l !! i = Some e → ce_index e = n + i) →
  StronglySorted index_le l.
Proof.
  revert n. induction l as [|x l IH]; intros n Hl; constructor.
  - apply (IH (S n)). intros i e Hi. rewrite (Hl (S i) e Hi). lia.
  - apply Forall_lookup. intros i e Hi. unfold index_le.
    rewrite (Hl 0 x eq_refl), (Hl (S i) e Hi). lia.
Qed.

(** Sorting by [index] leaves a list alone whose entries carry their own
    position. *)
Lemma sortByIndex_indexed (l : list CallEntry) :
  (∀ i e, l !! i = Some e → ce_index e = i) → sortByIndex l = l.
Proof.
  intros Hl. unfold sortByIndex.
  apply (StronglySorted_unique_strong index_le).
  - intros x1 x2 Hx1 Hx2 H12 H21. unfold index_le in H12, H21.
    rewrite merge_sort_Permutation in Hx1.
    apply list_elem_of_lookup in Hx1 as [i1 Hi1].
    apply list_elem_of_lookup in Hx2 as [i2 Hi2].
    pose proof (Hl _ _ Hi1). pose proof (Hl _ _ Hi2).
    assert (i1 = i2) as -> by lia. congruence.
  - apply StronglySorted_merge_sort; apply _.
  - by apply (indexed_StronglySorted l 0).
  - apply merge_sort_Permutation.
Qed.

Lemma orderLinks_ids (l : list CallEntry) :
  orderLinks l = idLinks (ce_id <$> l).
Proof.
  unfold orderLinks, idLinks. rewrite length_fmap.
  apply list_omap_ext, Forall2_same_length_lookup.
  split; [done|]. intros i x y Hx Hy. rewrite Hx in Hy. injection Hy as <-.
  rewrite !list_lookup_fmap. by destruct (l !! x), (l !! S x).
Qed.

Lemma view_lookup (m : list (string * CallEntry)) (l : list ToolCall) i :
  entryView <$> m = imap callView l →
  entryView <$> m !! i = callView i <$> l !! i.
Proof.
  intros Hv. by rewrite <-list_lookup_fmap, Hv, list_lookup_imap.
Qed.

Section toolCallMap_facts.
Context (m : list (string * CallEntry)) (l : list ToolCall).
Hypothesis Hview : entryView <$> m = imap callView l.

Lemma toolCallMap_indexed i e :
  JsMap.values m !! i = Some e → ce_index e = i.
Proof using Hview.
  unfold JsMap.values. rewrite list_lookup_fmap. intros He.
  pose proof (view_lookup m l i Hview) as Hi.
  destruct (m !! i) as [[k e']|]; [|done]. injection He as ->.
  destruct (l !! i); [|done]. by injection Hi.
Qed.

Lemma toolCallMap_nodes : imap orderNode (JsMap.values m) = imap callNode l.
Proof using Hview.
  apply list_eq. intros i. unfold JsMap.values.
  rewrite !list_lookup_imap, list_lookup_fmap.
  pose proof (view_lookup m l i Hview) as Hi.
  destruct (m !! i) as [[k e]|], (l !! i) as [c|]; try done.
  simpl. f_equal. injection Hi as _ Hid Hname Hidx.
  unfold orderNode, callNode. by rewrite Hid, Hname, Hidx.
Qed.

Lemma toolCallMap_ids : ce_id <$> JsMap.values m = tc_id <$> l.
Proof using Hview.
  apply list_eq. intros i. unfold JsMap.values.
  rewrite !list_lookup_fmap.
  pose proof (view_lookup m l i Hview) as Hi.
  destruct (m !! i) as [[k e]|], (l !! i) as [c|]; try done.
  simpl. f_equal. by injection Hi.
Qed.

Lemma toolCallMap_names : ce_name <$> JsMap.values m = tc_name <$> l.
Proof using Hview.
  apply list_eq. intros i. unfold JsMap.values.
  rewrite !list_lookup_fmap.
  pose proof (view_lookup m l i Hview) as Hi.
  destruct (m !! i) as [[k e]|], (l !! i) as [c|]; try done.
  simpl. f_equal. by injection Hi.
Qed.
End toolCallMap_facts.

Lemma recordCalls_view outputs :
  entryView <$> (recordCalls outputs).1 =
  imap callView (firstBy tc_id (outputs ≫= truthyToolCalls)).
Proof.
  rewrite recordCalls_flat, <-indexedCalls_snd.
  apply (recordSteps_view (indexedCalls outputs)).
Qed.

Lemma traceCalls_outputs tracing outputs :
  tr_outputs tracing = Some {| messages := Some outputs |} →
  traceCalls tracing = outputs ≫= truthyToolCalls.
Proof. unfold traceCalls, traceOutputs. by intros ->. Qed.

Lemma traceCalls_missing tracing :
  tr_outputs tracing = None ∨ tr_outputs tracing = Some {| messages := None |} →
  traceCalls tracing = [].
Proof. unfold traceCalls, traceOutputs. by intros [-> | ->]. Qed.

(** The order graph is read off the first occurrences of the call ids. *)
Lemma extractToolCallOrder_char tracing :
  extractToolCallOrder tracing =
  {| og_nodes := imap callNode (firstBy tc_id (traceCalls tracing));
     og_links := idLinks (tc_id <$> firstBy tc_id (traceCalls tracing)) |}.
Proof.
  unfold extractToolCallOrder.
  destruct (tr_outputs tracing) as [[[outputs|]]|] eqn:Ho.
  - rewrite (traceCalls_outputs _ _ Ho). cbv beta iota zeta delta [messages].
    pose proof (recordCalls_view outputs) as Hv.
    rewrite sortByIndex_indexed by by eapply toolCallMap_indexed.
    rewrite orderLinks_ids. f_equal.
    + by apply toolCallMap_nodes.
    + f_equal. by apply toolCallMap_ids.
  - rewrite traceCalls_missing by by right. done.
  - rewrite traceCalls_missing by by left. done.
Qed.

Lemma idLinks_length ids : length (idLinks ids) = length ids - 1.
Proof.
  unfold idLinks.
  assert (∀ n k, k + n ≤ length ids →
            length (omap (λ i,
                match ids !! i, ids !! S i with
                | Some a, Some b =>
                    Some {| ol_source := a; ol_target := b; ol_weight := 1 |}
                | _, _ => None
                end) (seq k (n - 1))) = n - 1) as Hgen.
  { induction n as [|n IH]; intros k Hk; [done|].
    destruct n as [|n]; [done|]. replace (S (S n) - 1) with (S (S n - 1)) by lia.
    simpl seq. simpl omap.
    destruct (lookup_lt_is_Some_2 ids k) as [a ->]; [lia|].
    destruct (lookup_lt_is_Some_2 ids (S k)) as [b ->]; [lia|].
    simpl. f_equal. apply IH. lia. }
  by apply (Hgen (length ids) 0).
Qed.

Lemma idLinks_lookup ids i a b :
  ids !! i = Some a → ids !! S i = Some b →
  idLinks ids !! i =
  Some {| ol_source := a; ol_target := b; ol_weight := 1 |}.
Proof.
  intros Ha Hb. unfold idLinks.
  assert (∀ n k i, k + n ≤ length ids → S i < n →
            omap (λ i,
                match ids !! i, ids !! S i with
                | Some a, Some b =>
                    Some {| ol_source := a; ol_target := b; ol_weight := 1 |}
                | _, _ => None
                end) (seq k (n - 1)) !! i =
            match ids !! (k + i), ids !! S (k + i) with
            | Some a, Some b =>
                Some {| ol_source := a; ol_target := b; ol_weight := 1 |}
            | _, _ => None
            end) as Hgen.
  { induction n as [|n IH]; intros k j Hk Hj; [lia|].
    destruct n as [|n]; [lia|]. replace (S (S n) - 1) with (S (S n - 1)) by lia.
    simpl seq. simpl omap.
    destruct (lookup_lt_is_Some_2 ids k) as [a' Ha']; [lia|].
    destruct (lookup_lt_is_Some_2 ids (S k)) as [b' Hb']; [lia|].
    rewrite Ha', Hb'. destruct j as [|j].
    - simpl. by rewrite Nat.add_0_r, Ha', Hb'.
    - simpl. rewrite IH by lia. by replace (S k + j) with (k + S j) by lia. }
  pose proof (lookup_lt_Some _ _ _ Hb).
  rewrite (Hgen (length ids) 0 i) by lia. simpl. by rewrite Ha, Hb.
Qed.

Lemma first_seen_order_size (l seen : list string) :
  first_seen_order l seen →
  length l = size (list_to_set seen : gset string).
Proof.
  intros (Hnd & Hel & _). rewrite <-(size_list_to_set (C:=gset string) l Hnd).
  f_equal. apply set_eq. intros x. by rewrite !elem_of_list_to_set, Hel.
Qed.

Lemma listedCalls_bind outputs calls :
  listedCalls outputs calls → calls = outputs ≫= truthyToolCalls.
Proof.
  induction 1 as [|o outputs calls rest Ho _ IH|o outputs rest Ho _ IH
                  |o outputs rest Ho _ IH];
    [done|..]; cbn; unfold truthyToolCalls at 1; rewrite Ho; by rewrite IH.
Qed.

Lemma requestsOf_traceCalls tracing calls :
  requestsOf tracing calls → calls = traceCalls tracing.
Proof.
  unfold requestsOf, traceCalls, traceOutputs.
  destruct (tr_outputs tracing) as [[[outputs|]]|]; [|done..].
  apply listedCalls_bind.
Qed.

(** Every trace has its list of requests. *)
Lemma requestsOf_total tracing : ∃ calls, requestsOf tracing calls.
Proof.
  unfold requestsOf.
  destruct (tr_outputs tracing) as [[[outputs|]]|]; [|by exists []..].
  induction outputs as [|o outputs [rest IH]]; [exists []; constructor|].
  destruct (o_tool_calls o) as [[calls|]|] eqn:Ho.
  - exists (calls ++ rest). by constructor.
  - exists rest. by apply listed_null.
  - exists rest. by apply listed_absent.
Qed.

(** C2. The order graph of a trace has one node per distinct tool-call
    id of the requests of the trace, in first-seen order; its links form
    the single path through the nodes, [nodeCount - 1] links of weight 1,
    the link of rank [i] from node [i] to node [i + 1]; a node carries its
    position as [index] and [callIndex] and the name of the first request
    that used its id, whatever later requests under the same id say. *)
Theorem extractToolCallOrder_path tracing calls :
  requestsOf tracing calls →
  let g := extractToolCallOrder tracing in
  first_seen_order (on_id <$> og_nodes g) (tc_id <$> calls) ∧
  length (og_nodes g) = size (list_to_set (tc_id <$> calls) : gset string) ∧
  length (og_links g) = length (og_nodes g) - 1 ∧
  (∀ i a b, og_nodes g !! i = Some a → og_nodes g !! S i = Some b →
     og_links g !! i =
     Some {| ol_source := on_id a; ol_target := on_id b; ol_weight := 1 |}) ∧
  (∀ i n, og_nodes g !! i = Some n →
     on_index n = i ∧ on_callIndex n = i ∧
     ∃ c, firstCall (on_id n) calls = Some c ∧ on_name n = tc_name c).
Proof.
  intros ->%requestsOf_traceCalls g.
  set (calls := traceCalls tracing).
  subst g. rewrite extractToolCallOrder_char. simpl.
  fold calls.
  assert (on_id <$> imap callNode (firstBy tc_id calls) =
          tc_id <$> firstBy tc_id calls) as Hids.
  { rewrite fmap_imap. apply imap_const. }
  assert (first_seen_order (on_id <$> imap callNode (firstBy tc_id calls))
            (tc_id <$> calls)) as Hfs.
  { rewrite Hids, firstBy_keys. apply ofList_first_seen. }
  split_and!.
  - done.
  - rewrite <-(first_seen_order_size _ _ Hfs). by rewrite length_fmap.
  - by rewrite idLinks_length, length_fmap, length_imap.
  - intros i a b. rewrite !list_lookup_imap. intros Ha Hb.
    destruct (firstBy tc_id calls !! i) as [ca|] eqn:Hca; [|done].
    destruct (firstBy tc_id calls !! S i) as [cb|] eqn:Hcb; [|done].
    injection Ha as <-. injection Hb as <-. simpl.
    apply idLinks_lookup; rewrite list_lookup_fmap; [by rewrite Hca|by rewrite Hcb].
  - intros i n. rewrite list_lookup_imap. intros Hn.
    destruct (firstBy tc_id calls !! i) as [c|] eqn:Hc; [|done].
    injection Hn as <-. simpl. split_and!; [done..|].
    exists c. split; [|done]. apply firstBy_firstCall.
    by eapply list_elem_of_lookup_2.
Qed.

(** A trace of three events: two requests, the result of the first, and
    two more requests of which the first reuses the id "c1" under another
    name. The graph has the three nodes c1, c2, c3 and the two links
    c1 -> c2 -> c3; the node c1 keeps the name of its first request. *)
Lemma extractToolCallOrder_path_witness :
  let tracing :=
    traceOf [callEvent [request "c1" "search"; request "c2" "fetch"];
             resultEvent "c1";
             callEvent [request "c1" "other"; request "c3" "search"]] in
  let calls :=
    [request "c1" "search"; request "c2" "fetch"; request "c1" "other";
     request "c3" "search"] in
  let g := extractToolCallOrder tracing in
  requestsOf tracing calls ∧
  og_nodes g =
    [{| on_id := "c1"; on_name := "search"; on_index := 0;
        on_callIndex := 0 |};
     {| on_id := "c2"; on_name := "fetch"; on_index := 1;
        on_callIndex := 1 |};
     {| on_id := "c3"; on_name := "search"; on_index := 2;
        on_callIndex := 2 |}] ∧
  og_links g =
    [{| ol_source := "c1"; ol_target := "c2"; ol_weight := 1 |};
     {| ol_source := "c2"; ol_target := "c3"; ol_weight := 1 |}] ∧
  first_seen_order (on_id <$> og_nodes g) (tc_id <$> calls) ∧
  length (og_nodes g) = 3 ∧
  length (og_links g) = length (og_nodes g) - 1.
Proof.
  intros tracing calls g.
  assert (requestsOf tracing calls) as Hcalls.
  { unfold requestsOf, tracing, traceOf, calls. cbn.
    apply (listed_calls _ _ [request "c1" "search"; request "c2" "fetch"]);
      [reflexivity|].
    apply listed_absent; [reflexivity|].
    apply (listed_calls _ _ [request "c1" "other"; request "c3" "search"]
             []); [reflexivity|].
    apply listed_nil. }
  destruct (extractToolCallOrder_path tracing calls Hcalls)
    as (Hfs & Hsize & Hlen & _ & _).
  split; [exact Hcalls|]. split; [reflexivity|]. split; [reflexivity|].
  split; [exact Hfs|]. split; [reflexivity|]. exact Hlen.
Defined.

(** ** [extractToolCallFlow] *)

Lemma recordFlowCalls_flat outputs :
  recordFlowCalls outputs = foldl flowStep ([], 0, []) (indexedCalls outputs).
Proof.
  unfold recordFlowCalls, indexedCalls. rewrite foldl_bind.
  apply foldl_ext. intros st [i o]. simpl. by rewrite foldl_fmap.
Qed.

Lemma flowSteps_record (ics : list (nat * ToolCall)) :
  let st := foldl flowStep ([], 0, []) ics in
  st.1 = foldl recordStep ([], 0) ics ∧
  st.2 = ce_name <$> JsMap.values st.1.1.
Proof.
  induction ics as [|[i c] ics [IH1 IH2]] using rev_ind; [done|].
  rewrite !foldl_snoc. simpl.
  set (st := foldl flowStep ([], 0, []) ics) in *.
  rewrite <-IH1. unfold flowStep, recordStep, recordFlowCall, recordCall.
  simpl. destruct (JsMap.has (tc_id c) st.1.1) eqn:Hhas; [done|].
  simpl. split; [done|]. apply has_false in Hhas.
  rewrite set_absent by done. unfold JsMap.values in *.
  by rewrite !fmap_snoc, IH2.
Qed.

Lemma recordFlowCalls_sequence outputs :
  (recordFlowCalls outputs).2 =
  tc_name <$> firstBy tc_id (outputs ≫= truthyToolCalls).
Proof.
  rewrite recordFlowCalls_flat.
  destruct (flowSteps_record (indexedCalls outputs)) as [H1 H2].
  rewrite H2, H1, <-recordCalls_flat.
  by apply toolCallMap_names, recordCalls_view.
Qed.

Lemma extractToolCallFlow_char tracing outputs :
  tr_outputs tracing = Some {| messages := Some outputs |} →
  extractToolCallFlow tracing = flowOf (callSequenceOf tracing).
Proof.
  intros Ho. unfold extractToolCallFlow, callSequenceOf, flowOf.
  rewrite Ho, (traceCalls_outputs _ _ Ho).
  cbv beta iota zeta delta [messages].
  by rewrite recordFlowCalls_sequence.
Qed.

Lemma extractToolCallFlow_missing tracing :
  tr_outputs tracing = None ∨ tr_outputs tracing = Some {| messages := None |} →
  extractToolCallFlow tracing =
  {| fg_nodes := []; fg_links := []; fg_callSequence := None |}.
Proof. unfold extractToolCallFlow. by intros [-> | ->]. Qed.

(** *** Nodes *)

Lemma flow_nodes_names callSequence :
  fn_name <$> fg_nodes (flowOf callSequence) = JsSet.ofList callSequence.
Proof.
  simpl. rewrite fmap_imap.
  rewrite <-(list_fmap_id (JsSet.ofList callSequence)) at 2.
  apply (imap_const id).
Qed.

Lemma flow_nodes_lookup callSequence i n :
  fg_nodes (flowOf callSequence) !! i = Some n →
  fn_id n = fn_name n ∧ fn_index n = i ∧
  fn_count n = length (filter (λ x, x = fn_name n) callSequence).
Proof.
  simpl. rewrite list_lookup_imap.
  destruct (JsSet.ofList callSequence !! i); [|done].
  by intros [= <-].
Qed.

(** *** Links *)

Lemma weightSum_app m1 m2 : weightSum (m1 ++ m2) = weightSum m1 + weightSum m2.
Proof.
  unfold weightSum, JsMap.values. by rewrite !fmap_app, sum_list_with_app.
Qed.

Lemma weightSum_bump m k e :
  JsMap.get k m = Some e →
  weightSum (JsMap.set k (bumpWeight e) m) = S (weightSum m).
Proof.
  induction m as [|[k' e'] m IH]; [done|]. simpl.
  destruct (decide (k' = k)) as [->|Hne].
  - intros [= ->]. unfold weightSum. simpl. lia.
  - intros Hg. change ((k', e') :: JsMap.set k (bumpWeight e) m)
      with ([(k', e')] ++ JsMap.set k (bumpWeight e) m).
    change ((k', e') :: m) with ([(k', e')] ++ m).
    rewrite !weightSum_app, (IH Hg). lia.
Qed.

Lemma weightSum_addEdge m i source target :
  weightSum (addEdge m i source target) = S (weightSum m).
Proof.
  unfold addEdge.
  destruct (JsMap.get (edgeKey source target) m) as [e|] eqn:Hg.
  - by apply weightSum_bump.
  - apply get_None in Hg. rewrite set_absent by done.
    rewrite weightSum_app. unfold weightSum at 2. simpl. lia.
Qed.

Lemma weightSum_transitions callSequence (idxs : list nat) m :
  Forall (λ i, S i < length callSequence) idxs →
  weightSum (foldl (addTransition callSequence) m idxs) =
  weightSum m + length idxs.
Proof.
  intros His. revert m. induction His as [|i idxs Hi _ IH]; intros m; simpl.
  - lia.
  - rewrite IH. unfold addTransition.
    destruct (lookup_lt_is_Some_2 callSequence i) as [a ->]; [lia|].
    destruct (lookup_lt_is_Some_2 callSequence (S i)) as [b ->]; [lia|].
    rewrite weightSum_addEdge. lia.
Qed.

(** The weights of the links add up to the number of transitions. *)
Lemma flow_weights_sum callSequence :
  sum_list (fl_weight <$> fg_links (flowOf callSequence)) =
  length callSequence - 1.
Proof.
  simpl. fold (weightSum (flowEdges callSequence)). unfold flowEdges.
  rewrite weightSum_transitions.
  - unfold weightSum. simpl. by rewrite length_seq.
  - apply Forall_seq. intros j Hj. lia.
Qed.

Lemma flowEdges_transitions callSequence :
  flowEdges callSequence = foldl edgeStep [] (transitions callSequence).
Proof.
  unfold flowEdges, transitions.
  generalize (seq 0 (length callSequence - 1)) as idxs.
  generalize (@nil (string * FlowLink)) as m.
  intros m idxs. revert m. induction idxs as [|i idxs IH]; intros m; [done|].
  simpl. rewrite IH. unfold addTransition.
  by destruct (callSequence !! i), (callSequence !! S i).
Qed.

Lemma filter_key_nil (ts : list (nat * (string * string))) k :
  k ∉ transitionKey <$> ts → filter (λ t, transitionKey t = k) ts = [].
Proof.
  intros Hk. destruct (filter (λ t, transitionKey t = k) ts) as [|t l] eqn:Hf;
    [done|]. exfalso. apply Hk.
  assert (t ∈ filter (λ t, transitionKey t = k) ts) as Ht
    by (rewrite Hf; apply list_elem_of_here).
  apply list_elem_of_filter in Ht as [<- Ht]. by apply list_elem_of_fmap_2.
Qed.

Lemma edgeSteps_by_key (ts : list (nat * (string * string))) :
  let m := foldl edgeStep [] ts in
  JsMap.keys m = JsSet.ofList (transitionKey <$> ts) ∧
  ∀ k e, JsMap.get k m = Some e → linkOf ts k e.
Proof.
  induction ts as [|t ts [IHk IHe]] using rev_ind.
  { split; [done|]. intros k e. done. }
  rewrite foldl_snoc, fmap_snoc, ofList_snoc. simpl.
  set (m := foldl edgeStep [] ts) in *.
  unfold edgeStep, addEdge. fold (transitionKey t).
  destruct (JsMap.get (transitionKey t) m) as [e0|] eqn:Hg.
  - assert (transitionKey t ∈ JsMap.keys m) as Hin
      by (apply get_is_Some; eauto).
    split.
    + rewrite keys_set_present by done. unfold JsSet.add.
      rewrite decide_True; [done|]. by rewrite <-IHk.
    + intros k e. unfold linkOf. rewrite filter_app, length_app, head_app.
      destruct (decide (transitionKey t = k)) as [<-|Hne].
      * rewrite get_set_eq. intros [= <-].
        destruct (IHe _ _ Hg) as (Hw & t0 & Hh & Hs & Ht & Hq).
        rewrite filter_cons, decide_True, filter_nil by done. simpl.
        split; [lia|]. exists t0. by rewrite Hh.
      * rewrite get_set_ne by done. intros Hk.
        destruct (IHe _ _ Hk) as (Hw & t0 & Hh & Hs & Ht & Hq).
        rewrite filter_cons, decide_False, filter_nil by done. simpl.
        split; [lia|]. exists t0. by rewrite Hh.
  - apply get_None in Hg as Hnin. rewrite set_absent by done. split.
    + unfold JsMap.keys in *. rewrite fmap_snoc, IHk. unfold JsSet.add.
      rewrite decide_False; [done|]. by rewrite <-IHk.
    + intros k e. unfold linkOf. rewrite filter_app, length_app, head_app.
      destruct (decide (transitionKey t = k)) as [<-|Hne].
      * rewrite get_app_r by done. simpl. rewrite decide_True by done.
        intros [= <-]. rewrite filter_key_nil.
        2:{ rewrite <-elem_of_ofList. by rewrite <-IHk. }
        rewrite filter_cons, decide_True, filter_nil by done. simpl.
        split; [done|]. by exists t.
      * intros Hk. assert (JsMap.get k m = Some e) as Hk'.
        { destruct (decide (k ∈ JsMap.keys m)) as [Hkin|Hkin].
          - by rewrite get_app_l in Hk.
          - rewrite get_app_r in Hk by done. simpl in Hk.
            by rewrite decide_False in Hk. }
        destruct (IHe _ _ Hk') as (Hw & t0 & Hh & Hs & Ht & Hq).
        rewrite filter_cons, decide_False, filter_nil by done. simpl.
        split; [lia|]. exists t0. by rewrite Hh.
Qed.

(** The flow graph has one link per distinct edge key
    [source ++ "->" ++ target], in the order the keys first occur. *)
Lemma flow_links_by_key callSequence :
  let m := flowEdges callSequence in
  fg_links (flowOf callSequence) = JsMap.values m ∧
  first_seen_order (JsMap.keys m)
    (transitionKey <$> transitions callSequence) ∧
  ∀ k e, JsMap.get k m = Some e → linkOf (transitions callSequence) k e.
Proof.
  simpl. rewrite flowEdges_transitions.
  destruct (edgeSteps_by_key (transitions callSequence)) as [Hk He].
  split_and!; [done| |done]. rewrite Hk. apply ofList_first_seen.
Qed.

Lemma firstIndex_fmap_on {A B} `{EqDecision A, EqDecision B} (f : A → B)
    (l : list A) x :
  (∀ y, y ∈ l → f y = f x → y = x) →
  firstIndex (f x) (f <$> l) = firstIndex x l.
Proof.
  unfold firstIndex. induction l as [|y l IH]; intros Hinj; [done|].
  csimpl. destruct (decide (y = x)) as [->|Hne].
  - by rewrite decide_True.
  - rewrite decide_False.
    2:{ intros Hf. apply Hne, Hinj; [apply list_elem_of_here|done]. }
    assert (fst <$> list_find (λ z, z = f x) (f <$> l) =
            fst <$> list_find (λ z, z = x) l) as IH'.
    { apply IH. intros z Hz. apply Hinj. by apply list_elem_of_further. }
    destruct (list_find (λ z, z = f x) (f <$> l)) as [[i z]|],
      (list_find (λ z, z = x) l) as [[i' z']|]; simpl in *; congruence.
Qed.

Lemma length_filter_on {A} (P Q : A → Prop) `{∀ x, Decision (P x)}
    `{∀ x, Decision (Q x)} (l : list A) :
  (∀ x, x ∈ l → P x ↔ Q x) → length (filter P l) = length (filter Q l).
Proof.
  induction l as [|x l IH]; intros HPQ; [done|].
  rewrite !filter_cons.
  assert (length (filter P l) = length (filter Q l)) as IH'.
  { apply IH. intros y Hy. apply HPQ. by apply list_elem_of_further. }
  pose proof (HPQ x (list_elem_of_here _ _)) as Hx.
  destruct (decide (P x)), (decide (Q x)); simpl; try tauto; by rewrite IH'.
Qed.

Lemma length_filter_fmap {A B} (f : A → B) (P : B → Prop)
    `{∀ y, Decision (P y)} (l : list A) :
  length (filter P (f <$> l)) = length (filter (λ x, P (f x)) l).
Proof.
  induction l as [|x l IH]; [done|]. csimpl. rewrite !filter_cons.
  destruct (decide (P (f x))); simpl; by rewrite IH.
Qed.

(** When no two distinct transitions of the call sequence share an edge
    key, the flow graph has one link per distinct transition, in first-seen
    order, weighing the number of times the transition occurs. *)
Lemma flow_links_by_pair callSequence :
  (∀ t1 t2, t1 ∈ transitions callSequence → t2 ∈ transitions callSequence →
     transitionKey t1 = transitionKey t2 → t1.2 = t2.2) →
  let links := fg_links (flowOf callSequence) in
  let pairs := snd <$> transitions callSequence in
  first_seen_order ((λ e, (fl_source e, fl_target e)) <$> links) pairs ∧
  ∀ e, e ∈ links →
    fl_weight e =
    length (filter (λ p, p = (fl_source e, fl_target e)) pairs).
Proof.
  intros Hinj links pairs. subst links pairs. simpl.
  rewrite flowEdges_transitions.
  set (ts := transitions callSequence) in *.
  destruct (edgeSteps_by_key ts) as [Hkeys Hlinks]. simpl in Hkeys, Hlinks.
  set (m := foldl edgeStep [] ts) in *.
  set (pairOf := λ e : FlowLink, (fl_source e, fl_target e)).
  set (pkey := λ p : string * string, edgeKey p.1 p.2).
  assert (NoDup (JsMap.keys m)) as Hnd by (rewrite Hkeys; apply NoDup_ofList).
  assert (∀ k e, (k, e) ∈ m →
            ∃ t0, t0 ∈ ts ∧ transitionKey t0 = k ∧ pairOf e = t0.2 ∧
                  fl_weight e =
                  length (filter (λ t, transitionKey t = k) ts)) as Hentry.
  { intros k e Hin. apply (elem_of_get _ _ _ Hnd) in Hin.
    destruct (Hlinks k e Hin) as (Hw & t0 & Hh & Hs & Ht & _).
    apply head_Some_elem_of, list_elem_of_filter in Hh as [Hk Ht0].
    exists t0. split_and!; try done. unfold pairOf. rewrite Hs, Ht.
    by destruct t0 as [? [? ?]]. }
  assert (pkey <$> (pairOf <$> JsMap.values m) = JsMap.keys m) as Hpk.
  { unfold JsMap.values, JsMap.keys. rewrite <-!list_fmap_compose.
    apply list_fmap_ext. intros i [k e] Hi. simpl.
    destruct (Hentry k e) as (t0 & _ & <- & -> & _);
      [by eapply list_elem_of_lookup_2|]. done. }
  assert (∀ p, p ∈ pairOf <$> JsMap.values m ↔ p ∈ snd <$> ts) as Hmem.
  { intros p. split.
    - intros (e & -> & (ke & -> & Hin)%list_elem_of_fmap)%list_elem_of_fmap.
      destruct ke as [k e].
      destruct (Hentry k e Hin) as (t0 & Ht0 & _ & Hp & _).
      simpl. rewrite Hp. by apply list_elem_of_fmap_2.
    - intros (t & -> & Ht)%list_elem_of_fmap.
      assert (transitionKey t ∈ JsMap.keys m) as Hk.
      { rewrite Hkeys, elem_of_ofList. by apply list_elem_of_fmap_2. }
      apply get_is_Some in Hk as [e He]. apply get_elem_of in He.
      destruct (Hentry _ e He) as (t0 & Ht0 & Hk0 & Hp & _).
      rewrite <-(Hinj t0 t Ht0 Ht Hk0), <-Hp.
      apply list_elem_of_fmap_2.
      apply (list_elem_of_fmap_2 snd) in He. done. }
  assert (∀ a y, a ∈ snd <$> ts → y ∈ snd <$> ts → pkey y = pkey a → y = a)
    as Hpinj.
  { intros a y (ta & -> & Hta)%list_elem_of_fmap
      (ty & -> & Hty)%list_elem_of_fmap Hk. by apply Hinj. }
  split; [split_and!|].
  - apply (NoDup_fmap_1 pkey). rewrite Hpk. done.
  - done.
  - intros i j a b Hi Hj Hij.
    assert (JsMap.keys m !! i = Some (pkey a)) as Hki
      by by rewrite <-Hpk, list_lookup_fmap, Hi.
    assert (JsMap.keys m !! j = Some (pkey b)) as Hkj
      by by rewrite <-Hpk, list_lookup_fmap, Hj.
    pose proof (ofList_first_seen (transitionKey <$> ts)) as (_ & _ & Hord).
    rewrite <-Hkeys in Hord.
    destruct (Hord i j _ _ Hki Hkj Hij) as (p & q & Hp & Hq & Hpq).
    exists p, q. split_and!; [| |done].
    + rewrite <-Hp.
      replace (transitionKey <$> ts) with (pkey <$> (snd <$> ts))
        by (rewrite <-list_fmap_compose; apply list_fmap_ext;
            by intros ? [? [? ?]] _).
      symmetry. apply firstIndex_fmap_on. intros y Hy.
      apply Hpinj; [|done]. apply Hmem. by eapply list_elem_of_lookup_2.
    + rewrite <-Hq.
      replace (transitionKey <$> ts) with (pkey <$> (snd <$> ts))
        by (rewrite <-list_fmap_compose; apply list_fmap_ext;
            by intros ? [? [? ?]] _).
      symmetry. apply firstIndex_fmap_on. intros y Hy.
      apply Hpinj; [|done]. apply Hmem. by eapply list_elem_of_lookup_2.
  - intros e (ke & -> & Hin)%list_elem_of_fmap. destruct ke as [k e].
    destruct (Hentry k e Hin) as (t0 & Ht0 & Hk0 & Hp & Hw). simpl.
    rewrite Hw, length_filter_fmap. apply length_filter_on.
    intros t Ht. fold (pairOf e). rewrite Hp. split.
    + intros Hk. apply Hinj; [done..|]. by rewrite Hk0.
    + intros Heq. rewrite <-Hk0. unfold transitionKey. by rewrite Heq.
Qed.

Lemma append_nil_l (s : string) : "" +:+ s = s.
Proof. reflexivity. Qed.

Lemma append_cons c (a s : string) : String c a +:+ s = String c (a +:+ s).
Proof. reflexivity. Qed.

Ltac append_norm :=
  repeat (rewrite append_nil_l in * || rewrite append_cons in * ).

(** The edge key separates the transitions between names free of [>]. *)
Lemma edgeKey_inj a b a' b' :
  hasGt a = false → hasGt a' = false →
  edgeKey a b = edgeKey a' b' → a = a' ∧ b = b'.
Proof.
  unfold edgeKey. revert a'.
  induction a as [|c a IH]; intros [|c' a']; simpl; intros Ha Ha' Heq.
  - append_norm. by injection Heq as ->.
  - append_norm. injection Heq as <- Hrest. destruct a' as [|c2 a'].
    + append_norm. discriminate Hrest.
    + append_norm. injection Hrest as <- _. by vm_compute in Ha'.
  - append_norm. injection Heq as -> Hrest. destruct a as [|c2 a].
    + append_norm. discriminate Hrest.
    + append_norm. injection Hrest as -> _. by vm_compute in Ha.
  - rewrite !append_cons in Heq. injection Heq as -> Hrest.
    case_decide; [done|].
    destruct (IH a' Ha Ha' Hrest) as [-> ->]. done.
Qed.

Lemma transitions_elem callSequence t :
  t ∈ transitions callSequence →
  t.2.1 ∈ callSequence ∧ t.2.2 ∈ callSequence.
Proof.
  unfold transitions. intros (i & _ & Hi)%list_elem_of_omap.
  destruct (callSequence !! i) as [a|] eqn:Ha; [|done].
  destruct (callSequence !! S i) as [b|] eqn:Hb; [|done].
  injection Hi as <-. simpl. split; by eapply list_elem_of_lookup_2.
Qed.

(** In particular: whenever no tool name of the call sequence holds the
    character [>]. *)
Lemma flow_links_by_pair_plain callSequence :
  Forall (λ name, hasGt name = false) callSequence →
  let links := fg_links (flowOf callSequence) in
  let pairs := snd <$> transitions callSequence in
  first_seen_order ((λ e, (fl_source e, fl_target e)) <$> links) pairs ∧
  ∀ e, e ∈ links →
    fl_weight e =
    length (filter (λ p, p = (fl_source e, fl_target e)) pairs).
Proof.
  intros Hplain. apply flow_links_by_pair.
  intros [i1 [a1 b1]] [i2 [a2 b2]] [Ha1 _]%transitions_elem
    [Ha2 _]%transitions_elem Hk.
  rewrite Forall_forall in Hplain. simpl in *.
  destruct (edgeKey_inj a1 b1 a2 b2) as [-> ->]; auto.
Qed.

(** The flow graph of a trace: one node per distinct tool name of the call
    sequence, in first-seen order, counting the occurrences of the name;
    the link weights add up to the number of transitions. *)
Lemma extractToolCallFlow_nodes_weights tracing outputs :
  tr_outputs tracing = Some {| messages := Some outputs |} →
  let g := extractToolCallFlow tracing in
  let callSequence := callSequenceOf tracing in
  fg_callSequence g = Some callSequence ∧
  first_seen_order (fn_name <$> fg_nodes g) callSequence ∧
  length (fg_nodes g) = size (list_to_set callSequence : gset string) ∧
  (∀ i n, fg_nodes g !! i = Some n →
     fn_id n = fn_name n ∧ fn_index n = i ∧
     fn_count n = length (filter (λ x, x = fn_name n) callSequence)) ∧
  sum_list (fl_weight <$> fg_links g) = length callSequence - 1.
Proof.
  intros Ho g callSequence. subst g.
  rewrite (extractToolCallFlow_char _ _ Ho). fold callSequence.
  assert (first_seen_order (fn_name <$> fg_nodes (flowOf callSequence))
            callSequence) as Hfs.
  { rewrite flow_nodes_names. apply ofList_first_seen. }
  split_and!; [done|done| |apply flow_nodes_lookup|apply flow_weights_sum].
  rewrite <-(first_seen_order_size _ _ Hfs). by rewrite length_fmap.
Qed.

(** Example scenario: the call sequence [A, B, A, B, C]. *)
Lemma extractToolCallFlow_example :
  let g := extractToolCallFlow
             (traceOf [callEvent [request "1" "A"; request "2" "B"];
                       resultEvent "1";
                       callEvent [request "3" "A"; request "4" "B";
                                  request "5" "C"]]) in
  fg_callSequence g = Some ["A"; "B"; "A"; "B"; "C"] ∧
  (λ n, (fn_name n, fn_count n)) <$> fg_nodes g =
    [("A", 2); ("B", 2); ("C", 1)] ∧
  (λ e, (fl_source e, fl_target e, fl_weight e)) <$> fg_links g =
    [("A", "B", 2); ("B", "A", 1); ("B", "C", 1)].
Proof. by vm_compute. Qed.

(** C3. The edge key [source ++ "->" ++ target] does not separate every two
    transitions: in the call sequence [a->a, a, a->a] the transitions
    [(a->a, a)] and [(a, a->a)] share the key ["a->a->a"], so the flow graph
    holds a single link of weight 2 for two distinct transitions that occur
    once each. *)
Theorem extractToolCallFlow_key_collision :
  let g := extractToolCallFlow
             (traceOf [callEvent [request "1" "a->a"; request "2" "a";
                                  request "3" "a->a"]]) in
  fg_callSequence g = Some ["a->a"; "a"; "a->a"] ∧
  snd <$> transitions ["a->a"; "a"; "a->a"] =
    [("a->a", "a"); ("a", "a->a")] ∧
  edgeKey "a->a" "a" = edgeKey "a" "a->a" ∧
  fg_links g =
    [{| fl_source := "a->a"; fl_target := "a"; fl_weight := 2;
        fl_sequence := (0, 1) |}].
Proof. by vm_compute. Qed.

(** ** Dangling results *)

Lemma walkOutputs_dangling pre result post id tools0 :
  o_tool_calls result = None → o_tool_call_id result = Some id →
  id ∉ requestIds pre →
  forEachM walkOutput ([], tools0) (pre ++ result :: post) =
  forEachM walkOutput ([], tools0) (pre ++ post).
Proof.
  intros Hcalls Hid Hpre. rewrite !forEachM_app.
  destruct (forEachM walkOutput ([], tools0) pre) as [[calls tools1]|] eqn:Hw;
    [|done].
  simpl. unfold walkOutput at 1. rewrite Hcalls, Hid. simpl.
  rewrite addResponse_absent; [done|].
  by rewrite (walkOutputs_keys _ _ _ id Hw).
Qed.

Lemma truthyToolCalls_result result :
  o_tool_calls result = None → truthyToolCalls result = [].
Proof. unfold truthyToolCalls. by intros ->. Qed.

Lemma traceCalls_without tracing pre result post :
  tr_outputs tracing = Some {| messages := Some (pre ++ result :: post) |} →
  o_tool_calls result = None →
  traceCalls (withOutputs tracing (pre ++ post)) = traceCalls tracing.
Proof.
  intros Ho Hcalls. rewrite (traceCalls_outputs _ _ Ho).
  rewrite (traceCalls_outputs _ (pre ++ post)) by done.
  rewrite !bind_app, bind_cons. by rewrite truthyToolCalls_result.
Qed.

(** C7. A result event whose [tool_call_id] matches no earlier request of
    its trace changes nothing: each of the three extractions gives the
    result it gives on the trace without the event, and [getTools] returns
    whenever the remaining events can be walked. *)
Theorem dangling_result_dropped tracing pre result post id before after :
  tr_outputs tracing = Some {| messages := Some (pre ++ result :: post) |} →
  o_tool_calls result = None →
  o_tool_call_id result = Some id →
  id ∉ requestIds pre →
  let tracing' := withOutputs tracing (pre ++ post) in
  getTools (before ++ tracing :: after) =
    getTools (before ++ tracing' :: after) ∧
  extractToolCallOrder tracing = extractToolCallOrder tracing' ∧
  extractToolCallFlow tracing = extractToolCallFlow tracing' ∧
  (Forall walkable (before ++ tracing' :: after) →
   ∃ r, getTools (before ++ tracing :: after) = Returns r).
Proof.
  intros Ho Hcalls Hid Hpre tracing'.
  assert (getTools (before ++ tracing :: after) =
          getTools (before ++ tracing' :: after)) as Hget.
  { unfold getTools. f_equal. rewrite !forEachM_app.
    destruct (forEachM walkTracing ([], []) before) as [st|]; [|done].
    simpl. f_equal. rewrite !walkTracing_unfold. subst tracing'. simpl.
    rewrite Ho. by rewrite (walkOutputs_dangling _ _ _ id). }
  split_and!.
  - done.
  - rewrite !extractToolCallOrder_char. subst tracing'.
    by rewrite (traceCalls_without _ _ _ _ Ho Hcalls).
  - rewrite (extractToolCallFlow_char _ _ Ho).
    rewrite (extractToolCallFlow_char tracing' (pre ++ post)) by done.
    unfold callSequenceOf. subst tracing'.
    by rewrite (traceCalls_without _ _ _ _ Ho Hcalls).
  - intros Hall. rewrite Hget. by apply getTools_returns.
Qed.

Lemma dangling_result_dropped_witness :
  let tracing :=
    traceOf [callEvent [request "c1" "search"]; resultEvent "x";
             resultEvent "c1"; callEvent [request "c2" "read"]] in
  let tracing' :=
    withOutputs tracing
      [callEvent [request "c1" "search"]; resultEvent "c1";
       callEvent [request "c2" "read"]] in
  getTools [tracing] = getTools [tracing'] ∧
  extractToolCallOrder tracing = extractToolCallOrder tracing' ∧
  extractToolCallFlow tracing = extractToolCallFlow tracing' ∧
  (Forall walkable [tracing'] → ∃ r, getTools [tracing] = Returns r).
Proof.
  intros tracing tracing'.
  apply (dangling_result_dropped tracing
           [callEvent [request "c1" "search"]] (resultEvent "x")
           [resultEvent "c1"; callEvent [request "c2" "read"]] "x" [] []).
  - reflexivity.
  - reflexivity.
  - reflexivity.
  - by apply (bool_decide_unpack _).
Defined.

(** ** Traces without outputs *)

Lemma walkTracing_missing st tracing :
  tr_outputs tracing = None ∨ tr_outputs tracing = Some {| messages := None |} →
  walkTracing st tracing = Throws TypeError.
Proof. rewrite walkTracing_unfold. by intros [-> | ->]. Qed.

Lemma forEachM_throws {A S} (f : S → A → outcome S) s l1 x l2 :
  (∀ s, f s x = Throws TypeError) →
  forEachM f s (l1 ++ x :: l2) = Throws TypeError.
Proof.
  intros Hx. rewrite forEachM_app.
  destruct (forEachM f s l1) as [s'|[]]; simpl; [|done]. by rewrite Hx.
Qed.

(** [getTools] raises on every list that holds a trace without [outputs]
    or without [outputs.messages]. *)
Lemma getTools_missing_throws before tracing after :
  tr_outputs tracing = None ∨ tr_outputs tracing = Some {| messages := None |} →
  getTools (before ++ tracing :: after) = Throws TypeError.
Proof.
  intros Hmiss. unfold getTools. rewrite forEachM_throws; [done|].
  intros st. by apply walkTracing_missing.
Qed.

(** A trace whose [outputs.messages] is the empty list is extracted to
    empty results by all three functions. *)
Lemma empty_messages_extract tracing :
  tr_outputs tracing = Some {| messages := Some [] |} →
  getTools [tracing] =
    Returns {| tools := [];
               tracingToolCalls :=
                 [(tr_id tracing,
                   {| toolCalls := []; score := tr_score tracing |})] |} ∧
  extractToolCallOrder tracing = {| og_nodes := []; og_links := [] |} ∧
  extractToolCallFlow tracing =
    {| fg_nodes := []; fg_links := []; fg_callSequence := Some [] |}.
Proof.
  intros Ho. split_and!.
  - unfold getTools. simpl. rewrite walkTracing_unfold, Ho. done.
  - unfold extractToolCallOrder. rewrite Ho. done.
  - unfold extractToolCallFlow. rewrite Ho. done.
Qed.

(** C8. On a trace record that has no [outputs] field the two graph
    extractions return empty nodes and links, but [getTools] raises a
    [TypeError] instead of returning an empty tool-call map. *)
Theorem getTools_no_outputs_raises :
  let tracing :=
    {| tr_id := Some (NumId 0); tr_outputs := None; tr_score := Some 1%Q;
       tr_other := [] |} in
  getTools [tracing] = Throws TypeError ∧
  extractToolCallOrder tracing = {| og_nodes := []; og_links := [] |} ∧
  extractToolCallFlow tracing =
    {| fg_nodes := []; fg_links := []; fg_callSequence := None |}.
Proof. by vm_compute. Qed.

(** ** Repeated call ids *)

Lemma firstBy_complete {A K} `{EqDecision K} (key : A → K) (l : list A) k x :
  head (filter (λ y, key y = k) l) = Some x → x ∈ firstBy key l.
Proof.
  intros Hx. assert (x ∈ filter (λ y, key y = k) l) as Hin
    by by apply head_Some_elem_of.
  apply list_elem_of_filter in Hin as [Hk Hin].
  assert (k ∈ key <$> firstBy key l) as Hkin.
  { rewrite firstBy_keys, elem_of_ofList, <-Hk.
    by apply list_elem_of_fmap_2. }
  apply list_elem_of_fmap in Hkin as (y & Hy & Hyin).
  pose proof (firstBy_head key l y Hyin) as Hh.
  rewrite <-Hy, Hx in Hh. by injection Hh as ->.
Qed.

(** C10. When several requests of a trace share a call id, the per-trace
    map of [getTools] keeps the name and arguments of the last of them,
    while the order graph and the call sequence of the flow graph keep the
    name of the first. *)
Theorem repeated_id_last_and_first before tracing after r id first last :
  getTools (before ++ tracing :: after) = Returns r →
  tr_id tracing ∉ tr_id <$> after →
  firstCall id (traceCalls tracing) = Some first →
  lastCall id (traceCalls tracing) = Some last →
  (∃ entry info,
     JsMap.get (tr_id tracing) (tracingToolCalls r) = Some entry ∧
     JsMap.get id (toolCalls entry) = Some info ∧
     info_name info = tc_name last ∧ info_args info = tc_args last) ∧
  (∃ i n callSequence,
     og_nodes (extractToolCallOrder tracing) !! i = Some n ∧
     on_id n = id ∧ on_name n = tc_name first ∧
     fg_callSequence (extractToolCallFlow tracing) = Some callSequence ∧
     callSequence !! i = Some (tc_name first)).
Proof.
  intros Hr Hafter Hfirst Hlast. split.
  - destruct (getTools_entry _ _ _ _ Hr Hafter) as (entry & Hentry & _ & Hcore).
    specialize (Hcore id). rewrite Hlast in Hcore. simpl in Hcore.
    destruct (JsMap.get id (toolCalls entry)) as [info|] eqn:Hinfo; [|done].
    exists entry, info. injection Hcore as _ Hname _ Hargs. done.
  - assert (first ∈ firstBy tc_id (traceCalls tracing)) as Hin
      by by eapply firstBy_complete.
    apply list_elem_of_lookup in Hin as [i Hi].
    assert (∃ outputs, tr_outputs tracing = Some {| messages := Some outputs |})
      as [outputs Ho].
    { unfold getTools in Hr. rewrite forEachM_app in Hr.
      destruct (forEachM walkTracing ([], []) before) as [st|]; [|done].
      simpl in Hr. destruct (walkTracing st tracing) as [st1|] eqn:Ht; [|done].
      eexists. by eapply walkTracing_outputs. }
    exists i, (callNode i first), (callSequenceOf tracing).
    rewrite extractToolCallOrder_char, (extractToolCallFlow_char _ _ Ho).
    simpl. rewrite list_lookup_imap, Hi. unfold callSequenceOf.
    rewrite list_lookup_fmap, Hi. split_and!; try done.
    by apply firstCall_id in Hfirst.
Qed.

Lemma repeated_id_last_and_first_witness :
  let tracing :=
    traceOf [callEvent [request "c1" "search"];
             callEvent [request "c2" "open"; request "c1" "read"]] in
  ∃ r, getTools [tracing] = Returns r ∧
    (∃ entry info,
       JsMap.get (tr_id tracing) (tracingToolCalls r) = Some entry ∧
       JsMap.get "c1" (toolCalls entry) = Some info ∧
       info_name info = "read" ∧ info_args info = None) ∧
    (∃ i n callSequence,
       og_nodes (extractToolCallOrder tracing) !! i = Some n ∧
       on_id n = "c1" ∧ on_name n = "search" ∧
       fg_callSequence (extractToolCallFlow tracing) = Some callSequence ∧
       callSequence !! i = Some "search").
Proof.
  intros tracing. eexists. split; [reflexivity|].
  apply (repeated_id_last_and_first [] tracing [] _ "c1"
           (request "c1" "search") (request "c1" "read")).
  - reflexivity.
  - by apply (bool_decide_unpack _).
  - reflexivity.
  - reflexivity.
Defined.

(** ** [assignIdsToTracings] *)

Lemma assignIdsToTracings_lookup tracings i tracing :
  tracings !! i = Some tracing →
  assignIdsToTracings tracings !! i =
  Some {| tr_id := Some (NumId i);
          tr_outputs := tr_outputs tracing;
          tr_score := tr_score tracing;
          tr_other := tr_other tracing |}.
Proof.
  intros Hi. unfold assignIdsToTracings. by rewrite list_lookup_imap, Hi.
Qed.

Lemma assignIdsToTracings_length tracings :
  length (assignIdsToTracings tracings) = length tracings.
Proof. apply length_imap. Qed.

(** ** The records of the host *)

Lemma recordAt_app h fresh r :
  r < length h → recordAt (h ++ fresh) r = recordAt h r.
Proof. intros Hr. unfold recordAt. by rewrite lookup_app_l. Qed.

Lemma infoAt_app h fresh r :
  r < length h → infoAt (h ++ fresh) r = infoAt h r.
Proof. intros Hr. unfold infoAt. by rewrite lookup_app_l. Qed.

Lemma prefix_take (h h' : Heap) :
  length h ≤ length h' → take (length h) h' = h → ∃ fresh, h' = h ++ fresh.
Proof.
  intros _ Htake. exists (drop (length h) h').
  by rewrite <-Htake at 1; rewrite take_drop.
Qed.

Lemma elem_of_set_values {K V} `{EqDecision K} (m : list (K * V)) k v x :
  x ∈ (JsMap.set k v m).*2 → x = v ∨ x ∈ m.*2.
Proof.
  induction m as [|[k' v'] m IH]; simpl.
  - intros ->%list_elem_of_singleton. by left.
  - destruct (decide (k' = k)) as [->|Hne]; simpl.
    + rewrite !elem_of_cons. intros [->|Hx]; auto.
    + rewrite !elem_of_cons. intros [->|Hx]; [auto|].
      destruct (IH Hx); auto.
Qed.

Lemma NoDup_set_values {K V} `{EqDecision K} (m : list (K * V)) k v :
  NoDup m.*2 → v ∉ m.*2 → NoDup (JsMap.set k v m).*2.
Proof.
  induction m as [|[k' v'] m IH]; simpl.
  - intros _ _. apply NoDup_singleton.
  - rewrite NoDup_cons, not_elem_of_cons. intros [Hv' Hnd] [Hne Hv].
    destruct (decide (k' = k)) as [->|Hk]; simpl.
    + by apply NoDup_cons.
    + apply NoDup_cons. split; [|by apply IH].
      intros [->|Hin]%elem_of_set_values; done.
Qed.

Lemma Forall2_set {K V W} `{EqDecision K} (R : K * V → K * W → Prop)
    (m : list (K * V)) (m' : list (K * W)) k v w :
  (∀ a b, R a b → a.1 = b.1) →
  Forall2 R m m' → R (k, v) (k, w) →
  Forall2 R (JsMap.set k v m) (JsMap.set k w m').
Proof.
  intros Hkeys Hm Hkv. induction Hm as [|[k1 v1] [k2 w2] m m' Hhd Hm IH];
    simpl.
  - by constructor.
  - pose proof (Hkeys _ _ Hhd) as Hk. simpl in Hk. subst k2.
    destruct (decide (k1 = k)) as [->|Hne]; by constructor.
Qed.

Lemma Forall2_get {K V W} `{EqDecision K} (R : K * V → K * W → Prop)
    (m : list (K * V)) (m' : list (K * W)) k :
  (∀ a b, R a b → a.1 = b.1) →
  Forall2 R m m' →
  match JsMap.get k m, JsMap.get k m' with
  | Some v, Some w => R (k, v) (k, w)
  | None, None => True
  | _, _ => False
  end.
Proof.
  intros Hkeys Hm. induction Hm as [|[k1 v1] [k2 w2] m m' Hhd _ IH]; simpl;
    [done|].
  pose proof (Hkeys _ _ Hhd) as Hk. simpl in Hk. subst k2.
  by destruct (decide (k1 = k)) as [->|Hne].
Qed.

Lemma callsAt_app h fresh n refs infos :
  callsAt h n refs infos → callsAt (h ++ fresh) n refs infos.
Proof.
  intros [Hrefs Hnd]. split; [|done].
  eapply Forall2_impl; [exact Hrefs|].
  intros kr ki (Hk & Hn & Hl). split_and!; [done..|].
  rewrite lookup_app_l; [done|]. by eapply lookup_lt_Some.
Qed.

Lemma callsAt_lt h n refs infos r :
  callsAt h n refs infos → r ∈ refs.*2 → n ≤ r < length h.
Proof.
  intros [Hrefs _] Hr. apply list_elem_of_fmap in Hr as (kr & -> & Hkr).
  apply list_elem_of_lookup in Hkr as [i Hi].
  destruct (Forall2_lookup_l _ _ _ _ _ Hrefs Hi) as (ki & _ & _ & Hn & Hl).
  split; [done|]. by eapply lookup_lt_Some.
Qed.

Lemma callsAt_nil h n : callsAt h n [] [].
Proof. split; [constructor|apply NoDup_nil_2]. Qed.

(** A new [toolCallInfo] object goes under its id; the objects the map
    held stay as they are. *)
Lemma addToolCall_callsAt n h refs infos names c :
  n ≤ length h → callsAt h n refs infos →
  ∃ refs',
    ByRef.addToolCall (refs, names) c h =
      (h ++ [InfoCell (toolCallInfo c)],
       Returns (refs', (addToolCall (infos, names) c).2)) ∧
    callsAt (h ++ [InfoCell (toolCallInfo c)]) n refs'
      (addToolCall (infos, names) c).1.
Proof.
  intros Hn Hcalls. eexists. split; [reflexivity|]. cbn [fst snd].
  pose proof (callsAt_app _ [InfoCell (toolCallInfo c)] _ _ _ Hcalls)
    as [Hrefs Hnd].
  split.
  - apply Forall2_set; [by intros ?? [? _]|done|]. cbn [fst snd].
    split_and!; [done|done|]. by rewrite list_lookup_middle.
  - apply NoDup_set_values; [done|].
    intros Hin. apply (callsAt_lt _ _ _ _ _ Hcalls) in Hin. lia.
Qed.

Lemma addToolCalls_callsAt n calls h refs infos names :
  n ≤ length h → callsAt h n refs infos →
  ∃ fresh refs',
    ByRef.forEach ByRef.addToolCall (refs, names) calls h =
      (h ++ fresh,
       Returns (refs', (foldl addToolCall (infos, names) calls).2)) ∧
    callsAt (h ++ fresh) n refs' (foldl addToolCall (infos, names) calls).1.
Proof.
  revert h refs infos names.
  induction calls as [|c calls IH]; intros h refs infos names Hn Hcalls.
  - exists [], refs. rewrite app_nil_r. by split.
  - destruct (addToolCall_callsAt n h refs infos names c Hn Hcalls)
      as (refs1 & Hstep & Hcalls1).
    destruct (IH (h ++ [InfoCell (toolCallInfo c)]) refs1
                (addToolCall (infos, names) c).1
                (addToolCall (infos, names) c).2)
      as (fresh & refs' & Hrest & Hcalls'); [rewrite length_app; lia|done|].
    exists ([InfoCell (toolCallInfo c)] ++ fresh), refs'.
    rewrite app_assoc. split; [|exact Hcalls'].
    cbn [ByRef.forEach]. unfold ByRef.bind at 1. rewrite Hstep.
    exact Hrest.
Qed.

Lemma Forall2_insert_other (h : Heap) n r c (refs : list (string * Ref))
    (infos : list (string * ToolCallInfo)) :
  r ∉ refs.*2 →
  Forall2 (λ (kr : string * Ref) (ki : string * ToolCallInfo),
             kr.1 = ki.1 ∧ n ≤ kr.2 ∧ h !! kr.2 = Some (InfoCell ki.2))
    refs infos →
  Forall2 (λ (kr : string * Ref) (ki : string * ToolCallInfo),
             kr.1 = ki.1 ∧ n ≤ kr.2 ∧
             <[r := c]> h !! kr.2 = Some (InfoCell ki.2))
    refs infos.
Proof.
  intros Hr Hrefs.
  induction Hrefs as [|[k1 r1] [k2 i2] refs infos (Hk & Hn & Hl) Hrefs IH];
    [constructor|].
  rewrite fmap_cons, not_elem_of_cons in Hr. destruct Hr as [Hne Hr].
  constructor; [|by apply IH].
  split_and!; [done..|]. by rewrite list_lookup_insert_ne.
Qed.

(** The assignment of [status] and [content] reaches the object found
    under the id and no other object of the map. *)
Lemma callsAt_write n h refs infos id r info' :
  callsAt h n refs infos →
  JsMap.get id refs = Some r →
  callsAt (<[r := InfoCell info']> h) n refs (JsMap.set id info' infos).
Proof.
  intros [Hrefs Hnd] Hget. split; [|done].
  induction Hrefs as [|[k1 r1] [k2 i2] refs infos (Hk & Hn & Hl) Hrefs IH];
    [done|].
  cbn [fst snd] in Hk, Hn, Hl. subst k2.
  rewrite fmap_cons in Hnd. apply NoDup_cons in Hnd as [Hr1 Hnd].
  cbn [JsMap.get JsMap.set] in *.
  destruct (decide (k1 = id)) as [->|Hne].
  - injection Hget as <-. constructor.
    + split_and!; [done|done|]. cbn [fst snd].
      apply list_lookup_insert_eq. by eapply lookup_lt_Some.
    + by apply Forall2_insert_other.
  - constructor; [|by apply IH].
    split_and!; [done|done|]. cbn [fst snd].
    rewrite list_lookup_insert_ne; [done|]. intros <-.
    apply Hr1. apply get_elem_of in Hget.
    apply list_elem_of_fmap. by exists (id, r).
Qed.

Lemma callsAt_get h n refs infos id :
  callsAt h n refs infos →
  match JsMap.get id refs, JsMap.get id infos with
  | Some r, Some info => n ≤ r ∧ h !! r = Some (InfoCell info)
  | None, None => True
  | _, _ => False
  end.
Proof.
  intros [Hrefs _].
  pose proof (Forall2_get _ _ _ id (λ a b (H : _ ∧ _), proj1 H) Hrefs) as Hg.
  destruct (JsMap.get id refs), (JsMap.get id infos); try done.
  by destruct Hg as (_ & ? & ?).
Qed.

Lemma addResponse_callsAt n h refs infos output id :
  callsAt h n refs infos →
  ∃ h',
    ByRef.addResponse output id refs h = (h', Returns ()) ∧
    length h' = length h ∧ take n h' = take n h ∧
    callsAt h' n refs (addResponse output id infos).
Proof.
  intros Hcalls. pose proof (callsAt_get _ _ _ _ id Hcalls) as Hget.
  unfold ByRef.addResponse, addResponse.
  destruct (JsMap.get id refs) as [r|] eqn:Hr,
    (JsMap.get id infos) as [info|] eqn:Hi; try done.
  - destruct Hget as [Hn Hl].
    unfold ByRef.bind, ByRef.readInfo, infoAt. rewrite Hl.
    eexists. split; [reflexivity|].
    split; [apply length_insert|]. split; [by apply take_insert_ge|].
    by apply callsAt_write.
  - exists h. by split_and!.
Qed.

(** One event: the objects of the map are the only ones written to, and
    the map holds the objects the walk by value computes. *)
Lemma walkOutput_callsAt n h refs infos names output :
  n ≤ length h → callsAt h n refs infos →
  ∃ h',
    (ByRef.walkOutput (refs, names) output h).1 = h' ∧
    length h ≤ length h' ∧ take n h' = take n h ∧
    sameOutcome (λ st st', st.2 = st'.2 ∧ callsAt h' n st.1 st'.1)
      (ByRef.walkOutput (refs, names) output h).2
      (walkOutput (infos, names) output).
Proof.
  intros Hn Hcalls. unfold ByRef.walkOutput, walkOutput.
  destruct (o_tool_calls output) as [[calls|]|].
  - destruct (addToolCalls_callsAt n calls h refs infos names Hn Hcalls)
      as (fresh & refs' & -> & Hcalls').
    eexists. split; [reflexivity|]. cbn [fst snd sameOutcome].
    split; [rewrite length_app; lia|]. split; [by apply take_app_le|].
    by split.
  - exists h. by split_and!.
  - destruct (o_tool_call_id output) as [id|]; cbn [fst snd].
    + destruct (addResponse_callsAt n h refs infos output id Hcalls)
        as (h' & Hstep & Hlen & Htake & Hcalls').
      unfold ByRef.bind. rewrite Hstep. exists h'.
      cbn [fst snd sameOutcome ByRef.ret]. split_and!; [done|lia|done|done|done].
    + exists h. by split_and!.
Qed.

Lemma walkOutputs_callsAt n outputs h refs infos names :
  n ≤ length h → callsAt h n refs infos →
  ∃ h',
    (ByRef.forEach ByRef.walkOutput (refs, names) outputs h).1 = h' ∧
    length h ≤ length h' ∧ take n h' = take n h ∧
    sameOutcome (λ st st', st.2 = st'.2 ∧ callsAt h' n st.1 st'.1)
      (ByRef.forEach ByRef.walkOutput (refs, names) outputs h).2
      (forEachM walkOutput (infos, names) outputs).
Proof.
  revert h refs infos names.
  induction outputs as [|o outputs IH]; intros h refs infos names Hn Hcalls.
  - exists h. by split_and!.
  - destruct (walkOutput_callsAt n h refs infos names o Hn Hcalls)
      as (h1 & Hh1 & Hlen1 & Htake1 & Hsame).
    cbn [ByRef.forEach forEachM]. unfold ByRef.bind, obind at 1.
    destruct (ByRef.walkOutput (refs, names) o h) as [h1' [[refs1 names1]|e]],
      (walkOutput (infos, names) o) as [[infos1 names1']|e']; try done;
      cbn [fst snd sameOutcome] in *; subst h1'.
    + destruct Hsame as [-> Hcalls1].
      destruct (IH h1 refs1 infos1 names1' ltac:(lia) Hcalls1)
        as (h' & Hh' & Hlen' & Htake' & Hsame').
      exists h'. split_and!; [done|lia|congruence|done].
    + exists h1. by split_and!.
Qed.

Lemma entryAt_callsAt h n refs infos sc :
  callsAt h n refs infos →
  entryAt h {| toolCallRefs := refs; entryScore := sc |} =
  {| toolCalls := infos; score := sc |}.
Proof.
  intros [Hrefs _]. unfold entryAt. cbn [toolCallRefs entryScore]. f_equal.
  induction Hrefs as [|[k1 r1] [k2 i2] refs infos (Hk & Hn & Hl) Hrefs IH];
    [done|].
  cbn [fst snd] in Hk, Hl. subst k2.
  cbn [omap list_omap fst snd]. unfold infoAt at 1. rewrite Hl.
  cbn [fmap option_fmap option_map]. by rewrite IH.
Qed.

Lemma entryAt_app h fresh entry :
  Forall (λ kr : string * Ref, kr.2 < length h) (toolCallRefs entry) →
  entryAt (h ++ fresh) entry = entryAt h entry.
Proof.
  intros Hin. unfold entryAt. f_equal.
  induction Hin as [|kr refs Hkr _ IH]; [done|].
  cbn [omap list_omap]. by rewrite infoAt_app, IH.
Qed.

Lemma entriesAt_app h fresh entries :
  entriesIn h entries →
  (λ ke : option TraceId * EntryRef, (ke.1, entryAt (h ++ fresh) ke.2))
    <$> entries =
  (λ ke : option TraceId * EntryRef, (ke.1, entryAt h ke.2)) <$> entries.
Proof.
  intros Hin. apply list_fmap_ext. intros i ke Hi.
  rewrite entryAt_app; [done|].
  by apply (proj1 (Forall_lookup _ _) Hin i ke).
Qed.

Lemma entriesIn_app h fresh entries :
  entriesIn h entries → entriesIn (h ++ fresh) entries.
Proof.
  unfold entriesIn. intros Hin. eapply Forall_impl; [exact Hin|].
  intros ke Hke. eapply Forall_impl; [exact Hke|].
  intros kr. rewrite length_app. lia.
Qed.

Lemma fmap_set {K V W} `{EqDecision K} (f : V → W) (m : list (K * V)) k v :
  (λ kv : K * V, (kv.1, f kv.2)) <$> JsMap.set k v m =
  JsMap.set k (f v) ((λ kv : K * V, (kv.1, f kv.2)) <$> m).
Proof.
  induction m as [|[k' v'] m IH]; [done|]. cbn.
  destruct (decide (k' = k)) as [->|Hne]; [done|]. cbn. by rewrite IH.
Qed.

Lemma Forall_set {K V} `{EqDecision K} (P : K * V → Prop) (m : list (K * V))
    k v :
  Forall P m → P (k, v) → Forall P (JsMap.set k v m).
Proof.
  intros Hm Hkv. induction Hm as [|[k' v'] m Hhd Hm IH]; cbn.
  - by constructor.
  - destruct (decide (k' = k)) as [->|Hne]; by constructor.
Qed.

(** One trace: the heap grows by the objects of the trace, and nothing
    that was in the heap is written to. *)
Lemma walkTracing_refines h names entries tracing :
  ∃ fresh,
    (ByRef.walkTracing (names, entries) tracing h).1 = h ++ fresh ∧
    (entriesIn h entries →
     sameOutcome
       (λ st st',
          st.1 = st'.1 ∧ entriesIn (h ++ fresh) st.2 ∧
          (λ ke : option TraceId * EntryRef,
             (ke.1, entryAt (h ++ fresh) ke.2)) <$> st.2 = st'.2)
       (ByRef.walkTracing (names, entries) tracing h).2
       (walkTracing
          (names,
           (λ ke : option TraceId * EntryRef, (ke.1, entryAt h ke.2))
             <$> entries)
          (recordAt h tracing))).
Proof.
  unfold walkTracing.
  cbv beta iota delta [ByRef.walkTracing ByRef.bind ByRef.readRecord].
  cbn [fst snd].
  destruct (tr_outputs (recordAt h tracing)) as [[[outputs|]]|];
    cbn [messages]; [|exists []; rewrite app_nil_r; by split..].
  destruct (walkOutputs_callsAt (length h) outputs h [] [] names
              (Nat.le_refl _) (callsAt_nil _ _))
    as (h' & Hh' & Hlen & Htake & Hsame).
  rewrite (take_ge h (length h)) in Htake by done.
  assert (h' = h ++ drop (length h) h') as Hfresh
    by by rewrite <-Htake at 1; rewrite take_drop.
  exists (drop (length h) h'). rewrite <-Hfresh.
  unfold obind.
  destruct (ByRef.forEach ByRef.walkOutput ([], names) outputs h)
    as [h'' [[refs' names']|e]],
    (forEachM walkOutput ([], names) outputs) as [[infos' names'']|e'];
    cbn [fst snd sameOutcome ByRef.ret] in *; subst h''; try done.
  destruct Hsame as [-> Hcalls]. split; [done|]. intros Hin.
  split; [done|]. split.
  - apply Forall_set.
    + rewrite Hfresh. by apply entriesIn_app.
    + cbn [fst snd toolCallRefs]. apply Forall_forall. intros kr Hkr.
      apply (callsAt_lt _ _ _ _ kr.2 Hcalls).
      apply list_elem_of_fmap. by exists kr.
  - rewrite fmap_set. f_equal.
    + by apply entryAt_callsAt with (n := length h).
    + rewrite Hfresh. by apply entriesAt_app.
Qed.

Lemma walkTracings_refines tracings h names entries :
  ∃ fresh,
    (ByRef.forEach ByRef.walkTracing (names, entries) tracings h).1 =
      h ++ fresh ∧
    (Forall (λ t, t < length h) tracings → entriesIn h entries →
     sameOutcome
       (λ st st',
          st.1 = st'.1 ∧
          (λ ke : option TraceId * EntryRef,
             (ke.1, entryAt (h ++ fresh) ke.2)) <$> st.2 = st'.2)
       (ByRef.forEach ByRef.walkTracing (names, entries) tracings h).2
       (forEachM walkTracing
          (names,
           (λ ke : option TraceId * EntryRef, (ke.1, entryAt h ke.2))
             <$> entries)
          (recordAt h <$> tracings))).
Proof.
  revert h names entries.
  induction tracings as [|t tracings IH]; intros h names entries.
  - exists []. rewrite app_nil_r. by split.
  - destruct (walkTracing_refines h names entries t)
      as (fresh1 & Hh1 & Hsame1).
    cbn [ByRef.forEach forEachM fmap list_fmap].
    unfold ByRef.bind, obind at 1.
    destruct (ByRef.walkTracing (names, entries) t h)
      as [h1 [[names1 entries1]|e]]; cbn [fst snd] in *; subst h1.
    + destruct (IH (h ++ fresh1) names1 entries1)
        as (fresh & Hh & Hsame).
      exists (fresh1 ++ fresh). rewrite app_assoc. split; [done|].
      intros Hvalid Hin. apply Forall_cons in Hvalid as [Ht Hvalid].
      specialize (Hsame1 Hin).
      destruct (walkTracing _ (recordAt h t)) as [[names1' entries1']|e'];
        cbn [sameOutcome fst snd] in Hsame1; [|done].
      destruct Hsame1 as (-> & Hin1 & <-).
      replace (recordAt h <$> tracings)
        with (recordAt (h ++ fresh1) <$> tracings).
      * apply Hsame; [|done]. eapply Forall_impl; [exact Hvalid|].
        intros r. rewrite length_app. lia.
      * apply list_fmap_ext. intros i r Hr. apply recordAt_app.
        by apply (proj1 (Forall_lookup _ _) Hvalid i r).
    + exists fresh1. split; [done|]. intros Hvalid Hin.
      specialize (Hsame1 Hin).
      by destruct (walkTracing _ (recordAt h t)).
Qed.

Lemma getTools_refines tracings h :
  ∃ fresh,
    (ByRef.getTools tracings h).1 = h ++ fresh ∧
    (Forall (λ t, t < length h) tracings →
     sameOutcome (λ st r, ByRef.extractedAt (h ++ fresh) st = r)
       (ByRef.getTools tracings h).2
       (getTools (recordAt h <$> tracings))).
Proof.
  unfold ByRef.getTools, getTools.
  destruct (walkTracings_refines tracings h [] []) as (fresh & Hh & Hsame).
  exists fresh. split; [done|]. intros Hvalid.
  specialize (Hsame Hvalid (Forall_nil_2 _)). cbn [fmap list_fmap] in Hsame.
  destruct (ByRef.forEach ByRef.walkTracing ([], []) tracings h).2
    as [[names entries]|e],
    (forEachM walkTracing ([], []) (recordAt h <$> tracings))
    as [[names' entries']|e']; cbn [sameOutcome obind fst snd] in *;
    try done.
  destruct Hsame as [-> <-]. done.
Qed.

(** The copies are new objects: the records they are made from stay as
    they are. *)
Lemma spreadWithId_refines data h index :
  ∃ copies,
    ByRef.mapFrom ByRef.spreadWithId index data h =
      (h ++ (RecordCell <$> copies),
       Returns (seq (length h) (length data))) ∧
    length copies = length data ∧
    (Forall (λ r, r < length h) data →
     copies =
       imap (λ i tracing,
               {| tr_id := Some (NumId (index + i));
                  tr_outputs := tr_outputs tracing;
                  tr_score := tr_score tracing;
                  tr_other := tr_other tracing |}) (recordAt h <$> data)).
Proof.
  revert h index. induction data as [|r data IH]; intros h index.
  - exists []. rewrite app_nil_r. by split_and!.
  - cbn [ByRef.mapFrom]. unfold ByRef.bind at 1.
    unfold ByRef.spreadWithId at 1.
    unfold ByRef.bind at 1, ByRef.readRecord, ByRef.alloc.
    set (copy := {| tr_id := Some (NumId index);
                    tr_outputs := tr_outputs (recordAt h r);
                    tr_score := tr_score (recordAt h r);
                    tr_other := tr_other (recordAt h r) |}).
    destruct (IH (h ++ [RecordCell copy]) (S index))
      as (copies & Hstep & Hlen & Hcopies).
    exists (copy :: copies). unfold ByRef.bind. rewrite Hstep.
    cbn [ByRef.ret length fmap list_fmap].
    rewrite !length_app, <-app_assoc. cbn [length app].
    split_and!.
    + f_equal. f_equal. rewrite Nat.add_1_r. done.
    + by rewrite Hlen.
    + intros [Hr Hvalid]%Forall_cons. cbn [imap]. f_equal.
      * unfold copy. by rewrite Nat.add_0_r.
      * rewrite Hcopies.
        -- replace (recordAt (h ++ [RecordCell copy]) <$> data)
             with (recordAt h <$> data).
           ++ apply imap_ext. intros i t _. unfold compose.
              by replace (S index + i) with (index + S i) by lia.
           ++ apply list_fmap_ext. intros i r' Hr'. symmetry.
              apply recordAt_app.
              by apply (proj1 (Forall_lookup _ _) Hvalid i r').
        -- eapply Forall_impl; [exact Hvalid|]. intros r'.
           rewrite length_app. cbn. lia.
Qed.

Lemma recordAt_copies h copies :
  recordAt (h ++ (RecordCell <$> copies)) <$> seq (length h) (length copies) =
  copies.
Proof.
  apply list_eq. intros i. rewrite list_lookup_fmap.
  destruct (decide (i < length copies)) as [Hi|Hi].
  - rewrite lookup_seq_lt by done. cbn [fmap option_fmap option_map].
    unfold recordAt. rewrite lookup_app_r by lia.
    replace (length h + i - length h) with i by lia.
    rewrite list_lookup_fmap.
    destruct (lookup_lt_is_Some_2 copies i Hi) as [t Ht]. by rewrite Ht.
  - rewrite lookup_seq_ge by lia. symmetry. apply lookup_ge_None. lia.
Qed.

(** A render by reference: the heap it leaves, and its outcome when the
    references of [data] are objects of the heap. *)
Lemma renderUpsetPlot_refines random cursor container data toolSets options
    h :
  ∃ fresh,
    (ByRef.renderUpsetPlot random cursor container data toolSets options h).1
      = h ++ fresh ∧
    (Forall (λ r, r < length h) (default [] data) →
     (ByRef.renderUpsetPlot random cursor container data toolSets options h).2
       = renderUpsetPlot random cursor container
           ((λ refs : list Ref, recordAt h <$> refs) <$> data)
           toolSets options).
Proof.
  unfold ByRef.renderUpsetPlot, renderUpsetPlot.
  destruct container as [container|];
    [|exists []; rewrite app_nil_r; by split].
  destruct data as [data|]; [|exists []; rewrite app_nil_r; by split].
  cbn [default fmap option_fmap option_map].
  unfold ByRef.assignIdsToTracings.
  destruct (spreadWithId_refines data h 0) as (copies & Hcopy & Hlen & Hcopies).
  unfold ByRef.bind at 1 3. rewrite Hcopy.
  set (h1 := h ++ (RecordCell <$> copies)).
  set (tracings := seq (length h) (length data)).
  assert (recordAt h1 <$> tracings = copies) as Hread.
  { unfold tracings. rewrite <-Hlen. apply recordAt_copies. }
  assert (Forall (λ t, t < length h1) tracings) as Hvalid1.
  { apply Forall_forall. intros t [_ Ht]%elem_of_seq. unfold h1.
    rewrite length_app, length_fmap, Hlen. lia. }
  destruct (getTools_refines tracings h1) as (fresh & Hh2 & Hsame).
  specialize (Hsame Hvalid1). rewrite Hread in Hsame.
  exists ((RecordCell <$> copies) ++ fresh). rewrite app_assoc. fold h1.
  unfold ByRef.bind, obind.
  destruct (ByRef.getTools tracings h1) as [h2 [st|e]];
    cbn [fst snd] in *; subst h2.
  - split; [done|]. intros Hvalid. unfold id in Hvalid.
    assert (copies = assignIdsToTracings (recordAt h <$> data)) as Hassign
      by exact (Hcopies Hvalid).
    rewrite <-Hassign.
    destruct (getTools copies) as [extracted|e']; cbn [sameOutcome] in Hsame;
      [|done].
    f_equal. f_equal; [| |done].
    + unfold h1. rewrite <-app_assoc. apply list_fmap_ext.
      intros i r Hr. apply recordAt_app.
      by apply (proj1 (Forall_lookup _ _) Hvalid i r).
    + rewrite <-Hread at 1. apply list_fmap_ext.
      intros i r Hr. apply recordAt_app.
      by apply (proj1 (Forall_lookup _ _) Hvalid1 i r).
  - split; [done|]. intros Hvalid. unfold id in Hvalid.
    assert (copies = assignIdsToTracings (recordAt h <$> data)) as Hassign
      by exact (Hcopies Hvalid).
    rewrite <-Hassign.
    destruct (getTools copies) as [extracted|e']; cbn [sameOutcome] in Hsame;
      [done|]. by subst e'.
Qed.

(** C6. A render never writes to a trace record of the host. The heap a
    render leaves is the heap it found followed by the objects it created
    (the copies [assignIdsToTracings] makes and the [toolCallInfo] objects
    of [getTools]), also when the render raises: every object that was in
    the heap is as it was, so a trace record keeps its id, if it has one,
    stays without an id, if it has none, and keeps its score, its outputs
    and its other fields. The assignments [getTools] makes reach objects
    of its own only. *)
Theorem renderUpsetPlot_frame random cursor container data toolSets options
    h h' res :
  ByRef.renderUpsetPlot random cursor container data toolSets options h =
    (h', res) →
  (∃ fresh, h' = h ++ fresh) ∧
  (∀ r cell, h !! r = Some cell → h' !! r = Some cell) ∧
  (∀ r tracing, h !! r = Some (RecordCell tracing) →
     recordAt h' r = tracing ∧
     tr_id (recordAt h' r) = tr_id tracing ∧
     tr_score (recordAt h' r) = tr_score tracing ∧
     tr_outputs (recordAt h' r) = tr_outputs tracing ∧
     tr_other (recordAt h' r) = tr_other tracing).
Proof.
  intros Hrender.
  destruct (renderUpsetPlot_refines random cursor container data toolSets
              options h) as (fresh & Hh' & _).
  rewrite Hrender in Hh'. cbn [fst] in Hh'. subst h'.
  split; [by exists fresh|].
  assert (∀ r cell, h !! r = Some cell → (h ++ fresh) !! r = Some cell)
    as Hframe.
  { intros r cell Hr. rewrite lookup_app_l; [done|]. by eapply lookup_lt_Some. }
  split; [exact Hframe|]. intros r tracing Hr.
  assert (recordAt (h ++ fresh) r = tracing) as ->.
  { unfold recordAt. by rewrite (Hframe _ _ Hr). }
  done.
Qed.

(** Two records of the host, the first with the id "run-7" and without a
    score, the second without an id: after the render both are as they
    were, the heap holds two copies with the ids 0 and 1 behind them, and
    then the two [toolCallInfo] objects. *)
Lemma renderUpsetPlot_frame_witness :
  let record0 :=
    {| tr_id := Some (StrId "run-7");
       tr_outputs :=
         Some {| messages :=
                   Some [callEvent [request "c1" "search"];
                         resultEvent "c1"] |};
       tr_score := None;
       tr_other := [("inputs", "{}")] |} in
  let record1 := traceOf [callEvent [request "c2" "fetch"]] in
  let h := [RecordCell record0; RecordCell record1] in
  let after :=
    (ByRef.renderUpsetPlot sampleDraws 0 (Some emptyMount) (Some [0; 1]) []
       defaultOptions h).1 in
  recordAt after 0 = record0 ∧ recordAt after 1 = record1 ∧
  tr_id (recordAt after 0) = Some (StrId "run-7") ∧
  tr_score (recordAt after 0) = None ∧
  tr_id (recordAt after 1) = None ∧
  tr_id (recordAt after 2) = Some (NumId 0) ∧
  tr_id (recordAt after 3) = Some (NumId 1) ∧
  (info_status <$> infoAt after 4) = Some (Some "success") ∧
  length after = 6.
Proof.
  intros record0 record1 h after.
  destruct (renderUpsetPlot_frame sampleDraws 0 (Some emptyMount)
              (Some [0; 1]) [] defaultOptions h after
              (ByRef.renderUpsetPlot sampleDraws 0 (Some emptyMount)
                 (Some [0; 1]) [] defaultOptions h).2)
    as (_ & _ & Hrecords).
  { unfold after. by destruct (ByRef.renderUpsetPlot _ _ _ _ _ _ _). }
  destruct (Hrecords 0 record0 eq_refl) as (H0 & Hid0 & Hscore0 & _).
  destruct (Hrecords 1 record1 eq_refl) as (H1 & Hid1 & _).
  split; [exact H0|]. split; [exact H1|].
  split; [exact Hid0|]. split; [exact Hscore0|]. split; [exact Hid1|].
  by vm_compute.
Defined.

(** X29. The outcome of a render through references to the records of
    the host is the outcome of [renderUpsetPlot] on the records the
    references stand for. *)
Theorem renderUpsetPlot_by_reference random cursor container data toolSets
    options h :
  Forall (λ r, r < length h) data →
  (ByRef.renderUpsetPlot random cursor container (Some data) toolSets
     options h).2 =
  renderUpsetPlot random cursor container (Some (recordAt h <$> data))
    toolSets options.
Proof.
  intros Hvalid.
  destruct (renderUpsetPlot_refines random cursor container (Some data)
              toolSets options h) as (fresh & _ & Hsame).
  by apply Hsame.
Qed.

Lemma renderUpsetPlot_by_reference_witness :
  let record :=
    {| tr_id := Some (StrId "run-7");
       tr_outputs :=
         Some {| messages :=
                   Some [callEvent [request "c1" "search"];
                         resultEvent "c1"] |};
       tr_score := Some (1 # 2)%Q;
       tr_other := [] |} in
  (ByRef.renderUpsetPlot sampleDraws 0 (Some emptyMount) (Some [0; 0]) []
     defaultOptions [RecordCell record]).2 =
  renderUpsetPlot sampleDraws 0 (Some emptyMount) (Some [record; record]) []
    defaultOptions.
Proof.
  intros record.
  apply (renderUpsetPlot_by_reference sampleDraws 0 (Some emptyMount) [0; 0]
           [] defaultOptions [RecordCell record]).
  repeat constructor.
Defined.

(** ** [createGlyphSystem] *)

Lemma get_Permutation {V} (m1 m2 : list (string * V)) k :
  NoDup (JsMap.keys m1) → m1 ≡ₚ m2 → JsMap.get k m1 = JsMap.get k m2.
Proof.
  intros Hnd Hperm.
  assert (NoDup (JsMap.keys m2)) as Hnd2.
  { unfold JsMap.keys in *. by rewrite <-Hperm. }
  destruct (JsMap.get k m1) as [v|] eqn:Hg.
  - symmetry. apply elem_of_get; [done|]. rewrite <-Hperm.
    by apply get_elem_of.
  - symmetry. apply get_None. apply get_None in Hg.
    unfold JsMap.keys in *. by rewrite <-Hperm.
Qed.

Lemma unitRank_inj c1 c2 : unitRank c1 = unitRank c2 → c1 = c2.
Proof.
  unfold unitRank. intros Heq.
  pose proof (N_ascii_bounded c1) as Hb1.
  pose proof (N_ascii_bounded c2) as Hb2.
  apply (f_equal N_of_ascii) in Heq.
  rewrite <-(ascii_N_embedding c1), <-(ascii_N_embedding c2). f_equal.
  destruct (N.ltb_spec (N_of_ascii c1) 238), (N.ltb_spec (N_of_ascii c1) 240),
    (N.ltb_spec (N_of_ascii c2) 238), (N.ltb_spec (N_of_ascii c2) 240);
    rewrite !N_ascii_embedding in Heq by lia; lia.
Qed.

Lemma unitKey_inj s1 s2 : unitKey s1 = unitKey s2 → s1 = s2.
Proof.
  revert s2. induction s1 as [|c1 s1 IH]; intros [|c2 s2]; try done.
  cbn [unitKey]. intros [= Hc Hs]. f_equal; [by apply unitRank_inj|].
  by apply IH.
Qed.

Global Instance codeUnit_le_total : Total codeUnit_le.
Proof. intros s1 s2. apply (total String.le). Qed.

Global Instance codeUnit_le_trans : Transitive codeUnit_le.
Proof. intros s1 s2 s3. unfold codeUnit_le. apply transitivity. Qed.

Global Instance codeUnit_le_antisymm : AntiSymm (=) codeUnit_le.
Proof.
  intros s1 s2 H12 H21. apply unitKey_inj.
  by apply (anti_symm String.le).
Qed.

(** The order on samples: within the ASCII range, across characters of
    one, two and three bytes, and around the surrogates, where U+D7FF
    comes before the astral U+1F600 and that before U+E000 and U+FF61. *)
Lemma codeUnit_le_samples :
  codeUnit_le "Zeta" "alpha" ∧ codeUnit_le "data" "data_tools" ∧
  codeUnit_le "z" "é" ∧ codeUnit_le "é" "中" ∧
  codeUnit_le "퟿" "😀" ∧ codeUnit_le "😀" "" ∧
  codeUnit_le "😀" "｡" ∧
  ¬ codeUnit_le "｡" "😀" ∧
  ¬ codeUnit_le "" "😀" ∧
  String.le "｡" "😀".
Proof. split_and!; by apply (bool_decide_unpack _). Qed.

Lemma groupNamesOf_Sorted toolSets :
  Sorted codeUnit_le (groupNamesOf toolSets).
Proof. apply Sorted_merge_sort; apply _. Qed.

Lemma groupNamesOf_Permutation toolSets :
  groupNamesOf toolSets ≡ₚ JsMap.keys toolSets.
Proof. apply merge_sort_Permutation. Qed.

Lemma groupNamesOf_proper toolSets toolSets' :
  toolSets ≡ₚ toolSets' → groupNamesOf toolSets = groupNamesOf toolSets'.
Proof.
  intros Hperm. apply (Sorted_unique codeUnit_le);
    [apply groupNamesOf_Sorted..|].
  rewrite !groupNamesOf_Permutation. unfold JsMap.keys. by rewrite Hperm.
Qed.

Lemma assignGlyphs_rank (groupNames : list string) :
  NoDup groupNames →
  let st := foldl assignGlyph ([], 0) groupNames in
  st.2 = length groupNames ∧
  JsMap.keys st.1 = groupNames ∧
  ∀ i group, groupNames !! i = Some group →
    JsMap.get group st.1 =
    Some (nth (i mod length availableGlyphs) availableGlyphs "").
Proof.
  induction groupNames as [|g groupNames IH] using rev_ind; intros Hnd.
  { split_and!; [done..|]. intros i group. done. }
  apply NoDup_app in Hnd as (Hnd & Hfresh & _).
  destruct (IH Hnd) as (IHn & IHk & IHg). clear IH.
  rewrite foldl_snoc. simpl.
  set (st := foldl assignGlyph ([], 0) groupNames) in *.
  assert (g ∉ groupNames) as Hg.
  { intros Hin. apply (Hfresh g Hin). apply list_elem_of_here. }
  unfold assignGlyph. simpl. rewrite set_absent by by rewrite IHk.
  split_and!.
  - rewrite length_app. simpl. lia.
  - unfold JsMap.keys in *. by rewrite fmap_snoc, IHk.
  - intros i group [[Hlt Hi]|[-> ->]]%lookup_snoc_Some.
    + rewrite get_app_l; [by apply IHg|]. rewrite IHk.
      by eapply list_elem_of_lookup_2.
    + rewrite get_app_r by by rewrite IHk. simpl.
      rewrite decide_True by done. by rewrite IHn.
Qed.

Lemma registerGroup_keys toolSets m groupName k :
  k ∈ JsMap.keys (registerGroup toolSets m groupName) →
  k ∈ JsMap.keys m ∨
  ∃ tools, JsMap.get groupName toolSets = Some tools ∧ k ∈ tools.
Proof.
  unfold registerGroup.
  destruct (JsMap.get groupName toolSets) as [tools|]; simpl; [|by left].
  assert (∀ m, k ∈ JsMap.keys
                 (foldl (λ m toolName, JsMap.set toolName groupName m) m tools) →
               k ∈ JsMap.keys m ∨ k ∈ tools) as Hgen.
  { clear m. induction tools as [|t tools IH]; intros m; simpl; [by left|].
    intros [Hk|Hk]%IH.
    - destruct (decide (t ∈ JsMap.keys m)) as [Ht|Ht].
      + rewrite keys_set_present in Hk by done. by left.
      + rewrite set_absent in Hk by done. unfold JsMap.keys in Hk.
        rewrite fmap_snoc, elem_of_app, list_elem_of_singleton in Hk.
        destruct Hk as [Hk| ->]; [by left|]. right. apply list_elem_of_here.
    - right. by apply list_elem_of_further. }
  intros [Hk|Hk]%Hgen; [by left|]. right. by exists tools.
Qed.

Lemma registerGroups_keys toolSets groupNames m k :
  k ∈ JsMap.keys (foldl (registerGroup toolSets) m groupNames) →
  k ∈ JsMap.keys m ∨
  ∃ group tools, JsMap.get group toolSets = Some tools ∧ k ∈ tools.
Proof.
  revert m. induction groupNames as [|g groupNames IH]; intros m; simpl;
    [by left|].
  intros [[Hk|(tools & Hg & Hk)]%registerGroup_keys|Hk]%IH; eauto.
Qed.

Lemma palette_lookup i :
  availableGlyphs !! (i mod length availableGlyphs) =
  Some (nth (i mod length availableGlyphs) availableGlyphs "").
Proof.
  assert (i mod length availableGlyphs < length availableGlyphs) as Hlt
    by (apply Nat.mod_upper_bound; simpl; lia).
  destruct (lookup_lt_is_Some_2 _ _ Hlt) as [g Hg].
  rewrite Hg. f_equal. symmetry. by apply nth_lookup_Some with (d := "") in Hg.
Qed.

(** C4. The glyph system of a taxonomy is fixed by the set of its groups:
    the group names are sorted, the group of sorted rank [i] gets the glyph
    [i mod 9] of the palette, a taxonomy with the same entries in another
    key order gives the same glyph system, and a tool that no group lists
    has the glyph "circle" and the group "unknown". *)
Theorem createGlyphSystem_deterministic toolSets toolSets' :
  NoDup (JsMap.keys toolSets) →
  toolSets ≡ₚ toolSets' →
  let g := createGlyphSystem toolSets in
  Sorted codeUnit_le (groupNamesOf toolSets) ∧
  groupNamesOf toolSets ≡ₚ JsMap.keys toolSets ∧
  length availableGlyphs = 9 ∧
  (∀ i group, groupNamesOf toolSets !! i = Some group →
     JsMap.get group (groupToGlyph g) = availableGlyphs !! (i mod 9)) ∧
  createGlyphSystem toolSets' = g ∧
  (∀ toolName,
     (∀ group tools, (group, tools) ∈ toolSets → toolName ∉ tools) →
     getGlyph g toolName = "circle" ∧ getGroup g toolName = "unknown").
Proof.
  intros Hnd Hperm g. split_and!.
  - apply groupNamesOf_Sorted.
  - apply groupNamesOf_Permutation.
  - done.
  - intros i group Hi. subst g. unfold createGlyphSystem. simpl.
    assert (NoDup (groupNamesOf toolSets)) as Hnd'
      by by rewrite groupNamesOf_Permutation.
    destruct (assignGlyphs_rank _ Hnd') as (_ & _ & Hrank).
    rewrite (Hrank i group Hi). symmetry. apply (palette_lookup i).
  - subst g. unfold createGlyphSystem.
    rewrite <-(groupNamesOf_proper _ _ Hperm). f_equal.
    apply foldl_ext. intros m group. unfold registerGroup.
    by rewrite (get_Permutation _ _ group Hnd Hperm).
  - intros toolName Hunknown.
    assert (JsMap.get toolName (toolToGroup g) = None) as Hnone.
    { apply get_None. intros Hin. subst g. unfold createGlyphSystem in Hin.
      simpl in Hin.
      apply registerGroups_keys in Hin as [Hin|(group & tools & Hg & Hin)].
      - by apply elem_of_nil in Hin.
      - apply (Hunknown group tools); [|done]. by apply get_elem_of. }
    unfold getGlyph, getGroup. by rewrite Hnone.
Qed.

Lemma createGlyphSystem_deterministic_witness :
  let toolSets :=
    [("data_tools", ["csv_read"; "csv_filter"]);
     ("enrichment_tools", ["gsea_pipe"])] in
  let toolSets' :=
    [("enrichment_tools", ["gsea_pipe"]);
     ("data_tools", ["csv_read"; "csv_filter"])] in
  createGlyphSystem toolSets' = createGlyphSystem toolSets ∧
  getGlyph (createGlyphSystem toolSets) "gsea_pipe" = "cross" ∧
  getGlyph (createGlyphSystem toolSets) "web_search" = "circle" ∧
  getGroup (createGlyphSystem toolSets) "web_search" = "unknown" ∧
  let wide := [("｡", ["stop"]); ("😀", ["grin"])] in
  groupNamesOf wide = ["😀"; "｡"] ∧
  JsMap.get "😀" (groupToGlyph (createGlyphSystem wide)) = Some "circle" ∧
  JsMap.get "｡" (groupToGlyph (createGlyphSystem wide)) = Some "cross".
Proof.
  intros toolSets toolSets'.
  assert (NoDup (JsMap.keys toolSets)) as Hnd
    by by apply (bool_decide_unpack _).
  assert (toolSets ≡ₚ toolSets') as Hperm by apply Permutation_swap.
  destruct (createGlyphSystem_deterministic toolSets toolSets' Hnd Hperm)
    as (_ & _ & _ & _ & Heq & Hunknown).
  split; [exact Heq|]. split; [reflexivity|].
  split; [|split].
  - apply Hunknown. intros group tools Hin. unfold toolSets in Hin.
    repeat (apply elem_of_cons in Hin as [[= -> ->]|Hin];
            [by apply (bool_decide_unpack _)|]).
    by apply elem_of_nil in Hin.
  - apply Hunknown. intros group tools Hin. unfold toolSets in Hin.
    repeat (apply elem_of_cons in Hin as [[= -> ->]|Hin];
            [by apply (bool_decide_unpack _)|]).
    by apply elem_of_nil in Hin.
  - intros wide.
    assert (NoDup (JsMap.keys wide)) as Hnd2
      by by apply (bool_decide_unpack _).
    destruct (createGlyphSystem_deterministic wide wide Hnd2 (reflexivity _))
      as (_ & _ & _ & Hrank & _).
    split; [reflexivity|].
    split; [exact (Hrank 0 "😀" eq_refl)|exact (Hrank 1 "｡" eq_refl)].
Defined.

(** ** [renderUpsetPlot] *)

(** What a render leaves in the container: the styles of the container
    with the position set, and after the clearing one svg and the tooltip
    element, whatever the container held. *)
Lemma drawUpsetPlot_container random cursor container data tracings
    extracted toolSets options :
  ∃ m svg,
    rr_container (drawUpsetPlot random cursor container data tracings
                    extracted toolSets options) = Some m ∧
    m_styles m = JsMap.set "position" "relative" (m_styles container) ∧
    m_children m = [svg; createTooltip].
Proof.
  unfold drawUpsetPlot. destruct data; cbn; eauto.
Qed.

(** C9. On the empty list of traces the render leaves in the container,
    whatever the container held before, an svg whose only child is the
    text "No data" and after it the tooltip element, and nothing else; it
    derives no scale, reads no draw of [Math.random], and the extraction
    before the emptiness test walks no trace. *)
Theorem renderUpsetPlot_empty random cursor container toolSets options :
  let width := default 640%Q (opt_width options) in
  let margin := marginOf options in
  let height :=
    default (top margin + 200 + 100 + bottom margin)%Q (opt_height options) in
  getTools (assignIdsToTracings []) =
    Returns {| tools := []; tracingToolCalls := [] |} ∧
  ∃ r m,
    renderUpsetPlot random cursor (Some container) (Some []) toolSets options
      = Returns r ∧
    rr_container r = Some m ∧
    m_styles m = JsMap.set "position" "relative" (m_styles container) ∧
    m_children m =
      [Elem "svg" [("width", Num width); ("height", Num height)] None None
         [Elem "text" [("x", Num (width / 2)); ("y", Num (height / 2))]
            (Some (Text "No data")) None []];
       Elem "div" [("class", Str "upset-tooltip")] None None []] ∧
    rr_scales r = None ∧
    rr_cursor r = cursor.
Proof.
  intros width margin height. split; [done|].
  eexists _, _. split; [reflexivity|]. cbn.
  split; [reflexivity|]. split; [reflexivity|]. split; [reflexivity|].
  split; [reflexivity|]. apply Nat.add_0_r.
Qed.

(** Into a container that holds an earlier drawing and a style, with the
    default options: the drawing is 640 wide and 420 high, the text sits
    in the middle, the earlier drawing is gone and the style is kept. *)
Lemma renderUpsetPlot_empty_witness :
  let stale :=
    {| m_styles := [("color", "black")];
       m_children := [Elem "svg" [] None None [Elem "g" [] None None []];
                      Elem "div" [] None None []] |} in
  ∃ r m,
    renderUpsetPlot sampleDraws 0 (Some stale) (Some []) [] defaultOptions =
      Returns r ∧
    rr_container r = Some m ∧
    m_styles m = [("color", "black"); ("position", "relative")] ∧
    m_children m =
      [Elem "svg" [("width", Num 640); ("height", Num (80 + 200 + 100 + 40))]
         None None
         [Elem "text"
            [("x", Num (640 / 2)); ("y", Num ((80 + 200 + 100 + 40) / 2))]
            (Some (Text "No data")) None []];
       Elem "div" [("class", Str "upset-tooltip")] None None []] ∧
    rr_scales r = None ∧
    rr_cursor r = 0.
Proof.
  intros stale.
  destruct (renderUpsetPlot_empty sampleDraws 0 stale [] defaultOptions)
    as (_ & r & m & Hr & Hm & Hstyles & Hchildren & Hscales & Hcursor).
  exists r, m. split_and!; done.
Defined.

Lemma set_set {V} (m : list (string * V)) k v :
  JsMap.set k v (JsMap.set k v m) = JsMap.set k v m.
Proof.
  induction m as [|[k' v'] m IH]; simpl.
  - by rewrite decide_True.
  - destruct (decide (k' = k)) as [->|Hne]; simpl.
    + by rewrite decide_True.
    + rewrite decide_False by done. by rewrite IH.
Qed.

(** What a render leaves in the container depends on the container through
    its styles only: the earlier children are gone. *)
Lemma renderUpsetPlot_cleared random cursor container container' data
    toolSets options :
  JsMap.set "position" "relative" (m_styles container) =
    JsMap.set "position" "relative" (m_styles container') →
  renderUpsetPlot random cursor (Some container) data toolSets options =
  renderUpsetPlot random cursor (Some container') data toolSets options.
Proof.
  intros Hstyles. unfold renderUpsetPlot, drawUpsetPlot, clearContainer.
  unfold setStyle, removeAll. cbn [fst m_styles m_children].
  by rewrite Hstyles.
Qed.

Lemma renderUpsetPlot_container random cursor container data toolSets
    options r :
  renderUpsetPlot random cursor (Some container) data toolSets options =
    Returns r →
  ∃ m svg, rr_container r = Some m ∧
           m_styles m =
             JsMap.set "position" "relative" (m_styles container) ∧
           m_children m = [svg; createTooltip].
Proof.
  unfold renderUpsetPlot. destruct data as [data|]; [|done].
  destruct (getTools (assignIdsToTracings data)) as [extracted|]; [|done].
  intros [= <-]. apply drawUpsetPlot_container.
Qed.

Lemma ProfileUpperBarChart_names random cursor tools :
  toolName <$> ProfileUpperBarChart random cursor tools = tools.
Proof.
  unfold ProfileUpperBarChart. rewrite fmap_imap.
  rewrite <-(list_fmap_id tools) at 2. apply (imap_const id).
Qed.

Lemma ProfileUpperBarChart_draws random random' cursor cursor' tools :
  (∀ i, randomShapley (random' (cursor' + i)) =
        randomShapley (random (cursor + i))) →
  ProfileUpperBarChart random' cursor' tools =
  ProfileUpperBarChart random cursor tools.
Proof.
  intros Hdraws. unfold ProfileUpperBarChart. apply imap_ext.
  intros i tool _. simpl. by rewrite Hdraws.
Qed.

Lemma eraseElement_importanceBar xScale yScale yScale' d :
  eraseDomain yScale = eraseDomain yScale' →
  eraseElement (importanceBar xScale yScale d) =
  eraseElement
    (importanceBar xScale yScale'
       {| toolName := toolName d; shapleyValue := 0 |}).
Proof.
  intros Hscale. destruct d as [name v]. unfold importanceBar.
  cbn -[eraseDomain].
  destruct (Qle_bool 0 v); cbn -[eraseDomain]; by rewrite Hscale.
Qed.

Lemma eraseElement_toolLabel xScale glyphSystem d :
  eraseElement (toolLabel xScale glyphSystem d) =
  eraseElement
    (toolLabel xScale glyphSystem
       {| toolName := toolName d; shapleyValue := 0 |}).
Proof.
  destruct d as [name v]. unfold toolLabel, renderGlyph. simpl.
  repeat case_decide; reflexivity.
Qed.

Lemma eraseElement_bars upper upper' xScale yScale yScale' matrixWidth
    glyphSystem :
  toolName <$> upper = toolName <$> upper' →
  eraseDomain yScale = eraseDomain yScale' →
  eraseElement
    (renderToolImportanceBars upper xScale yScale matrixWidth glyphSystem) =
  eraseElement
    (renderToolImportanceBars upper' xScale yScale' matrixWidth glyphSystem).
Proof.
  intros Hnames Hscale. unfold renderToolImportanceBars.
  cbn [eraseElement map app]. rewrite !map_app. cbn [eraseElement map app].
  rewrite !map_map. cbn [fst snd eraseAttr]. rewrite Hscale.
  assert (∀ f g : BarDatum → Element,
            (∀ d, eraseElement (f d) =
                  eraseElement (g {| toolName := toolName d;
                                     shapleyValue := 0 |})) →
            (∀ d, eraseElement (g d) =
                  eraseElement (g {| toolName := toolName d;
                                     shapleyValue := 0 |})) →
            map (λ d, eraseElement (f d)) upper =
            map (λ d, eraseElement (g d)) upper') as Hmap.
  { intros f g Hf Hg.
    transitivity
      ((λ n, eraseElement (g {| toolName := n; shapleyValue := 0 |}))
         <$> (toolName <$> upper)).
    - rewrite <-list_fmap_compose. apply list_fmap_ext. intros i d _. apply Hf.
    - rewrite Hnames, <-list_fmap_compose. apply list_fmap_ext.
      intros i d _. symmetry. apply Hg. }
  rewrite (Hmap (importanceBar xScale yScale) (importanceBar xScale yScale')
             (λ d, eraseElement_importanceBar xScale yScale yScale' d Hscale)
             (λ d, eraseElement_importanceBar xScale yScale' yScale' d
                     eq_refl)).
  rewrite (Hmap (toolLabel xScale glyphSystem) (toolLabel xScale glyphSystem)
             (eraseElement_toolLabel xScale glyphSystem)
             (eraseElement_toolLabel xScale glyphSystem)).
  done.
Qed.

(** The elements that are neither the bar chart nor below it carry no
    tool-importance value. *)
Lemma eraseElement_renderGlyph datum glyphType x y size :
  eraseElement (renderGlyph datum glyphType x y size) =
  renderGlyph (eraseDatum <$> datum) glyphType (eraseAttr x) (eraseAttr y)
    size.
Proof. unfold renderGlyph. repeat case_decide; reflexivity. Qed.

(** C5. Rendering again into the mount point of an earlier render of the
    same traces and taxonomy leaves the view a render into the original
    mount point leaves: the earlier elements are removed, and the container
    holds one svg and one tooltip. The second view equals the first up to
    the tool-importance values, which every render draws afresh from
    [Math.random], and what is derived from them: the value bound to a
    bar, the domain of the bar scale, and the bars, the zero line and the
    axis placed through that scale. The other scales are those of the
    first render. The second view equals the first outright when the
    draws agree. *)
Theorem renderUpsetPlot_twice random random' cursor cursor' container data
    toolSets options r1 m1 :
  renderUpsetPlot random cursor (Some container) data toolSets options =
    Returns r1 →
  rr_container r1 = Some m1 →
  ∃ r2 m2,
    renderUpsetPlot random' cursor' (Some m1) data toolSets options =
      Returns r2 ∧
    rr_container r2 = Some m2 ∧
    renderUpsetPlot random' cursor' (Some container) data toolSets options =
      Returns r2 ∧
    length (m_children m2) = 2 ∧
    withoutShapley m2 = withoutShapley m1 ∧
    withoutShapleyDomain <$> rr_scales r2 =
      withoutShapleyDomain <$> rr_scales r1 ∧
    ((∀ i, randomShapley (random' (cursor' + i)) =
           randomShapley (random (cursor + i))) →
     m2 = m1 ∧ rr_scales r2 = rr_scales r1).
Proof.
  intros Hr1 Hm1.
  destruct (renderUpsetPlot_container _ _ _ _ _ _ _ Hr1)
    as (m & svg & Hm & Hstyles & Hchildren).
  rewrite Hm1 in Hm. injection Hm as <-.
  assert (JsMap.set "position" "relative" (m_styles m1) =
          JsMap.set "position" "relative" (m_styles container)) as Hclear.
  { by rewrite Hstyles, set_set. }
  rewrite (renderUpsetPlot_cleared _ _ _ _ _ _ _ Hclear).
  clear Hclear Hstyles Hchildren svg.
  unfold renderUpsetPlot in *. destruct data as [data|]; [|done].
  destruct (getTools (assignIdsToTracings data)) as [extracted|]; [|done].
  cbn [obind] in *. injection Hr1 as <-.
  unfold drawUpsetPlot in *. cbv beta zeta in *.
  destruct data as [|t data].
  - simpl in Hm1. injection Hm1 as <-.
    eexists _, _. split_and!; try done.
  - cbn [rr_container] in Hm1. injection Hm1 as <-.
    eexists _, _. split_and!; [done|done|done|done| |done|].
    + unfold withoutShapley, appendTo, svgElement.
      cbn [m_styles m_children clearContainer setStyle removeAll fst app].
      f_equal. cbn [eraseElement map]. rewrite !map_app. cbn [map].
      rewrite (eraseElement_bars
                 (ProfileUpperBarChart random' cursor' (tools extracted))
                 (ProfileUpperBarChart random cursor (tools extracted))
                 _ _
                 {| lin_domain :=
                      (qmin (default (-1)%Q
                               (fst <$> extent
                                  (map shapleyValue
                                     (ProfileUpperBarChart random cursor
                                        (tools extracted))))) 0,
                       qmax (default 1%Q
                               (snd <$> extent
                                  (map shapleyValue
                                     (ProfileUpperBarChart random cursor
                                        (tools extracted))))) 0);
                    lin_nice := true;
                    lin_range := (200%Q, 0%Q) |})
        by (by rewrite ?ProfileUpperBarChart_names).
      done.
    + intros Hdraws. cbn [rr_scales].
      by rewrite (ProfileUpperBarChart_draws _ _ _ _ _ Hdraws).
Qed.

Lemma renderUpsetPlot_twice_witness :
  let data := Some [traceOf [callEvent [request "c1" "search"]]] in
  let random : RandomSource := λ _, (1 # 2)%Q in
  ∃ r1 m1,
    renderUpsetPlot random 0 (Some emptyMount) data [] defaultOptions =
      Returns r1 ∧
    rr_container r1 = Some m1 ∧
    ∃ r2 m2,
      renderUpsetPlot random 1 (Some m1) data [] defaultOptions = Returns r2 ∧
      rr_container r2 = Some m2 ∧
      length (m_children m2) = 2 ∧
      m2 = m1.
Proof.
  intros data random. eexists _, _.
  split; [reflexivity|]. split; [reflexivity|].
  destruct (renderUpsetPlot_twice random random 0 1 emptyMount data []
              defaultOptions _ _ eq_refl eq_refl)
    as (r2 & m2 & Hr2 & Hm2 & _ & Hlen & _ & _ & Hsame).
  exists r2, m2. split_and!; [done..|]. by apply Hsame.
Defined.

(** Two renders in a row of the same trace, reading successive draws: the
    bar of the only tool is bound to the value -1 by the first render and
    to 0 by the second, the bar scale has the domain from -1 to 0 in the
    first view and from 0 to 0 in the second, and the two views differ. *)
Lemma renderUpsetPlot_twice_differs :
  let data := Some [traceOf [callEvent [request "c1" "search"]]] in
  ∃ r1 m1 r2 m2 s1 s2,
    renderUpsetPlot sampleDraws 0 (Some emptyMount) data [] defaultOptions =
      Returns r1 ∧
    rr_container r1 = Some m1 ∧
    renderUpsetPlot sampleDraws (rr_cursor r1) (Some m1) data []
      defaultOptions = Returns r2 ∧
    rr_container r2 = Some m2 ∧
    rr_scales r1 = Some s1 ∧ rr_scales r2 = Some s2 ∧
    ((lin_domain (s_yBar s1)).1 == -1)%Q ∧
    ((lin_domain (s_yBar s1)).2 == 0)%Q ∧
    ((lin_domain (s_yBar s2)).1 == 0)%Q ∧
    ((lin_domain (s_yBar s2)).2 == 0)%Q ∧
    m2 ≠ m1.
Proof.
  intros data. eexists _, _, _, _, _, _.
  split; [reflexivity|]. split; [reflexivity|].
  split; [reflexivity|]. split; [reflexivity|].
  split; [reflexivity|]. split; [reflexivity|].
  split; [by vm_compute|]. split; [by vm_compute|].
  split; [by vm_compute|]. split; [by vm_compute|].
  intros Heq. vm_compute in Heq. discriminate Heq.
Qed.

(** * Further properties *)

(** ** [getTools]: responses *)

Lemma addToolCalls_other st calls id :
  id ∉ tc_id <$> calls →
  JsMap.get id (foldl addToolCall st calls).1 = JsMap.get id st.1.
Proof.
  revert st. induction calls as [|c calls IH]; intros st; [done|].
  rewrite fmap_cons, not_elem_of_cons. intros [Hne Hid]. simpl.
  rewrite (IH _ Hid). simpl. by rewrite get_set_ne.
Qed.

Lemma addResponse_other output toolCallId calls id :
  toolCallId ≠ id →
  JsMap.get id (addResponse output toolCallId calls) = JsMap.get id calls.
Proof.
  intros Hne. unfold addResponse.
  destruct (JsMap.get toolCallId calls); [|done]. by rewrite get_set_ne.
Qed.

Lemma walkOutputs_other outputs st st' id :
  forEachM walkOutput st outputs = Returns st' →
  id ∉ requestIds outputs → id ∉ resultIds outputs →
  JsMap.get id st'.1 = JsMap.get id st.1.
Proof.
  revert st. induction outputs as [|o outputs IH]; intros st.
  - by intros [= <-].
  - unfold requestIds, resultIds. rewrite bind_cons, fmap_app.
    cbn [forEachM omap list_omap].
    destruct (walkOutput st o) as [st1|] eqn:Ho; cbn [obind]; [|done].
    intros Hrest [Hcalls Hreq]%not_elem_of_app Hres.
    assert (JsMap.get id st1.1 = JsMap.get id st.1) as Hstep.
    { unfold walkOutput, truthyToolCalls in *.
      destruct (o_tool_calls o) as [[calls|]|]; [| |].
      - injection Ho as <-. by apply addToolCalls_other.
      - done.
      - destruct (o_tool_call_id o) as [i|]; injection Ho as <-; [|done].
        simpl. apply addResponse_other. intros ->. apply Hres.
        apply list_elem_of_here. }
    rewrite <-Hstep. apply (IH _ Hrest); [done|].
    destruct (match o_tool_calls o with
              | Some _ => None
              | None => o_tool_call_id o
              end); [|done].
    by apply not_elem_of_cons in Hres as [_ ?].
Qed.

(** X1. A result event that follows a request with its [tool_call_id]
    writes its status and content into the record of that request, which
    keeps the id, name, type and arguments of the last such request; the
    record stays so when no later output requests or answers the id. *)
Theorem getTools_response before tracing after r pre result post id request :
  getTools (before ++ tracing :: after) = Returns r →
  tr_id tracing ∉ tr_id <$> after →
  traceOutputs tracing = pre ++ result :: post →
  o_tool_calls result = None →
  o_tool_call_id result = Some id →
  lastCall id (pre ≫= truthyToolCalls) = Some request →
  id ∉ requestIds post →
  id ∉ resultIds post →
  ∃ entry,
    JsMap.get (tr_id tracing) (tracingToolCalls r) = Some entry ∧
    JsMap.get id (toolCalls entry) =
      Some {| info_id := tc_id request;
              info_name := tc_name request;
              info_type := tc_type request;
              info_args := tc_args request;
              info_status := o_status result;
              info_content := o_content result |}.
Proof.
  intros Hr Hafter Hout Hcalls Hid Hlast Hreq Hres.
  unfold getTools in Hr. rewrite forEachM_app in Hr.
  destruct (forEachM walkTracing ([], []) before) as [st0|]; [|done].
  cbn [obind forEachM] in Hr.
  destruct (walkTracing st0 tracing) as [st1|] eqn:Ht; [|done].
  cbn [obind] in Hr.
  destruct (forEachM walkTracing st1 after) as [st2|] eqn:Hrest; [|done].
  injection Hr as <-. cbn [tracingToolCalls].
  rewrite (walkTracings_other _ _ _ _ Hrest Hafter).
  pose proof (walkTracing_outputs _ _ _ Ht) as Ho.
  rewrite walkTracing_unfold, Ho, Hout in Ht.
  rewrite forEachM_app in Ht.
  destruct (forEachM walkOutput ([], st0.1) pre) as [[m1 t1]|] eqn:Hpre;
    [|done].
  cbn [obind forEachM] in Ht. unfold walkOutput at 1 in Ht.
  rewrite Hcalls, Hid in Ht. cbn [obind fst snd] in Ht.
  destruct (forEachM walkOutput (addResponse result id m1, t1) post)
    as [st3|] eqn:Hpost; [|done].
  injection Ht as <-. cbn [snd]. rewrite get_set_eq.
  eexists. split; [done|]. cbn [toolCalls].
  rewrite (walkOutputs_other _ _ _ id Hpost Hreq Hres). cbn [fst].
  pose proof (walkOutputs_get _ _ _ id Hpre) as Hcore.
  rewrite Hlast in Hcore. cbn [fst] in Hcore. unfold addResponse.
  destruct (JsMap.get id m1) as [info|]; [|done].
  rewrite get_set_eq. injection Hcore as -> -> -> ->. done.
Qed.

Lemma getTools_response_witness :
  let tracing :=
    traceOf [callEvent [request "c1" "search"]; resultEvent "c1";
             callEvent [request "c2" "read"]] in
  ∃ r entry,
    getTools [tracing] = Returns r ∧
    JsMap.get (tr_id tracing) (tracingToolCalls r) = Some entry ∧
    JsMap.get "c1" (toolCalls entry) =
      Some {| info_id := "c1"; info_name := "search";
              info_type := Some "tool_call"; info_args := None;
              info_status := Some "success";
              info_content := Some "done" |}.
Proof.
  intros tracing.
  destruct (getTools_response [] tracing [] _
              [callEvent [request "c1" "search"]] (resultEvent "c1")
              [callEvent [request "c2" "read"]] "c1" (request "c1" "search")
              eq_refl) as (entry & Hentry & Hinfo);
    [by apply (bool_decide_unpack _)|reflexivity|reflexivity|reflexivity
    |reflexivity|by apply (bool_decide_unpack _)
    |by apply (bool_decide_unpack _)|].
  eexists _, entry. split; [reflexivity|]. split; [exact Hentry|exact Hinfo].
Defined.

(** ** [getTools]: the records of a trace *)

Lemma keys_set {K V} `{EqDecision K} (m : list (K * V)) k v :
  JsMap.keys (JsMap.set k v m) = JsSet.add k (JsMap.keys m).
Proof.
  unfold JsSet.add. case_decide as Hk.
  - by apply keys_set_present.
  - rewrite set_absent by done. unfold JsMap.keys. by rewrite fmap_app.
Qed.

Lemma addToolCalls_keys st calls :
  JsMap.keys (foldl addToolCall st calls).1 =
  foldl addName (JsMap.keys st.1) (tc_id <$> calls).
Proof.
  revert st. induction calls as [|c calls IH]; intros st; simpl; [done|].
  rewrite IH. simpl. by rewrite keys_set.
Qed.

Lemma addResponse_keys output toolCallId calls :
  JsMap.keys (addResponse output toolCallId calls) = JsMap.keys calls.
Proof.
  unfold addResponse. destruct (JsMap.get toolCallId calls) eqn:Hg; [|done].
  apply keys_set_present, get_is_Some. by rewrite Hg.
Qed.

Lemma walkOutputs_keys_order outputs st st' :
  forEachM walkOutput st outputs = Returns st' →
  JsMap.keys st'.1 = foldl addName (JsMap.keys st.1) (requestIds outputs).
Proof.
  revert st. induction outputs as [|o outputs IH]; intros st.
  - by intros [= <-].
  - unfold requestIds. rewrite bind_cons, fmap_app, foldl_app.
    cbn [forEachM].
    destruct (walkOutput st o) as [st1|] eqn:Ho; cbn [obind]; [|done].
    intros Hrest. rewrite (IH _ Hrest). f_equal.
    unfold walkOutput, truthyToolCalls in *.
    destruct (o_tool_calls o) as [[calls|]|]; [| |].
    + injection Ho as <-. apply addToolCalls_keys.
    + done.
    + destruct (o_tool_call_id o); injection Ho as <-; [|done].
      apply addResponse_keys.
Qed.

(** The record a walk leaves for a trace whose id no later trace reuses. *)
Lemma getTools_entry_walk before tracing after r :
  getTools (before ++ tracing :: after) = Returns r →
  tr_id tracing ∉ tr_id <$> after →
  ∃ tools0 st,
    forEachM walkOutput ([], tools0) (traceOutputs tracing) = Returns st ∧
    JsMap.get (tr_id tracing) (tracingToolCalls r) =
      Some {| toolCalls := st.1; score := tr_score tracing |}.
Proof.
  intros Hr Hafter. unfold getTools in Hr. rewrite forEachM_app in Hr.
  destruct (forEachM walkTracing ([], []) before) as [st0|]; [|done].
  cbn [obind forEachM] in Hr.
  destruct (walkTracing st0 tracing) as [st1|] eqn:Ht; [|done].
  cbn [obind] in Hr.
  destruct (forEachM walkTracing st1 after) as [st2|] eqn:Hrest; [|done].
  injection Hr as <-. cbn [tracingToolCalls].
  rewrite (walkTracings_other _ _ _ _ Hrest Hafter).
  pose proof (walkTracing_outputs _ _ _ Ht) as Ho.
  rewrite walkTracing_unfold, Ho in Ht.
  destruct (forEachM walkOutput ([], st0.1) (traceOutputs tracing))
    as [st|] eqn:Hw; [|done].
  injection Ht as <-. exists st0.1, st. split; [done|].
  cbn [snd]. by rewrite get_set_eq.
Qed.

Lemma walkOutputs_NoDup_keys outputs tools0 st :
  forEachM walkOutput ([], tools0) outputs = Returns st →
  JsMap.keys st.1 = JsSet.ofList (requestIds outputs).
Proof. intros Hw. by rewrite (walkOutputs_keys_order _ _ _ Hw). Qed.

(** X2. The records of a trace are kept in the order in which their call
    ids are first requested: a later request or result under a known id
    changes the record and leaves its place. *)
Theorem getTools_record_order before tracing after r :
  getTools (before ++ tracing :: after) = Returns r →
  tr_id tracing ∉ tr_id <$> after →
  ∃ entry,
    JsMap.get (tr_id tracing) (tracingToolCalls r) = Some entry ∧
    first_seen_order (JsMap.keys (toolCalls entry))
      (tc_id <$> traceCalls tracing).
Proof.
  intros Hr Hafter.
  destruct (getTools_entry_walk _ _ _ _ Hr Hafter) as (tools0 & st & Hw & Hg).
  eexists. split; [exact Hg|]. cbn [toolCalls].
  rewrite (walkOutputs_NoDup_keys _ _ _ Hw). apply ofList_first_seen.
Qed.

Lemma getTools_record_order_witness :
  let tracing :=
    traceOf [callEvent [request "c1" "search"; request "c2" "open"];
             resultEvent "c1"; callEvent [request "c1" "read"]] in
  ∃ r entry,
    getTools [tracing] = Returns r ∧
    JsMap.get (tr_id tracing) (tracingToolCalls r) = Some entry ∧
    JsMap.keys (toolCalls entry) = ["c1"; "c2"] ∧
    first_seen_order (JsMap.keys (toolCalls entry))
      (tc_id <$> traceCalls tracing).
Proof.
  intros tracing.
  destruct (getTools_record_order [] tracing [] _ eq_refl)
    as (entry & Hentry & Horder); [by apply (bool_decide_unpack _)|].
  eexists _, entry. split; [reflexivity|]. split; [exact Hentry|].
  split; [|exact Horder]. by injection Hentry as <-.
Defined.

(** *** Every record names a known tool *)

Lemma elem_of_addNames (s : list string) names x :
  x ∈ foldl addName s names ↔ x ∈ s ∨ x ∈ names.
Proof.
  revert s. induction names as [|y names IH]; intros s; simpl.
  - rewrite elem_of_nil. tauto.
  - rewrite IH, elem_of_cons. unfold addName, JsSet.add.
    case_decide as Hy.
    + split; [tauto|]. intros [?|[->|?]]; tauto.
    + rewrite elem_of_app, list_elem_of_singleton. tauto.
Qed.

Lemma addToolCalls_named st calls :
  (∀ id info, JsMap.get id st.1 = Some info → info_name info ∈ st.2) →
  ∀ id info, JsMap.get id (foldl addToolCall st calls).1 = Some info →
    info_name info ∈ (foldl addToolCall st calls).2.
Proof.
  revert st. induction calls as [|c calls IH]; intros st Hst; [done|].
  simpl. apply IH. simpl. intros id info.
  unfold JsSet.add.
  assert (∀ x, x ∈ st.2 ∨ x = tc_name c →
            x ∈ (if decide (tc_name c ∈ st.2) then st.2
                 else st.2 ++ [tc_name c])) as Hadd.
  { intros x. case_decide; [by intros [?| ->]|].
    rewrite elem_of_app, list_elem_of_singleton. tauto. }
  destruct (decide (tc_id c = id)) as [->|Hne].
  - rewrite get_set_eq. intros [= <-]. apply Hadd. by right.
  - rewrite get_set_ne by done. intros Hg. apply Hadd. left. by eapply Hst.
Qed.

Lemma walkOutputs_named outputs st st' :
  forEachM walkOutput st outputs = Returns st' →
  (∀ id info, JsMap.get id st.1 = Some info → info_name info ∈ st.2) →
  ∀ id info, JsMap.get id st'.1 = Some info → info_name info ∈ st'.2.
Proof.
  revert st. induction outputs as [|o outputs IH]; intros st.
  - by intros [= <-].
  - cbn [forEachM].
    destruct (walkOutput st o) as [st1|] eqn:Ho; cbn [obind]; [|done].
    intros Hrest Hst. apply (IH _ Hrest).
    unfold walkOutput in Ho.
    destruct (o_tool_calls o) as [[calls|]|]; [| |].
    + injection Ho as <-. by apply addToolCalls_named.
    + done.
    + destruct (o_tool_call_id o) as [i|]; injection Ho as <-; [|done].
      cbn [fst snd]. intros id info. unfold addResponse.
      destruct (JsMap.get i st.1) as [old|] eqn:Hold; [|apply Hst].
      destruct (decide (i = id)) as [->|Hne].
      * rewrite get_set_eq. intros [= <-]. cbn [info_name]. by eapply Hst.
      * rewrite get_set_ne by done. apply Hst.
Qed.

Lemma walkTracings_named tracings st st' :
  forEachM walkTracing st tracings = Returns st' →
  (∀ k entry id info, JsMap.get k st.2 = Some entry →
     JsMap.get id (toolCalls entry) = Some info → info_name info ∈ st.1) →
  ∀ k entry id info, JsMap.get k st'.2 = Some entry →
    JsMap.get id (toolCalls entry) = Some info → info_name info ∈ st'.1.
Proof.
  revert st. induction tracings as [|t tracings IH]; intros st.
  - by intros [= <-].
  - cbn [forEachM].
    destruct (walkTracing st t) as [st1|] eqn:Ht; cbn [obind]; [|done].
    intros Hrest Hst. apply (IH _ Hrest).
    pose proof (walkTracing_tools _ _ _ Ht) as Htools.
    rewrite walkTracing_unfold in Ht.
    destruct (tr_outputs t) as [[[outputs|]]|]; [|done..].
    destruct (forEachM walkOutput ([], st.1) outputs) as [r|] eqn:Hw;
      [|done].
    injection Ht as <-. cbn [fst snd] in *. intros k entry id info.
    destruct (decide (tr_id t = k)) as [->|Hne].
    + rewrite get_set_eq. intros [= <-]. cbn [toolCalls].
      apply (walkOutputs_named _ _ _ Hw). by intros ??.
    + rewrite get_set_ne by done. intros Hk Hid.
      rewrite (walkOutputs_tools _ _ _ Hw). cbn [snd].
      apply elem_of_addNames. left. by eapply Hst.
Qed.

(** X3. Every record [getTools] keeps, in whichever trace, names a tool of
    the returned [tools] list: the matrix has a column for every record. *)
Theorem getTools_records_in_tools tracings r k entry id info :
  getTools tracings = Returns r →
  JsMap.get k (tracingToolCalls r) = Some entry →
  JsMap.get id (toolCalls entry) = Some info →
  info_name info ∈ tools r.
Proof.
  unfold getTools.
  destruct (forEachM walkTracing ([], []) tracings) as [st|] eqn:Hw; [|done].
  intros [= <-]. cbn [tools tracingToolCalls].
  apply (walkTracings_named _ _ _ Hw). by intros ????.
Qed.

Lemma getTools_records_in_tools_witness :
  let tracings :=
    [traceOf [callEvent [request "c1" "search"];
              callEvent [request "c1" "read"]]] in
  ∃ r, getTools tracings = Returns r ∧ "read" ∈ tools r.
Proof.
  intros tracings. eexists. split; [reflexivity|].
  apply (getTools_records_in_tools tracings _ None
           {| toolCalls := [("c1", toolCallInfo (request "c1" "read"))];
              score := Some 1%Q |}
           "c1" (toolCallInfo (request "c1" "read")) eq_refl);
    reflexivity.
Defined.

(** *** Active cells *)

(** X4. The matrix cell of a trace and a tool is active exactly when some
    call id of the trace was last requested under that tool name. *)
Theorem callsForTool_active before tracing after r tool :
  getTools (before ++ tracing :: after) = Returns r →
  tr_id tracing ∉ tr_id <$> after →
  callsForTool (tracingToolCalls r) tracing tool ≠ [] ↔
  ∃ id request,
    lastCall id (traceCalls tracing) = Some request ∧ tc_name request = tool.
Proof.
  intros Hr Hafter.
  destruct (getTools_entry_walk _ _ _ _ Hr Hafter) as (tools0 & st & Hw & Hg).
  unfold callsForTool. rewrite Hg. cbn [toolCalls].
  assert (∀ id, infoCore <$> JsMap.get id st.1 =
                callCore <$> lastCall id (traceCalls tracing)) as Hcore.
  { intros id. rewrite (walkOutputs_get _ _ _ id Hw). unfold traceCalls.
    by destruct (lastCall id _). }
  split.
  - intros Hne.
    destruct (filter _ (JsMap.values st.1)) as [|info l] eqn:Hf; [done|].
    assert (info ∈ filter (λ toolCall, info_name toolCall = tool)
                     (JsMap.values st.1)) as Hin.
    { rewrite Hf. apply list_elem_of_here. }
    apply list_elem_of_filter in Hin as [Hname Hin].
    apply list_elem_of_fmap in Hin as ([id info'] & -> & Hin).
    apply elem_of_get in Hin.
    2:{ rewrite (walkOutputs_NoDup_keys _ _ _ Hw). apply NoDup_ofList. }
    specialize (Hcore id). rewrite Hin in Hcore.
    destruct (lastCall id (traceCalls tracing)) as [c|] eqn:Hlast; [|done].
    exists id, c. split; [done|]. injection Hcore as _ Hn _ _.
    simpl in *. congruence.
  - intros (id & c & Hlast & Hname) Hnil.
    specialize (Hcore id). rewrite Hlast in Hcore.
    destruct (JsMap.get id st.1) as [info|] eqn:Hget; [|done].
    injection Hcore as _ Hn _ _.
    assert (info ∈ filter (λ toolCall, info_name toolCall = tool)
                     (JsMap.values st.1)) as Hin.
    { apply list_elem_of_filter. split; [congruence|].
      apply list_elem_of_fmap. exists (id, info). split; [done|].
      by apply get_elem_of. }
    rewrite Hnil in Hin. by apply elem_of_nil in Hin.
Qed.

Lemma callsForTool_active_witness :
  let tracing :=
    traceOf [callEvent [request "c1" "search"];
             callEvent [request "c1" "read"]] in
  ∃ r, getTools [tracing] = Returns r ∧
       callsForTool (tracingToolCalls r) tracing "read" ≠ [] ∧
       ¬ callsForTool (tracingToolCalls r) tracing "search" ≠ [].
Proof.
  intros tracing.
  destruct (getTools [tracing]) as [r|] eqn:Hr; [|by vm_compute in Hr].
  exists r. split; [done|].
  assert (tr_id tracing ∉ tr_id <$> []) as Hafter.
  { by apply (bool_decide_unpack _). }
  split.
  - apply (callsForTool_active [] tracing [] r "read" Hr Hafter).
    exists "c1", (request "c1" "read"). by split.
  - intros Hne.
    apply (callsForTool_active [] tracing [] r "search" Hr Hafter) in Hne
      as (id & c & Hlast & Hname).
    unfold lastCall, callsWithId in Hlast. cbn in Hlast.
    destruct (decide ("c1" = id)); [|done].
    injection Hlast as <-. done.
Defined.

(** ** [ProfileLowerBarChart]: the rows of the score rail *)

Lemma ProfileLowerBarChart_app m1 m2 :
  ProfileLowerBarChart (m1 ++ m2) =
  ProfileLowerBarChart m1 ++ ProfileLowerBarChart m2.
Proof. apply map_app. Qed.

Lemma walkTracing_keys st tracing st' :
  walkTracing st tracing = Returns st' →
  JsMap.keys st'.2 = JsSet.add (tr_id tracing) (JsMap.keys st.2).
Proof.
  rewrite walkTracing_unfold.
  destruct (tr_outputs tracing) as [[[outputs|]]|]; [|done..].
  destruct (forEachM walkOutput ([], st.1) outputs) as [r|]; [|done].
  intros [= <-]. apply keys_set.
Qed.

Lemma walkTracings_rows tracings st st' :
  forEachM walkTracing st tracings = Returns st' →
  NoDup (tr_id <$> tracings) →
  (∀ k, k ∈ tr_id <$> tracings → k ∉ JsMap.keys st.2) →
  ProfileLowerBarChart st'.2 =
  ProfileLowerBarChart st.2 ++
  ((λ tracing, {| sd_id := tr_id tracing; sd_score := tr_score tracing |})
     <$> tracings).
Proof.
  revert st. induction tracings as [|t tracings IH]; intros st.
  - intros [= <-] _ _. by rewrite app_nil_r.
  - cbn [forEachM]. rewrite fmap_cons, NoDup_cons.
    destruct (walkTracing st t) as [st1|] eqn:Ht; cbn [obind]; [|done].
    intros Hrest [Hfresh Hnd] Hkeys.
    assert (tr_id t ∉ JsMap.keys st.2) as Ht_new.
    { apply Hkeys, list_elem_of_here. }
    rewrite (IH _ Hrest Hnd).
    + rewrite walkTracing_unfold in Ht.
      destruct (tr_outputs t) as [[[outputs|]]|]; [|done..].
      destruct (forEachM walkOutput ([], st.1) outputs) as [r|]; [|done].
      injection Ht as <-. cbn [snd].
      rewrite set_absent by done.
      by rewrite ProfileLowerBarChart_app, <-app_assoc.
    + intros k Hk. rewrite (walkTracing_keys _ _ _ Ht).
      unfold JsSet.add. rewrite decide_False by done.
      rewrite not_elem_of_app, list_elem_of_singleton. split.
      * apply Hkeys. by apply list_elem_of_further.
      * intros ->. done.
Qed.

Lemma assignIdsToTracings_ids data :
  tr_id <$> assignIdsToTracings data =
  (λ i, Some (NumId i)) <$> seq 0 (length data).
Proof.
  unfold assignIdsToTracings. apply list_eq. intros i.
  rewrite !list_lookup_fmap, list_lookup_imap.
  destruct (data !! i) as [t|] eqn:Hi; simpl.
  - rewrite (lookup_seq_lt 0 (length data) i); [done|].
    by eapply lookup_lt_Some.
  - rewrite (lookup_seq_ge 0 (length data) i); [done|].
    by apply lookup_ge_None.
Qed.

Lemma assignIdsToTracings_NoDup data :
  NoDup (tr_id <$> assignIdsToTracings data).
Proof.
  rewrite assignIdsToTracings_ids. apply NoDup_fmap_2; [|apply NoDup_seq].
  by intros i j [= ->].
Qed.

Lemma getTools_rows tracings r :
  getTools tracings = Returns r →
  NoDup (tr_id <$> tracings) →
  ProfileLowerBarChart (tracingToolCalls r) =
  (λ tracing, {| sd_id := tr_id tracing; sd_score := tr_score tracing |})
    <$> tracings.
Proof.
  unfold getTools.
  destruct (forEachM walkTracing ([], []) tracings) as [st|] eqn:Hw; [|done].
  intros [= <-] Hnd. cbn [tracingToolCalls].
  rewrite (walkTracings_rows _ _ _ Hw Hnd); [done|].
  intros k _. apply not_elem_of_nil.
Qed.

(** X5. On the renumbered input of a render the score rail gets one row for
    every input trace, in input order, with the position of the trace as
    its id and the score of the trace. *)
Theorem ProfileLowerBarChart_rows data r :
  getTools (assignIdsToTracings data) = Returns r →
  ProfileLowerBarChart (tracingToolCalls r) =
  imap (λ index tracing,
          {| sd_id := Some (NumId index); sd_score := tr_score tracing |})
    data.
Proof.
  intros Hr.
  rewrite (getTools_rows _ _ Hr (assignIdsToTracings_NoDup data)).
  unfold assignIdsToTracings. by rewrite fmap_imap.
Qed.

Lemma ProfileLowerBarChart_rows_witness :
  ∃ r,
    getTools (assignIdsToTracings
                [traceOf []; withOutputs (traceOf []) [resultEvent "x"]]) =
      Returns r ∧
    ProfileLowerBarChart (tracingToolCalls r) =
      [{| sd_id := Some (NumId 0); sd_score := Some 1%Q |};
       {| sd_id := Some (NumId 1); sd_score := Some 1%Q |}].
Proof.
  eexists. split; [reflexivity|].
  apply (ProfileLowerBarChart_rows
           [traceOf []; withOutputs (traceOf []) [resultEvent "x"]]).
  reflexivity.
Defined.

(** ** [renderUpsetPlot]: when it draws *)

Lemma forEachM_returns {A S} (f : S → A → outcome S) s l s' :
  forEachM f s l = Returns s' →
  Forall (λ x, ∃ s1 s2, f s1 x = Returns s2) l.
Proof.
  revert s. induction l as [|x l IH]; intros s; [constructor|].
  cbn [forEachM]. destruct (f s x) as [s1|] eqn:Hx; cbn [obind]; [|done].
  intros Hrest. constructor; [by exists s, s1|by eapply IH].
Qed.

Lemma walkTracing_walkable st tracing st' :
  walkTracing st tracing = Returns st' → walkable tracing.
Proof.
  intros Ht. pose proof (walkTracing_outputs _ _ _ Ht) as Ho.
  split; [by eexists|].
  rewrite walkTracing_unfold, Ho in Ht.
  destruct (forEachM walkOutput ([], st.1) (traceOutputs tracing))
    as [r|] eqn:Hw; [|done].
  eapply Forall_impl; [exact (forEachM_returns _ _ _ _ Hw)|].
  intros o (s1 & s2 & Hstep) Hnull. unfold walkOutput in Hstep.
  by rewrite Hnull in Hstep.
Qed.

Lemma getTools_returns_walkable tracings r :
  getTools tracings = Returns r → Forall walkable tracings.
Proof.
  unfold getTools.
  destruct (forEachM walkTracing ([], []) tracings) as [st|] eqn:Hw; [|done].
  intros _. eapply Forall_impl; [exact (forEachM_returns _ _ _ _ Hw)|].
  intros t (s1 & s2 & Hstep). by eapply walkTracing_walkable.
Qed.

Lemma assignIdsToTracings_walkable data :
  Forall walkable (assignIdsToTracings data) ↔ Forall walkable data.
Proof.
  unfold assignIdsToTracings. rewrite !Forall_lookup. split.
  - intros Hall i t Hi.
    specialize (Hall i _ (eq_trans (list_lookup_imap _ _ _)
                            (f_equal _ Hi))).
    exact Hall.
  - intros Hall i t. rewrite list_lookup_imap.
    destruct (data !! i) as [t0|] eqn:Hi; [|done].
    intros [= <-]. exact (Hall i t0 Hi).
Qed.

(** X6. Given a mount point and a list of traces, [renderUpsetPlot] returns
    exactly when every trace has [outputs.messages] and no output with a
    null [tool_calls]; one trace that fails this makes the whole render
    raise. *)
Theorem renderUpsetPlot_returns_iff random cursor container data toolSets
    options :
  (∃ r, renderUpsetPlot random cursor (Some container) (Some data) toolSets
          options = Returns r) ↔
  Forall walkable data.
Proof.
  rewrite <-assignIdsToTracings_walkable.
  cbv beta iota zeta delta [renderUpsetPlot]. split.
  - intros [r Hr].
    destruct (getTools (assignIdsToTracings data)) as [e|] eqn:He; [|done].
    by eapply getTools_returns_walkable.
  - intros Hall. destruct (getTools_returns _ Hall) as [e ->].
    cbn [obind]. destruct data; by eexists.
Qed.

(** ** Outputs of an unknown type *)

(** X7. An output that has neither [tool_calls] nor [tool_call_id] is
    passed over: each of the three extractions gives the result it gives
    on the trace without that output. *)
Theorem unknown_output_skipped tracing pre output post before after :
  tr_outputs tracing = Some {| messages := Some (pre ++ output :: post) |} →
  unknownOutput output →
  let tracing' := withOutputs tracing (pre ++ post) in
  getTools (before ++ tracing :: after) =
    getTools (before ++ tracing' :: after) ∧
  extractToolCallOrder tracing = extractToolCallOrder tracing' ∧
  extractToolCallFlow tracing = extractToolCallFlow tracing'.
Proof.
  intros Ho [Hcalls Hid] tracing'. split_and!.
  - unfold getTools. f_equal. rewrite !forEachM_app.
    destruct (forEachM walkTracing ([], []) before) as [st|]; [|done].
    simpl. f_equal. rewrite !walkTracing_unfold. subst tracing'. simpl.
    rewrite Ho, !forEachM_app.
    destruct (forEachM walkOutput ([], st.1) pre) as [st1|]; [|done].
    cbn [obind forEachM]. unfold walkOutput at 1.
    by rewrite Hcalls, Hid.
  - rewrite !extractToolCallOrder_char. subst tracing'.
    by rewrite (traceCalls_without _ _ _ _ Ho Hcalls).
  - rewrite (extractToolCallFlow_char _ _ Ho).
    rewrite (extractToolCallFlow_char tracing' (pre ++ post)) by done.
    unfold callSequenceOf. subst tracing'.
    by rewrite (traceCalls_without _ _ _ _ Ho Hcalls).
Qed.

Lemma unknown_output_skipped_witness :
  let note :=
    {| o_tool_calls := None; o_tool_call_id := None;
       o_status := None; o_content := Some "thinking" |} in
  let tracing :=
    traceOf [callEvent [request "c1" "search"]; note; resultEvent "c1"] in
  let tracing' :=
    withOutputs tracing [callEvent [request "c1" "search"]; resultEvent "c1"]
  in
  getTools [tracing] = getTools [tracing'] ∧
  extractToolCallOrder tracing = extractToolCallOrder tracing' ∧
  extractToolCallFlow tracing = extractToolCallFlow tracing'.
Proof.
  intros note tracing tracing'.
  apply (unknown_output_skipped tracing
           [callEvent [request "c1" "search"]] note [resultEvent "c1"] [] []).
  - reflexivity.
  - by split.
Defined.

(** ** [createGlyphSystem]: the accessors *)

Lemma assignGlyphs_palette names st :
  (∀ k v, JsMap.get k st.1 = Some v → v ∈ availableGlyphs) →
  ∀ k v, JsMap.get k (foldl assignGlyph st names).1 = Some v →
    v ∈ availableGlyphs.
Proof.
  revert st. induction names as [|g names IH]; intros st Hst; [done|].
  cbn [foldl]. apply IH. unfold assignGlyph. cbn [fst snd]. intros k v.
  destruct (decide (g = k)) as [->|Hne].
  - rewrite get_set_eq. intros [= <-].
    eapply list_elem_of_lookup_2, palette_lookup.
  - rewrite get_set_ne by done. apply Hst.
Qed.

Lemma groupToGlyph_palette toolSets k v :
  JsMap.get k (groupToGlyph (createGlyphSystem toolSets)) = Some v →
  v ∈ availableGlyphs.
Proof.
  apply (assignGlyphs_palette _ ([], 0)). intros ?? Hg. done.
Qed.

Lemma orElse_circle_palette (o : option string) :
  (∀ v, o = Some v → v ∈ availableGlyphs) →
  orElse o "circle" ∈ availableGlyphs.
Proof.
  intros Ho. unfold orElse. destruct o as [v|]; [|apply list_elem_of_here].
  destruct (truthy v); [by apply Ho|apply list_elem_of_here].
Qed.

(** X8. Whatever the taxonomy and the name asked for, [getGlyph] and
    [getGroupGlyph] answer with one of the nine palette shapes. *)
Theorem glyphs_in_palette toolSets name :
  getGlyph (createGlyphSystem toolSets) name ∈ availableGlyphs ∧
  getGroupGlyph (createGlyphSystem toolSets) name ∈ availableGlyphs.
Proof.
  split.
  - unfold getGlyph.
    destruct (JsMap.get name _) as [group|]; [|apply list_elem_of_here].
    destruct (truthy group); [|apply list_elem_of_here].
    apply orElse_circle_palette. intros v. apply groupToGlyph_palette.
  - unfold getGroupGlyph. apply orElse_circle_palette. intros v.
    apply groupToGlyph_palette.
Qed.

(** *** A tool listed by several groups *)

Lemma registerTools_get (tools : list string) (group : string)
    (m : list (string * string)) tool :
  JsMap.get tool (foldl (λ m toolName, JsMap.set toolName group m) m tools) =
  if decide (tool ∈ tools) then Some group else JsMap.get tool m.
Proof.
  revert m. induction tools as [|t tools IH]; intros m; simpl; [done|].
  rewrite IH. destruct (decide (tool ∈ tools)) as [Hin|Hnin].
  - rewrite decide_True; [done|]. by apply list_elem_of_further.
  - destruct (decide (t = tool)) as [->|Hne].
    + rewrite get_set_eq, decide_True; [done|]. apply list_elem_of_here.
    + rewrite get_set_ne by done. rewrite decide_False; [done|].
      rewrite elem_of_cons. intros [?|?]; congruence.
Qed.

Lemma registerGroups_get toolSets names m tool :
  (∀ group tools, group ∈ names → JsMap.get group toolSets = Some tools →
     tool ∉ tools) →
  JsMap.get tool (foldl (registerGroup toolSets) m names) = JsMap.get tool m.
Proof.
  revert m. induction names as [|g names IH]; intros m Hnames; [done|].
  simpl. rewrite IH.
  - unfold registerGroup. rewrite registerTools_get.
    destruct (JsMap.get g toolSets) as [tools|] eqn:Hg; simpl.
    + rewrite decide_False; [done|].
      eapply Hnames; [apply list_elem_of_here|done].
    + done.
  - intros group tools Hin. apply Hnames. by apply list_elem_of_further.
Qed.

(** X9. A tool that several groups list belongs to the one of them whose
    name comes last in sorted order: its group and its glyph are those of
    that group. *)
Theorem getGroup_last_sorted toolSets pre group post tools tool :
  groupNamesOf toolSets = pre ++ group :: post →
  JsMap.get group toolSets = Some tools →
  tool ∈ tools →
  (∀ later tools', later ∈ post → JsMap.get later toolSets = Some tools' →
     tool ∉ tools') →
  group ≠ "" →
  getGroup (createGlyphSystem toolSets) tool = group ∧
  getGlyph (createGlyphSystem toolSets) tool =
    getGroupGlyph (createGlyphSystem toolSets) group.
Proof.
  intros Hnames Hgroup Htool Hpost Hne.
  assert (JsMap.get tool (toolToGroup (createGlyphSystem toolSets)) =
          Some group) as Hget.
  { unfold createGlyphSystem. cbn [toolToGroup]. rewrite Hnames.
    rewrite foldl_app. cbn [foldl].
    rewrite (registerGroups_get _ _ _ _ Hpost).
    unfold registerGroup at 1. rewrite Hgroup. cbn [default].
    rewrite registerTools_get. by rewrite decide_True. }
  assert (truthy group = true) as Htruthy by by destruct group.
  unfold getGroup, getGlyph, getGroupGlyph. rewrite Hget.
  cbn [orElse]. by rewrite Htruthy.
Qed.

(** In the second taxonomy the group names are "｡" (U+FF61, the one code
    unit FF61, three bytes) and "😀" (U+1F600, code units D83D DE00, four
    bytes): the sorted order is "😀" before "｡", and a tool of both groups
    belongs to "｡". *)
Lemma getGroup_last_sorted_witness :
  let toolSets :=
    [("search_tools", ["web"; "grep"]); ("data_tools", ["sql"; "grep"])] in
  let wide := [("｡", ["web"; "grep"]); ("😀", ["sql"; "grep"])] in
  (getGroup (createGlyphSystem toolSets) "grep" = "search_tools" ∧
   getGlyph (createGlyphSystem toolSets) "grep" =
     getGroupGlyph (createGlyphSystem toolSets) "search_tools") ∧
  String.length "｡" = 3 ∧ String.length "😀" = 4 ∧
  groupNamesOf wide = ["😀"; "｡"] ∧
  getGroup (createGlyphSystem wide) "grep" = "｡".
Proof.
  intros toolSets wide.
  split; [|split; [reflexivity|split; [reflexivity|split; [reflexivity|]]]].
  - apply (getGroup_last_sorted toolSets ["data_tools"] "search_tools" []
             ["web"; "grep"] "grep").
    + reflexivity.
    + reflexivity.
    + by apply (bool_decide_unpack _).
    + intros later tools' Hin. by apply elem_of_nil in Hin.
    + done.
  - apply (getGroup_last_sorted wide ["😀"] "｡" [] ["web"; "grep"] "grep").
    + reflexivity.
    + reflexivity.
    + by apply (bool_decide_unpack _).
    + intros later tools' Hin. by apply elem_of_nil in Hin.
    + done.
Defined.

(** *** The groups and the palette *)

(** X10. [getAllGroups] lists the groups of the taxonomy once each in
    the order of [Array.prototype.sort] (ascending by UTF-16 code units),
    and two groups whose ranks in that order differ by a multiple of nine
    get the same glyph. *)
Theorem getAllGroups_sorted_wrap toolSets :
  NoDup (JsMap.keys toolSets) →
  let gs := createGlyphSystem toolSets in
  getAllGroups gs = sortStrings (JsMap.keys toolSets) ∧
  Sorted codeUnit_le (getAllGroups gs) ∧
  getAllGroups gs ≡ₚ JsMap.keys toolSets ∧
  ∀ i j a b, getAllGroups gs !! i = Some a → getAllGroups gs !! j = Some b →
    i mod 9 = j mod 9 →
    getGroupGlyph gs a = getGroupGlyph gs b.
Proof.
  intros Hnd gs.
  assert (NoDup (groupNamesOf toolSets)) as Hnd'.
  { unfold groupNamesOf, sortStrings. by rewrite merge_sort_Permutation. }
  destruct (assignGlyphs_rank (groupNamesOf toolSets) Hnd')
    as (_ & Hkeys & Hrank).
  assert (getAllGroups gs = groupNamesOf toolSets) as Hall by exact Hkeys.
  split; [exact Hall|]. rewrite Hall.
  split; [apply groupNamesOf_Sorted|].
  split; [apply groupNamesOf_Permutation|]. intros i j a b Hi Hj Hmod.
  unfold getGroupGlyph, gs, createGlyphSystem. cbn [groupToGlyph].
  rewrite (Hrank _ _ Hi), (Hrank _ _ Hj). cbn [length availableGlyphs].
  by rewrite Hmod.
Qed.

Lemma getAllGroups_sorted_wrap_witness :
  let toolSets : ToolSets :=
    (λ group, (group, [])) <$>
      ["j"; "a"; "b"; "c"; "d"; "e"; "f"; "g"; "h"; "i"] in
  let gs := createGlyphSystem toolSets in
  getAllGroups gs = ["a"; "b"; "c"; "d"; "e"; "f"; "g"; "h"; "i"; "j"] ∧
  getGroupGlyph gs "a" = getGroupGlyph gs "j" ∧
  getAllGroups (createGlyphSystem [("｡", []); ("😀", []); ("z", [])]) =
    ["z"; "😀"; "｡"].
Proof.
  intros toolSets gs.
  destruct (getAllGroups_sorted_wrap toolSets) as (Hall & _ & _ & Hwrap).
  { by apply (bool_decide_unpack _). }
  split; [exact Hall|].
  split; [apply (Hwrap 0 9); reflexivity|].
  destruct (getAllGroups_sorted_wrap [("｡", []); ("😀", []); ("z", [])])
    as (Hall' & _).
  { by apply (bool_decide_unpack _). }
  exact Hall'.
Defined.

(** ** [renderGlyph] *)

(** X11. The nine palette shapes are drawn as pairwise different elements:
    two different palette glyph types never give the same drawing, at
    whatever place and size. *)
Theorem renderGlyph_palette_distinct datum a b x y size :
  a ∈ availableGlyphs → b ∈ availableGlyphs → a ≠ b →
  renderGlyph datum a x y size ≠ renderGlyph datum b x y size.
Proof.
  unfold availableGlyphs. intros Ha Hb.
  repeat (apply elem_of_cons in Ha as [->|Ha]);
    [..|by apply elem_of_nil in Ha];
    (repeat (apply elem_of_cons in Hb as [->|Hb]);
       [..|by apply elem_of_nil in Hb]);
    first [by intros Hne|by intros _ [=]].
Qed.

Lemma renderGlyph_palette_distinct_witness :
  renderGlyph None "plus" (Num 0) (Num 0) 5 ≠
  renderGlyph None "times" (Num 0) (Num 0) 5.
Proof.
  apply (renderGlyph_palette_distinct None "plus" "times" (Num 0) (Num 0) 5).
  - by apply (bool_decide_unpack _).
  - by apply (bool_decide_unpack _).
  - discriminate.
Defined.

(** ** [ProfileUpperBarChart]: the range of the bar values *)

Lemma roundHalfEven_bounds m :
  (inject_Z (roundHalfEven m) <= m + (1 # 2))%Q ∧
  (Qfloor m <= roundHalfEven m)%Z.
Proof.
  unfold roundHalfEven.
  pose proof (Qfloor_le m) as Hfl.
  destruct (Qcompare_spec (m - inject_Z (Qfloor m)) (1 # 2)) as [Heq|Hc|Hc].
  - destruct (Z.even (Qfloor m)); (split; [|lia]);
      rewrite ?inject_Z_plus; change (inject_Z 1) with 1%Q; lra.
  - split; [|lia]. lra.
  - split; [|lia]. rewrite inject_Z_plus. change (inject_Z 1) with 1%Q.
    pose proof (Qlt_floor m) as Hlt. rewrite inject_Z_plus in Hlt.
    change (inject_Z 1) with 1%Q in Hlt. lra.
Qed.

(** Below 256 the doubles are at most 2 to the power -45 apart. *)
Lemma ulpExponent_small x :
  (x < 256)%Q → (ulpExponent x <= -45)%Z.
Proof.
  intros Hx. unfold ulpExponent.
  apply Z.max_lub; [|lia].
  assert (Z.log2 (Qfloor (x * inject_Z (2 ^ 1074))) < 1082)%Z; [|lia].
  set (N := Qfloor (x * inject_Z (2 ^ 1074))).
  destruct (Z.le_gt_cases N 0) as [Hle|Hpos].
  - rewrite Z.log2_nonpos by done. lia.
  - apply Z.log2_lt_pow2; [done|].
    rewrite Zlt_Qlt. eapply Qle_lt_trans; [apply Qfloor_le|].
    replace (2 ^ 1082)%Z with (256 * 2 ^ 1074)%Z
      by (vm_compute; reflexivity).
    rewrite inject_Z_mult. apply Qmult_lt_compat_r; [|exact Hx].
    change 0%Q with (inject_Z 0). rewrite <-Zlt_Qlt.
    by apply Z.pow_pos_nonneg.
Qed.

(** The product of a draw and 200 rounds to a double below 200. *)
Lemma roundDouble_bounds x :
  (0 <= x)%Q → (x <= 200 - (25 # 2 ^ 50))%Q →
  (0 <= Qfloor (roundDouble x) < 200)%Z.
Proof.
  intros Hlo Hhi. unfold roundDouble.
  rewrite (proj2 (Qle_bool_iff 0 x) Hlo). unfold roundMagnitude.
  pose proof (ulpExponent_small x) as Hq.
  set (q := ulpExponent x) in *.
  assert (0 < 2 ^ q)%Q as Hpow by by apply Qpower_0_lt.
  destruct (roundHalfEven_bounds (x / 2 ^ q)) as [Hup Hdown].
  set (n := roundHalfEven (x / 2 ^ q)) in *.
  split.
  - change 0%Z with (Qfloor 0). apply Qfloor_resp_le.
    apply Qmult_le_0_compat; [|by apply Qlt_le_weak].
    change 0%Q with (inject_Z 0). rewrite <-Zle_Qle.
    etrans; [|exact Hdown]. change 0%Z with (Qfloor 0).
    apply Qfloor_resp_le. apply Qle_shift_div_l; [done|]. by rewrite Qmult_0_l.
  - rewrite Zlt_Qlt. eapply Qle_lt_trans; [apply Qfloor_le|].
    assert (2 ^ q <= 2 ^ (-45))%Q as Hulp.
    { apply Qpower_le_compat_l; [|discriminate]. apply Hq.
      eapply Qle_lt_trans; [exact Hhi|]. reflexivity. }
    apply Qle_lt_trans with (x + (1 # 2) * 2 ^ q)%Q.
    + apply Qle_trans with ((x / 2 ^ q + (1 # 2)) * 2 ^ q)%Q.
      * apply Qmult_le_compat_r; [exact Hup|by apply Qlt_le_weak].
      * apply Qle_lteq. right. field. by apply Qnot_eq_sym, Qlt_not_eq.
    + apply Qle_lt_trans with (200 - (25 # 2 ^ 50) + (1 # 2) * 2 ^ (-45))%Q.
      * apply Qplus_le_compat; [exact Hhi|].
        apply Qmult_le_l; [reflexivity|exact Hulp].
      * reflexivity.
Qed.

Lemma randomShapley_bounds (r : Q) :
  isDraw r →
  (-1 <= randomShapley r)%Q ∧ (randomShapley r <= 99 # 100)%Q.
Proof.
  intros [Hlo Hhi]. unfold randomShapley.
  assert (0 <= Qfloor (roundDouble (r * 200)) < 200)%Z as [Hf0 Hf1].
  { apply roundDouble_bounds.
    - apply Qmult_le_0_compat; [done|discriminate].
    - apply Qle_trans with ((1 - (1 # 2 ^ 53)) * 200)%Q.
      + apply Qmult_le_compat_r; [exact Hhi|discriminate].
      + apply Qle_lteq. right. reflexivity. }
  generalize dependent (Qfloor (roundDouble (r * 200))). intros f Hf0 Hf1.
  unfold Qdiv, Qle, Qmult, Qinv, inject_Z. simpl. lia.
Qed.

Lemma extent_elem (l : list Q) lo hi :
  extent l = Some (lo, hi) → lo ∈ l ∧ hi ∈ l.
Proof.
  destruct l as [|v l]; [done|]. cbn [extent]. intros [= Hfold].
  assert (∀ mm, mm.1 ∈ v :: l → mm.2 ∈ v :: l →
            ∀ l', l' ⊆ l →
            let r := foldl (λ mm value,
                              (if Qle_bool mm.1 value then mm.1 else value,
                               if Qle_bool value mm.2 then mm.2 else value))
                       mm l' in
            r.1 ∈ v :: l ∧ r.2 ∈ v :: l) as Hinv.
  { intros mm H1 H2 l'. revert mm H1 H2.
    induction l' as [|x l' IH]; intros mm H1 H2 Hsub; [done|].
    cbn [foldl]. apply IH.
    - cbn [fst]. destruct (Qle_bool mm.1 x); [done|].
      apply list_elem_of_further, Hsub, list_elem_of_here.
    - cbn [snd]. destruct (Qle_bool x mm.2); [done|].
      apply list_elem_of_further, Hsub, list_elem_of_here.
    - intros z Hz. apply Hsub. by apply list_elem_of_further. }
  specialize (Hinv (v, v) (list_elem_of_here _ _) (list_elem_of_here _ _)
                l (λ _ H, H)).
  cbn zeta in Hinv. rewrite Hfold in Hinv. exact Hinv.
Qed.

Lemma ProfileUpperBarChart_bounds random cursor tools d :
  (∀ n, isDraw (random n)) →
  d ∈ ProfileUpperBarChart random cursor tools →
  (-1 <= shapleyValue d)%Q ∧ (shapleyValue d <= 99 # 100)%Q.
Proof.
  intros Hdraws Hd. unfold ProfileUpperBarChart in Hd.
  apply list_elem_of_lookup in Hd as [i Hi].
  rewrite list_lookup_imap in Hi.
  destruct (tools !! i); [|done]. injection Hi as <-. cbn [shapleyValue].
  apply randomShapley_bounds; apply Hdraws.
Qed.

(** X12. When [Math.random] returns doubles of the interval from 0 to 1,
    1 excluded, every tool-importance value is a hundredth between -1 and
    0.99, whatever the tools, and the domain the bar scale is given starts
    between -1 and 0 and ends between 0 and 1: it always holds the zero
    line. *)
Theorem renderUpsetPlot_bar_domain random cursor container data toolSets
    options r s :
  (∀ n, isDraw (random n)) →
  renderUpsetPlot random cursor (Some container) (Some data) toolSets options
    = Returns r →
  rr_scales r = Some s →
  (∀ names d, d ∈ ProfileUpperBarChart random cursor names →
     ∃ k : Z, (-100 <= k <= 99)%Z ∧ shapleyValue d = (inject_Z k / 100)%Q) ∧
  (∀ names d, d ∈ ProfileUpperBarChart random cursor names →
     (-1 <= shapleyValue d)%Q ∧ (shapleyValue d <= 99 # 100)%Q) ∧
  (-1 <= (lin_domain (s_yBar s)).1)%Q ∧ ((lin_domain (s_yBar s)).1 <= 0)%Q ∧
  (0 <= (lin_domain (s_yBar s)).2)%Q ∧ ((lin_domain (s_yBar s)).2 <= 1)%Q.
Proof.
  intros Hdraws Hr Hs.
  split.
  { intros names d Hd. unfold ProfileUpperBarChart in Hd.
    apply list_elem_of_lookup in Hd as [i Hi].
    rewrite list_lookup_imap in Hi.
    destruct (names !! i); [|done]. injection Hi as <-. cbn [shapleyValue].
    destruct (Hdraws (cursor + i)) as [Hlo Hhi].
    destruct (roundDouble_bounds (random (cursor + i) * 200)) as [Hf0 Hf1].
    - apply Qmult_le_0_compat; [done|discriminate].
    - apply Qle_trans with ((1 - (1 # 2 ^ 53)) * 200)%Q.
      + apply Qmult_le_compat_r; [exact Hhi|discriminate].
      + apply Qle_lteq. right. reflexivity.
    - eexists. split; [|reflexivity]. lia. }
  split.
  { intros names d Hd. by eapply ProfileUpperBarChart_bounds. }
  revert Hr Hs. cbv beta iota zeta delta [renderUpsetPlot drawUpsetPlot].
  destruct (getTools (assignIdsToTracings data)) as [e|]; [|done].
  cbn [obind]. destruct data as [|t data]; [by intros [= <-]|].
  intros [= <-] [= <-]. cbn [rr_scales s_yBar lin_domain fst snd].
  set (bars := ProfileUpperBarChart random cursor (tools e)).
  assert (∀ v, v ∈ map shapleyValue bars →
            (-1 <= v)%Q ∧ (v <= 99 # 100)%Q) as Hvalues.
  { intros v Hv. apply list_elem_of_fmap in Hv as (d & -> & Hd).
    by eapply ProfileUpperBarChart_bounds. }
  destruct (extent (map shapleyValue bars)) as [[lo hi]|] eqn:Hextent.
  - apply extent_elem in Hextent as [Hlo Hhi].
    apply Hvalues in Hlo as [Hlo1 Hlo2]. apply Hvalues in Hhi as [Hhi1 Hhi2].
    cbn [fmap option_fmap option_map default fst snd].
    unfold qmin, qmax, id.
    destruct (Qle_bool lo 0) eqn:Hl; destruct (Qle_bool hi 0) eqn:Hh.
    + apply Qle_bool_iff in Hl. split_and!; [done|done|apply Qle_refl|done].
    + apply Qle_bool_iff in Hl.
      assert (0 <= hi)%Q.
      { apply Qlt_le_weak, Qnot_le_lt. rewrite <-Qle_bool_iff. congruence. }
      split_and!; [done|done|done|].
      eapply Qle_trans; [exact Hhi2|done].
    + split_and!; [done|apply Qle_refl|apply Qle_refl|done].
    + assert (0 <= hi)%Q.
      { apply Qlt_le_weak, Qnot_le_lt. rewrite <-Qle_bool_iff. congruence. }
      split_and!; [done|apply Qle_refl|done|].
      eapply Qle_trans; [exact Hhi2|done].
  - vm_compute. split_and!; discriminate.
Qed.

(** The draws here are the double nearest to 0.015 and then the largest
    double below 1. The first lies below 0.015, yet its product with 200
    rounds to the double 3: the first bar has the value -0.97. The second
    bar has the value 0.99. *)
Lemma renderUpsetPlot_bar_domain_witness :
  let random : RandomSource :=
    λ n, match n with 0 => double_0_015 | S _ => (1 - (1 # 2 ^ 53))%Q end in
  (double_0_015 < 15 # 1000)%Q ∧
  (shapleyValue <$> ProfileUpperBarChart random 0 ["search"; "fetch"]) =
    [(inject_Z (-97) / 100)%Q; (inject_Z 99 / 100)%Q] ∧
  ∃ r s,
    renderUpsetPlot random 0 (Some emptyMount)
      (Some [traceOf [callEvent [request "c1" "search";
                                 request "c2" "fetch"]]]) [] defaultOptions
      = Returns r ∧
    rr_scales r = Some s ∧
    (-1 <= (lin_domain (s_yBar s)).1)%Q ∧
    ((lin_domain (s_yBar s)).1 <= 0)%Q ∧
    (0 <= (lin_domain (s_yBar s)).2)%Q ∧ ((lin_domain (s_yBar s)).2 <= 1)%Q.
Proof.
  intros random. split; [reflexivity|]. split; [by vm_compute|].
  eexists _, _. split; [reflexivity|]. split; [reflexivity|].
  eapply (renderUpsetPlot_bar_domain random 0 emptyMount
            [traceOf [callEvent [request "c1" "search";
                                 request "c2" "fetch"]]] [] defaultOptions).
  - intros [|n]; split; reflexivity || discriminate.
  - reflexivity.
  - reflexivity.
Defined.

(** ** [renderUpsetPlot]: the size of the drawing *)

(** X13. Without a [height] option the rows of the matrix share a band
    whose length is the larger of 20 per trace and 100, whatever the
    margins: the band starts 200 below the top of the drawing area, and the
    columns take three quarters of the inner width, the score rail the
    rest. *)
Theorem renderUpsetPlot_layout random cursor container data toolSets options
    r :
  opt_height options = None →
  data ≠ [] →
  renderUpsetPlot random cursor (Some container) (Some data) toolSets options
    = Returns r →
  ∃ s, rr_scales r = Some s ∧
    let rows := band_range (s_traceScale s) in
    let columns := band_range (s_x s) in
    let rail := lin_range (s_scoreX s) in
    let innerWidth :=
      (default 640 (opt_width options) - left (marginOf options)
       - right (marginOf options))%Q in
    rows.1 = 200%Q ∧
    (rows.2 - rows.1 ==
       inject_Z (Z.max (Z.of_nat (length data) * 20) 100))%Q ∧
    (inject_Z (Z.of_nat (length data) * 20) <= rows.2 - rows.1)%Q ∧
    (100 <= rows.2 - rows.1)%Q ∧
    columns.1 = 0%Q ∧ rail.1 = 0%Q ∧
    (columns.2 == innerWidth * (3 # 4))%Q ∧
    (columns.2 + rail.2 == innerWidth)%Q.
Proof.
  intros Hheight Hdata. cbv beta iota zeta delta [renderUpsetPlot drawUpsetPlot].
  rewrite Hheight, assignIdsToTracings_length. cbn [default].
  set (H := inject_Z (Z.max (Z.of_nat (length data) * 20) 100)).
  destruct (getTools (assignIdsToTracings data)) as [e|]; [|done].
  cbn [obind]. destruct data as [|t data]; [done|].
  intros [= <-]. eexists. split; [reflexivity|].
  cbn [s_traceScale s_x s_scoreX band_range lin_range fst snd].
  assert (200 + (top (marginOf options) + 200 + H + bottom (marginOf options)
                 - top (marginOf options) - bottom (marginOf options) - 200)
          - 200 == H)%Q as Hrows by ring.
  split_and!.
  - done.
  - exact Hrows.
  - rewrite Hrows. unfold H. rewrite <-Zle_Qle. apply Z.le_max_l.
  - rewrite Hrows. unfold H. change 100%Q with (inject_Z 100).
    rewrite <-Zle_Qle. apply Z.le_max_r.
  - done.
  - done.
  - reflexivity.
  - ring.
Qed.

Lemma renderUpsetPlot_layout_witness :
  ∃ r s,
    renderUpsetPlot sampleDraws 0 (Some emptyMount)
      (Some [traceOf []; traceOf []]) [] defaultOptions = Returns r ∧
    rr_scales r = Some s ∧
    band_range (s_traceScale s) = (200%Q, (200 + (420 - 80 - 40 - 200))%Q).
Proof.
  destruct (renderUpsetPlot_layout sampleDraws 0 emptyMount
              [traceOf []; traceOf []] [] defaultOptions _
              eq_refl ltac:(discriminate) eq_refl) as (s & Hs & _).
  eexists _, s. split; [reflexivity|]. split; [exact Hs|].
  by injection Hs as <-.
Defined.

(** ** The two graphs of one trace *)

Lemma indicator_sum {A} `{EqDecision A} (s : list A) y :
  NoDup s → y ∈ s →
  sum_list ((λ x, if decide (y = x) then 1 else 0) <$> s) = 1.
Proof.
  induction s as [|x s IH]; [intros _ Hy; by apply elem_of_nil in Hy|].
  rewrite NoDup_cons, elem_of_cons. intros [Hx Hnd] Hy. cbn.
  destruct (decide (y = x)) as [->|Hne].
  - f_equal. clear IH Hy. induction s as [|z s IH]; [done|].
    apply not_elem_of_cons in Hx as [Hz Hx]. apply NoDup_cons in Hnd as [_ ?].
    cbn. rewrite decide_False by done. by apply IH.
  - destruct Hy as [?|Hy]; [done|]. by apply IH.
Qed.

Lemma count_sum {A} `{EqDecision A} (s l : list A) :
  NoDup s → (∀ x, x ∈ l → x ∈ s) →
  sum_list ((λ x, length (filter (λ y, y = x) l)) <$> s) = length l.
Proof.
  intros Hnd. induction l as [|y l IH]; intros Hsub.
  - clear. induction s as [|x s IHs]; [done|].
    rewrite fmap_cons. cbn. exact IHs.
  - transitivity
      (sum_list ((λ x, if decide (y = x) then 1 else 0) <$> s) +
       sum_list ((λ x, length (filter (λ y, y = x) l)) <$> s)).
    + clear. induction s as [|x s IHs]; [done|].
      cbn [fmap list_fmap sum_list sum_list_with]. rewrite IHs.
      rewrite filter_cons. destruct (decide (y = x)); simpl; lia.
    + rewrite indicator_sum by (done || apply Hsub, list_elem_of_here).
      rewrite IH; [done|]. intros x Hx. by apply Hsub, list_elem_of_further.
Qed.

Lemma imap_ignore {A B} (f : nat → A → B) (g : A → B) (l : list A) :
  (∀ i x, f i x = g x) → imap f l = g <$> l.
Proof.
  intros Hfg. revert f Hfg. induction l as [|x l IH]; intros f Hfg; [done|].
  cbn. rewrite Hfg. f_equal. apply IH. intros i y. apply Hfg.
Qed.

Lemma flow_counts_sum callSequence :
  sum_list (fn_count <$> fg_nodes (flowOf callSequence)) =
  length callSequence.
Proof.
  cbn [flowOf fg_nodes]. rewrite fmap_imap.
  rewrite (imap_ignore _
             (λ name, length (filter (λ n, n = name) callSequence))) by done.
  apply count_sum.
  - apply NoDup_ofList.
  - intros x. by rewrite elem_of_ofList.
Qed.

Lemma order_names tracing :
  on_name <$> og_nodes (extractToolCallOrder tracing) =
  callSequenceOf tracing.
Proof.
  rewrite extractToolCallOrder_char. cbn [og_nodes].
  rewrite fmap_imap. unfold callSequenceOf. by apply imap_ignore.
Qed.

(** X14. The two graphs of a trace describe the same calls: the call
    sequence of the flow graph lists the names of the nodes of the order
    graph in order, and the occurrence counts of the flow nodes add up to
    the number of order nodes. *)
Theorem graphs_agree tracing outputs :
  tr_outputs tracing = Some {| messages := Some outputs |} →
  let order := extractToolCallOrder tracing in
  let flow := extractToolCallFlow tracing in
  fg_callSequence flow = Some (on_name <$> og_nodes order) ∧
  sum_list (fn_count <$> fg_nodes flow) = length (og_nodes order).
Proof.
  intros Ho order flow. subst order flow.
  rewrite (extractToolCallFlow_char _ _ Ho), flow_counts_sum.
  rewrite <-(order_names tracing). split; [done|]. by rewrite length_fmap.
Qed.

Lemma graphs_agree_witness :
  let tracing :=
    traceOf [callEvent [request "1" "A"; request "2" "B"];
             resultEvent "1"; callEvent [request "3" "A"]] in
  fg_callSequence (extractToolCallFlow tracing) =
    Some (on_name <$> og_nodes (extractToolCallOrder tracing)) ∧
  sum_list (fn_count <$> fg_nodes (extractToolCallFlow tracing)) =
    length (og_nodes (extractToolCallOrder tracing)).
Proof.
  intros tracing. by apply (graphs_agree tracing _ eq_refl).
Defined.

(** *** Links join nodes *)

Lemma idLinks_elem ids l :
  l ∈ idLinks ids → ol_source l ∈ ids ∧ ol_target l ∈ ids.
Proof.
  unfold idLinks. intros Hl. apply list_elem_of_omap in Hl as (i & _ & Hi).
  destruct (ids !! i) as [a|] eqn:Ha; [|done].
  destruct (ids !! S i) as [b|] eqn:Hb; [|done].
  injection Hi as <-. cbn. split; by eapply list_elem_of_lookup_2.
Qed.

Lemma flow_link_elem callSequence e :
  e ∈ fg_links (flowOf callSequence) →
  fl_source e ∈ callSequence ∧ fl_target e ∈ callSequence ∧
  1 ≤ fl_weight e.
Proof.
  destruct (flow_links_by_key callSequence) as (Hlinks & Horder & Hlink).
  rewrite Hlinks. intros He.
  apply list_elem_of_fmap in He as ([k e'] & -> & Hin).
  apply elem_of_get in Hin; [|apply Horder].
  destruct (Hlink _ _ Hin) as (Hweight & t & Hhead & Hs & Ht & _).
  cbn [snd]. rewrite Hs, Ht, Hweight.
  destruct (filter _ (transitions callSequence)) as [|t' ts] eqn:Hf; [done|].
  injection Hhead as ->.
  assert (t ∈ transitions callSequence) as Hin_t.
  { eapply (list_elem_of_filter (λ t0, transitionKey t0 = k)).
    rewrite Hf. apply list_elem_of_here. }
  destruct (transitions_elem _ _ Hin_t). split_and!; [done|done|simpl; lia].
Qed.

(** X15. Every link of either graph joins two nodes of that graph, so the
    force layout finds both ends of every link by node id; and every flow
    link has weight at least 1. *)
Theorem links_join_nodes tracing :
  let order := extractToolCallOrder tracing in
  let flow := extractToolCallFlow tracing in
  (∀ l, l ∈ og_links order →
     ol_source l ∈ on_id <$> og_nodes order ∧
     ol_target l ∈ on_id <$> og_nodes order) ∧
  (∀ e, e ∈ fg_links flow →
     fl_source e ∈ fn_id <$> fg_nodes flow ∧
     fl_target e ∈ fn_id <$> fg_nodes flow ∧
     1 ≤ fl_weight e).
Proof.
  intros order flow. subst order flow. split.
  - rewrite extractToolCallOrder_char. cbn [og_links og_nodes].
    rewrite fmap_imap, (imap_ignore _ tc_id) by done.
    intros l. apply idLinks_elem.
  - destruct (tr_outputs tracing) as [[[outputs|]]|] eqn:Ho.
    + rewrite (extractToolCallFlow_char _ _ Ho). intros e He.
      assert (fn_id <$> fg_nodes (flowOf (callSequenceOf tracing)) =
              JsSet.ofList (callSequenceOf tracing)) as ->.
      { cbn [flowOf fg_nodes]. rewrite fmap_imap.
        rewrite (imap_ignore _ id) by done. apply list_fmap_id. }
      rewrite !elem_of_ofList. by apply flow_link_elem.
    + rewrite extractToolCallFlow_missing by auto.
      intros e He. by apply elem_of_nil in He.
    + rewrite extractToolCallFlow_missing by auto.
      intros e He. by apply elem_of_nil in He.
Qed.

(** *** Graphs without nodes *)

Lemma firstBy_nil {A K} `{EqDecision K} (key : A → K) (l : list A) :
  firstBy key l = [] ↔ l = [].
Proof.
  split; [|by intros ->].
  destruct l as [|x l]; [done|]. intros Hnil.
  assert (key <$> firstBy key (x :: l) = []) as Hkeys by by rewrite Hnil.
  rewrite firstBy_keys in Hkeys.
  assert (key x ∈ JsSet.ofList (key <$> x :: l)) as Hin.
  { apply elem_of_ofList, list_elem_of_here. }
  rewrite Hkeys in Hin. by apply elem_of_nil in Hin.
Qed.


(** *** Flow links between plain names *)

(** X17. When no tool name of the trace holds the character [>], the flow
    graph has one link for every distinct pair of consecutive names of the
    call sequence, in the order in which the pairs first occur, and the
    weight of a link is the number of times its pair occurs. *)
Theorem extractToolCallFlow_links_plain tracing outputs :
  tr_outputs tracing = Some {| messages := Some outputs |} →
  Forall (λ c, hasGt (tc_name c) = false) (traceCalls tracing) →
  let links := fg_links (extractToolCallFlow tracing) in
  let pairs := snd <$> transitions (callSequenceOf tracing) in
  first_seen_order ((λ e, (fl_source e, fl_target e)) <$> links) pairs ∧
  ∀ e, e ∈ links →
    fl_weight e =
    length (filter (λ p, p = (fl_source e, fl_target e)) pairs).
Proof.
  intros Ho Hplain. rewrite (extractToolCallFlow_char _ _ Ho).
  apply flow_links_by_pair_plain.
  unfold callSequenceOf. rewrite Forall_fmap.
  rewrite Forall_forall in Hplain. apply Forall_forall. intros c Hc.
  apply Hplain. apply firstBy_firstCall in Hc.
  unfold firstCall, callsWithId in Hc.
  apply head_Some_elem_of in Hc.
  by apply list_elem_of_filter in Hc as [_ ?].
Qed.

Lemma extractToolCallFlow_links_plain_witness :
  let tracing :=
    traceOf [callEvent [request "1" "A"; request "2" "B"];
             callEvent [request "3" "A"; request "4" "B"]] in
  let links := fg_links (extractToolCallFlow tracing) in
  (λ e, (fl_source e, fl_target e, fl_weight e)) <$> links =
    [("A", "B", 2); ("B", "A", 1)] ∧
  first_seen_order ((λ e, (fl_source e, fl_target e)) <$> links)
    (snd <$> transitions (callSequenceOf tracing)).
Proof.
  intros tracing links. split; [reflexivity|].
  apply (extractToolCallFlow_links_plain tracing _ eq_refl).
  by apply (bool_decide_unpack _).
Defined.

(** ** [renderToolCallFlow]: the styling of the links *)

Lemma max_list_le (l : list nat) x : x ∈ l → x ≤ max_list l.
Proof.
  induction l as [|y l IH]; [intros Hx; by apply elem_of_nil in Hx|].
  rewrite elem_of_cons. cbn. intros [->|Hx]; [lia|].
  specialize (IH Hx). lia.
Qed.

Lemma max_list_attained (l : list nat) : l ≠ [] → max_list l ∈ l.
Proof.
  induction l as [|y l IH]; [done|]. intros _. cbn.
  destruct l as [|z l].
  - cbn. rewrite Nat.max_0_r. apply list_elem_of_here.
  - destruct (Nat.max_spec y (max_list (z :: l))) as [[_ ->]|[_ ->]].
    + apply list_elem_of_further, IH. done.
    + apply list_elem_of_here.
Qed.

Lemma maxWeight_le links d :
  d ∈ links → 1 ≤ fl_weight d → fl_weight d ≤ maxWeight links.
Proof.
  intros Hd Hw. unfold maxWeight.
  assert (fl_weight d ≤ max_list (fl_weight <$> links)) as Hle.
  { apply max_list_le, list_elem_of_fmap. by exists d. }
  destruct (max_list (fl_weight <$> links)); lia.
Qed.

Lemma ratio_bounds (w m : nat) :
  1 ≤ w → w ≤ m →
  (0 < inject_Z (Z.of_nat w) / inject_Z (Z.of_nat m))%Q ∧
  (inject_Z (Z.of_nat w) / inject_Z (Z.of_nat m) <= 1)%Q.
Proof.
  intros Hw Hm.
  assert (0 < inject_Z (Z.of_nat m))%Q as Hpos.
  { change 0%Q with (inject_Z 0). rewrite <-Zlt_Qlt. lia. }
  split.
  - apply Qlt_shift_div_l; [done|]. rewrite Qmult_0_l.
    change 0%Q with (inject_Z 0). rewrite <-Zlt_Qlt. lia.
  - apply Qle_shift_div_r; [done|]. rewrite Qmult_1_l.
    rewrite <-Zle_Qle. lia.
Qed.

Lemma scaled_bounds (s a b : Q) :
  (0 < s)%Q → (s <= 1)%Q → (0 < b)%Q →
  (a < a + s * b)%Q ∧ (a + s * b <= a + b)%Q.
Proof.
  intros Hs0 Hs1 Hb. split.
  - rewrite <-(Qplus_0_r a) at 1. apply Qplus_lt_r.
    rewrite <-(Qmult_0_l b). by apply Qmult_lt_compat_r.
  - apply Qplus_le_r. rewrite <-(Qmult_1_l b) at 2.
    apply Qmult_le_compat_r; [done|]. by apply Qlt_le_weak.
Qed.

(** X18. In the flow view every link is drawn from the weights of the
    extracted graph: its strength lies in (0, 1], its distance in
    (80, 120], its stroke width in (2, 8] and its stroke opacity in
    (0.4, 0.8], and some heaviest link is drawn at the upper bounds. *)
Theorem renderToolCallFlow_link_styling tracing :
  let links := fg_links (extractToolCallFlow tracing) in
  let m := maxWeight links in
  (∀ d, d ∈ links →
     (0 < linkStrength m d)%Q ∧ (linkStrength m d <= 1)%Q ∧
     (80 < linkDistance m d)%Q ∧ (linkDistance m d <= 120)%Q ∧
     (2 < strokeWidth m d)%Q ∧ (strokeWidth m d <= 8)%Q ∧
     (4 # 10 < strokeOpacity m d)%Q ∧ (strokeOpacity m d <= 8 # 10)%Q) ∧
  (links ≠ [] →
   ∃ d, d ∈ links ∧ fl_weight d = m ∧ (linkStrength m d == 1)%Q ∧
        (strokeWidth m d == 8)%Q).
Proof.
  intros links m.
  assert (∀ d, d ∈ links → 1 ≤ fl_weight d) as Hweight.
  { intros d Hd. subst links.
    destruct (tr_outputs tracing) as [[[outputs|]]|] eqn:Ho.
    - rewrite (extractToolCallFlow_char _ _ Ho) in Hd.
      by apply flow_link_elem in Hd as (_ & _ & ?).
    - rewrite extractToolCallFlow_missing in Hd by auto.
      by apply elem_of_nil in Hd.
    - rewrite extractToolCallFlow_missing in Hd by auto.
      by apply elem_of_nil in Hd. }
  split.
  - intros d Hd.
    destruct (ratio_bounds (fl_weight d) m (Hweight d Hd)
                (maxWeight_le _ _ Hd (Hweight d Hd))) as [Hs0 Hs1].
    fold (linkStrength m d) in Hs0, Hs1.
    unfold linkDistance, strokeWidth, strokeOpacity.
    destruct (scaled_bounds (linkStrength m d) 80 40 Hs0 Hs1 eq_refl)
      as [Hd0 Hd1].
    destruct (scaled_bounds (linkStrength m d) 2 6 Hs0 Hs1 eq_refl)
      as [Hw0 Hw1].
    destruct (scaled_bounds (linkStrength m d) (4 # 10) (4 # 10) Hs0 Hs1
                eq_refl) as [Ho0 Ho1].
    split_and!; [done|done|done|exact Hd1|done|exact Hw1|done|].
    eapply Qle_trans; [exact Ho1|]. unfold Qle. simpl. lia.
  - intros Hne.
    assert (max_list (fl_weight <$> links) ∈ fl_weight <$> links) as Hmax.
    { apply max_list_attained. by destruct links. }
    apply list_elem_of_fmap in Hmax as (d & Hd & Hin).
    assert (fl_weight d = m) as Hm.
    { subst m. unfold maxWeight. rewrite Hd.
      specialize (Hweight d Hin). destruct (fl_weight d); [lia|done]. }
    exists d. split; [done|]. split; [done|].
    assert (linkStrength m d == 1)%Q as Hone.
    { unfold linkStrength. rewrite Hm. apply Qmult_inv_r.
      intros Hzero. specialize (Hweight d Hin).
      assert (inject_Z (Z.of_nat m) == inject_Z 0)%Q as Hz by exact Hzero.
      rewrite inject_Z_injective in Hz. clearbody m. lia. }
    split; [done|]. unfold strokeWidth. by rewrite Hone.
Qed.

(** ** The highlight controls *)

Lemma litCount_false {A} (l : list A) : litCount (map (λ _, false) l) = 0.
Proof. unfold litCount. induction l as [|x l IH]; [done|]. done. Qed.

Lemma litCount_none {A B} `{EqDecision B} (f : A → B) (l : list A) x :
  x ∉ f <$> l → litCount (map (λ d, bool_decide (f d = x)) l) = 0.
Proof.
  unfold litCount. induction l as [|d l IH]; [done|].
  rewrite fmap_cons, not_elem_of_cons. intros [Hne Hx]. cbn [map].
  rewrite filter_cons, bool_decide_false by done.
  rewrite decide_False by done. by apply IH.
Qed.

Lemma litCount_one {A B} `{EqDecision B} (f : A → B) (l : list A) x :
  NoDup (f <$> l) → litCount (map (λ d, bool_decide (f d = x)) l) ≤ 1.
Proof.
  induction l as [|d l IH]; [intros _; unfold litCount; simpl; lia|].
  rewrite fmap_cons, NoDup_cons. intros [Hd Hnd].
  unfold litCount in *. cbn [map]. rewrite filter_cons.
  destruct (decide (f d = x)) as [<-|Hne].
  - rewrite bool_decide_true, decide_True by done. cbn [length].
    pose proof (litCount_none f l (f d) Hd) as Hnone.
    unfold litCount in Hnone. rewrite Hnone. lia.
  - rewrite bool_decide_false, decide_False by done. by apply IH.
Qed.

Lemma find_first {A} (p : A → bool) (l : list A) x :
  List.find p l = Some x ↔
  ∃ i, l !! i = Some x ∧ p x = true ∧
       ∀ j y, j < i → l !! j = Some y → p y = false.
Proof.
  induction l as [|a l IH]; cbn [List.find].
  - split; [done|]. by intros (i & Hi & _).
  - destruct (p a) eqn:Hp.
    + split.
      * intros [= <-]. exists 0. split_and!; [done|done|]. intros; lia.
      * intros (i & Hi & Hx & Hfirst). destruct i as [|i].
        { by injection Hi as ->. }
        rewrite (Hfirst 0 a) in Hp; [done|lia|done].
    + rewrite IH. split.
      * intros (i & Hi & Hx & Hfirst). exists (S i).
        split_and!; [done|done|]. intros [|j] y Hj Hy.
        { by injection Hy as <-. }
        apply (Hfirst j); [lia|done].
      * intros (i & Hi & Hx & Hfirst). destruct i as [|i].
        { injection Hi as ->. congruence. }
        exists i. split_and!; [done|done|]. intros j y Hj Hy.
        apply (Hfirst (S j)); [lia|done].
Qed.

Section highlight_facts.
Context (xScale : string → option Q) (traceScale : option TraceId → option Q).
Context (barData : list BarDatum) (scoreData : list ScoreDatum).

Local Abbreviation linked v :=
  (rowsLinked traceScale scoreData v ∧ columnsLinked xScale barData v ∧
   rowHighlightListener v = true).

Lemma setTooltip_linked shown v : linked v → linked (setTooltip shown v).
Proof. done. Qed.

Lemma setRowHighlight_linked id v :
  linked v → linked (Grid.setRowHighlight traceScale scoreData id v).
Proof.
  intros (Hrow & Hcol & Hl). unfold Grid.setRowHighlight, Grid.notifyRow.
  destruct (traceScale id) as [y|] eqn:Hy; cbn; rewrite Hl;
    (split_and!; [|done|done]); unfold rowsLinked; cbn; [|done].
  by exists id.
Qed.

Lemma clearRowHighlight_linked v :
  linked v → linked (Grid.clearRowHighlight scoreData v).
Proof.
  intros (Hrow & Hcol & Hl). unfold Grid.clearRowHighlight, Grid.notifyRow.
  cbn. rewrite Hl. by split_and!.
Qed.

Lemma Bars_setColumnHighlight_named tool :
  "" ∉ toolName <$> barData →
  Bars.setColumnHighlight barData tool =
  map (λ d, bool_decide (toolName d = tool)) barData.
Proof.
  intros Hempty. unfold Bars.setColumnHighlight.
  destruct tool as [|c tool]; [|done]. cbn [truthy].
  apply map_ext_in. intros d Hd. rewrite bool_decide_false; [done|].
  intros Hname. apply Hempty. rewrite <-Hname.
  apply list_elem_of_fmap. exists d. split; [done|]. by apply list_elem_of_In.
Qed.

Lemma setColumnHighlight_linked tool v :
  "" ∉ toolName <$> barData →
  linked v → linked (Grid.setColumnHighlight xScale barData tool v).
Proof.
  intros Hempty (Hrow & Hcol & Hl). unfold Grid.setColumnHighlight.
  destruct (xScale tool) as [x|] eqn:Hx; (split_and!; [done| |done]);
    unfold columnsLinked; cbn; [|done].
  exists tool. split; [done|]. by apply Bars_setColumnHighlight_named.
Qed.

Lemma clearColumnHighlight_linked v :
  linked v → linked (Grid.clearColumnHighlight barData v).
Proof. intros (Hrow & Hcol & Hl). by split_and!. Qed.

Lemma clearAllHighlights_linked v :
  linked v → linked (Grid.clearAllHighlights barData scoreData v).
Proof.
  intros Hv. unfold Grid.clearAllHighlights.
  by apply clearColumnHighlight_linked, clearRowHighlight_linked.
Qed.

Lemma handle_linked xBandwidth traceBandwidth matrixWidth matrixTop
    matrixHeight scoreWidth tracings tools v e :
  "" ∉ toolName <$> barData →
  linked v →
  linked (Grid.handle xScale traceScale xBandwidth traceBandwidth matrixWidth
            matrixTop matrixHeight scoreWidth tracings tools barData
            scoreData v e).
Proof.
  intros Hempty Hv. destruct e as [tracing tool| | |mx my| |d| |]; cbn [Grid.handle].
  - by apply setTooltip_linked, setColumnHighlight_linked,
      setRowHighlight_linked.
  - by apply setTooltip_linked.
  - by apply setTooltip_linked.
  - unfold Grid.handlePointerMove.
    destruct (Grid.withinBand _ _ _ _ _ _);
      [|by apply clearAllHighlights_linked].
    set (v1 := match Grid.findTracingAtY _ _ _ _ with
               | Some hoveredTracing => _
               | None => _
               end).
    assert (linked v1) as Hv1.
    { subst v1. destruct (Grid.findTracingAtY _ _ _ _).
      - by apply setRowHighlight_linked.
      - by apply clearRowHighlight_linked. }
    cbv zeta. destruct (Qle_bool mx matrixWidth);
      [|by apply clearColumnHighlight_linked].
    destruct (Grid.findToolAtX _ _ _ _) as [hoveredTool|];
      [|by apply clearColumnHighlight_linked].
    destruct (truthy hoveredTool);
      [by apply setColumnHighlight_linked
      |by apply clearColumnHighlight_linked].
  - by apply clearAllHighlights_linked, setTooltip_linked.
  - by apply setTooltip_linked, setRowHighlight_linked.
  - by apply setTooltip_linked.
  - by apply clearRowHighlight_linked, setTooltip_linked.
Qed.

Lemma linked_counts v :
  NoDup (toolName <$> barData) → NoDup (sd_id <$> scoreData) →
  linked v →
  litCount (scoreBars_lit v) ≤ 1 ∧ litCount (bars_lit v) ≤ 1.
Proof.
  intros Hbars Hrows (Hrow & Hcol & _). unfold rowsLinked, columnsLinked in *.
  split.
  - destruct (highlightRow_shown v).
    + destruct Hrow as (id & _ & ->). by apply litCount_one.
    + rewrite Hrow, litCount_false. lia.
  - destruct (highlightCol_shown v).
    + destruct Hcol as (tool & _ & ->). by apply litCount_one.
    + rewrite Hcol, litCount_false. lia.
Qed.

(** X19. Whatever events follow a render, the score rail and the bar chart
    stay linked to the matrix: the rail marks exactly the rows of the id
    under the row rectangle, the bar chart exactly the bars of the tool
    under the column rectangle, nothing when the rectangle is hidden, and
    at most one row and one column are marked at any time. It takes tool
    names that are not empty and distinct, and row ids that are
    distinct. *)
Theorem highlights_linked xBandwidth traceBandwidth matrixWidth matrixTop
    matrixHeight scoreWidth tracings tools events :
  "" ∉ toolName <$> barData →
  NoDup (toolName <$> barData) →
  NoDup (sd_id <$> scoreData) →
  let v :=
    foldl (Grid.handle xScale traceScale xBandwidth traceBandwidth
             matrixWidth matrixTop matrixHeight scoreWidth tracings tools
             barData scoreData)
      (Grid.drawn matrixTop barData scoreData) events in
  rowsLinked traceScale scoreData v ∧ columnsLinked xScale barData v ∧
  litCount (scoreBars_lit v) ≤ 1 ∧ litCount (bars_lit v) ≤ 1.
Proof.
  intros Hempty Hbars Hrows v.
  assert (linked v) as Hv.
  { subst v. assert (linked (Grid.drawn matrixTop barData scoreData)) as H0.
    { by split_and!. }
    revert H0. generalize (Grid.drawn matrixTop barData scoreData).
    induction events as [|e events IH]; intros v0 Hv0; [done|].
    cbn [foldl]. apply IH. by apply handle_linked. }
  destruct (linked_counts v Hbars Hrows Hv) as [? ?].
  destruct Hv as (? & ? & _). by split_and!.
Qed.

End highlight_facts.

Lemma highlights_linked_witness :
  let barData :=
    [{| toolName := "search"; shapleyValue := 0 |};
     {| toolName := "read"; shapleyValue := 0 |}] in
  let scoreData :=
    [{| sd_id := Some (NumId 0); sd_score := Some 1%Q |};
     {| sd_id := Some (NumId 1); sd_score := None |}] in
  let v :=
    foldl (Grid.handle sampleXScale sampleTraceScale 160 40 400 200 100 136
             (assignIdsToTracings [traceOf []; traceOf []])
             ["search"; "read"] barData scoreData)
      (Grid.drawn 200 barData scoreData)
      [SvgMove 30 270; ScoreEnter {| sd_id := Some (NumId 0);
                                     sd_score := Some 1%Q |}] in
  scoreBars_lit v = [true; false] ∧ bars_lit v = [true; false] ∧
  rowsLinked sampleTraceScale scoreData v ∧
  columnsLinked sampleXScale barData v ∧
  litCount (scoreBars_lit v) ≤ 1 ∧ litCount (bars_lit v) ≤ 1.
Proof.
  intros barData scoreData v. split; [reflexivity|]. split; [reflexivity|].
  apply (highlights_linked sampleXScale sampleTraceScale barData scoreData
           160 40 400 200 100 136
           (assignIdsToTracings [traceOf []; traceOf []]) ["search"; "read"]).
  - by apply (bool_decide_unpack _).
  - by apply (bool_decide_unpack _).
  - by apply (bool_decide_unpack _).
Defined.

(** *** Selecting a row *)

(** X20. A click calls [onTracingSelect] exactly when the pointer is
    inside the matrix band and over a row, and then with the input record
    at the position of the topmost such row: the record as the host gave
    it, not the renumbered copy. *)
Theorem handleClick_original traceScale traceBandwidth matrixWidth matrixTop
    matrixHeight scoreWidth data mx my t :
  Grid.handleClick traceScale traceBandwidth matrixWidth matrixTop
    matrixHeight scoreWidth (assignIdsToTracings data) data true mx my
    = Some t ↔
  Grid.withinBand matrixWidth matrixTop matrixHeight scoreWidth mx my = true ∧
  ∃ i, data !! i = Some t ∧
       Grid.rowAt traceScale traceBandwidth my (Some (NumId i)) = true ∧
       ∀ j, j < i →
         Grid.rowAt traceScale traceBandwidth my (Some (NumId j)) = false.
Proof.
  unfold Grid.handleClick.
  destruct (Grid.withinBand _ _ _ _ _ _); [|split; [done|by intros [? _]]].
  assert (∀ i t0, data !! i = Some t0 →
            ∃ t', assignIdsToTracings data !! i = Some t' ∧
                  tr_id t' = Some (NumId i)) as Hrow.
  { intros i t0 Hi. unfold assignIdsToTracings.
    rewrite list_lookup_imap, Hi. by eexists. }
  destruct (Grid.findTracingAtY _ _ _ _) as [clicked|] eqn:Hfind.
  - unfold Grid.findTracingAtY in Hfind.
    apply find_first in Hfind as (i & Hi & Hat & Hfirst).
    unfold assignIdsToTracings in Hi. rewrite list_lookup_imap in Hi.
    destruct (data !! i) as [t0|] eqn:Hd; [|done].
    injection Hi as <-. cbn [tr_id] in *. rewrite Hd. split.
    + intros [= <-]. split; [done|]. exists i. split_and!; [done|done|].
      intros j Hj.
      destruct (lookup_lt_is_Some_2 data j) as [tj Htj].
      { apply lookup_lt_Some in Hd. lia. }
      destruct (Hrow j tj Htj) as (t' & Ht' & Hid).
      specialize (Hfirst j t' Hj Ht'). by rewrite Hid in Hfirst.
    + intros (_ & i' & Hi' & Hat' & Hfirst').
      destruct (Nat.lt_trichotomy i i') as [Hlt|[->|Hlt]].
      * rewrite (Hfirst' i Hlt) in Hat. done.
      * congruence.
      * destruct (Hrow i' t Hi') as (t' & Ht' & Hid).
        specialize (Hfirst i' t' Hlt Ht'). rewrite Hid in Hfirst. congruence.
  - split; [done|]. intros (_ & i & Hi & Hat & _).
    destruct (Hrow i t Hi) as (t' & Ht' & Hid).
    unfold Grid.findTracingAtY in Hfind.
    assert (Grid.rowAt traceScale traceBandwidth my (tr_id t') = false)
      as Hnone.
    { apply (List.find_none _ _ Hfind t'), list_elem_of_In.
      by eapply list_elem_of_lookup_2. }
    rewrite Hid, Hat in Hnone. discriminate Hnone.
Qed.

(** ** [renderUpsetPlot]: the scales *)

Lemma seenNames_imap (f : nat → nat) data :
  seenNames
    (imap (λ index tracing,
             {| tr_id := Some (NumId (f index));
                tr_outputs := tr_outputs tracing;
                tr_score := tr_score tracing;
                tr_other := tr_other tracing |}) data) =
  seenNames data.
Proof.
  unfold seenNames. revert f.
  induction data as [|t data IH]; intros f; [done|].
  cbn [imap]. rewrite !bind_cons. f_equal. apply (IH (f ∘ S)).
Qed.

Lemma seenNames_assignIds data :
  seenNames (assignIdsToTracings data) = seenNames data.
Proof. apply (seenNames_imap id). Qed.

(** X21. The columns of a drawn view are the tool names of the input in
    first-seen order and its rows are the positions 0, 1, ... of the input
    traces: these are the domains of the two band scales. *)
Theorem renderUpsetPlot_domains random cursor container data toolSets options
    r :
  data ≠ [] →
  renderUpsetPlot random cursor (Some container) (Some data) toolSets options
    = Returns r →
  ∃ s, rr_scales r = Some s ∧
    band_domain (s_x s) = JsSet.ofList (seenNames data) ∧
    band_domain (s_traceScale s) =
      (λ index, Some (NumId index)) <$> seq 0 (length data).
Proof.
  intros Hdata. cbv beta iota zeta delta [renderUpsetPlot].
  destruct (getTools (assignIdsToTracings data)) as [e|] eqn:He; [|done].
  cbn [obind]. destruct data as [|t data]; [done|].
  intros [= <-]. eexists. split; [reflexivity|].
  cbn [s_x s_traceScale band_domain]. split.
  - by rewrite (getTools_tools _ _ He), seenNames_assignIds.
  - apply (assignIdsToTracings_ids (t :: data)).
Qed.

Lemma renderUpsetPlot_domains_witness :
  ∃ r s,
    renderUpsetPlot sampleDraws 0 (Some emptyMount)
      (Some [traceOf [callEvent [request "c1" "search"]];
             traceOf [callEvent [request "c1" "read"; request "c2" "search"]]])
      [] defaultOptions = Returns r ∧
    rr_scales r = Some s ∧
    band_domain (s_x s) = ["search"; "read"] ∧
    band_domain (s_traceScale s) = [Some (NumId 0); Some (NumId 1)].
Proof.
  destruct (renderUpsetPlot_domains sampleDraws 0 emptyMount
              [traceOf [callEvent [request "c1" "search"]];
               traceOf [callEvent [request "c1" "read";
                                   request "c2" "search"]]]
              [] defaultOptions _ ltac:(discriminate) eq_refl)
    as (s & Hs & Hx & Hrows).
  eexists _, s. split; [reflexivity|]. split; [exact Hs|].
  split; [exact Hx|exact Hrows].
Defined.

(** *** The score scale *)





(** *** The ids of the host *)

Lemma imap_sameButId (f : nat → nat) data data' :
  Forall2 sameButId data data' →
  imap (λ index tracing,
          {| tr_id := Some (NumId (f index));
             tr_outputs := tr_outputs tracing;
             tr_score := tr_score tracing;
             tr_other := tr_other tracing |}) data =
  imap (λ index tracing,
          {| tr_id := Some (NumId (f index));
             tr_outputs := tr_outputs tracing;
             tr_score := tr_score tracing;
             tr_other := tr_other tracing |}) data'.
Proof.
  intros Hsame. revert f.
  induction Hsame as [|t t' data data' (Ho & Hs & Hr) _ IH]; intros f; [done|].
  cbn [imap]. rewrite Ho, Hs, Hr. f_equal. apply (IH (f ∘ S)).
Qed.

Lemma assignIdsToTracings_sameButId data data' :
  Forall2 sameButId data data' →
  assignIdsToTracings data = assignIdsToTracings data'.
Proof. apply (imap_sameButId id). Qed.

(** X23. A render does not read the ids the host gave: two inputs whose
    records differ at most in their ids are drawn alike. *)
Theorem renderUpsetPlot_ignores_ids random cursor container data data'
    toolSets options :
  Forall2 sameButId data data' →
  renderUpsetPlot random cursor (Some container) (Some data) toolSets options
  = renderUpsetPlot random cursor (Some container) (Some data') toolSets
      options.
Proof.
  intros Hsame. cbv beta iota zeta delta [renderUpsetPlot].
  rewrite (assignIdsToTracings_sameButId _ _ Hsame).
  destruct (getTools (assignIdsToTracings data')) as [e|]; [|done].
  cbn [obind]. by destruct Hsame.
Qed.

Lemma renderUpsetPlot_ignores_ids_witness :
  let outputs := [callEvent [request "c1" "search"]; resultEvent "c1"] in
  renderUpsetPlot sampleDraws 0 (Some emptyMount)
    (Some [traceOf outputs]) [] defaultOptions =
  renderUpsetPlot sampleDraws 0 (Some emptyMount)
    (Some [{| tr_id := Some (StrId "run-7");
              tr_outputs := Some {| messages := Some outputs |};
              tr_score := Some 1%Q;
              tr_other := [("inputs", "{}")] |}]) [] defaultOptions.
Proof.
  intros outputs.
  apply (renderUpsetPlot_ignores_ids sampleDraws 0 emptyMount).
  constructor; [by split_and!|constructor].
Defined.

(** ** The records behind a cell *)

Lemma omap_ext_in {A B} (f g : A → option B) (l : list A) :
  (∀ x, x ∈ l → f x = g x) → omap f l = omap g l.
Proof.
  induction l as [|x l IH]; intros Hfg; [done|]. cbn [omap list_omap].
  rewrite (Hfg x) by apply list_elem_of_here.
  rewrite IH; [done|]. intros y Hy. by apply Hfg, list_elem_of_further.
Qed.

Lemma values_by_keys {K V} `{EqDecision K} (m : list (K * V)) :
  NoDup (JsMap.keys m) →
  JsMap.values m = omap (λ k, JsMap.get k m) (JsMap.keys m).
Proof.
  unfold JsMap.values, JsMap.keys.
  induction m as [|[k v] m IH]; [done|].
  rewrite !fmap_cons, NoDup_cons. cbn [fst snd]. intros [Hk Hnd].
  cbn [omap list_omap JsMap.get]. rewrite decide_True by done.
  f_equal. rewrite (IH Hnd). apply omap_ext_in. intros k' Hk'.
  rewrite decide_False; [done|]. by intros ->.
Qed.

Lemma omap_cores {K} (f : K → option ToolCallInfo) (g : K → option ToolCall)
    (ks : list K) :
  (∀ k, infoCore <$> f k = callCore <$> g k) →
  infoCore <$> omap f ks = callCore <$> omap g ks.
Proof.
  intros Hfg. induction ks as [|k ks IH]; [done|]. cbn [omap list_omap].
  specialize (Hfg k). destruct (f k), (g k); try done.
  rewrite !fmap_cons. apply (inj Some) in Hfg. by rewrite Hfg, IH.
Qed.

Lemma filter_cores (infos : list ToolCallInfo) (calls : list ToolCall) tool :
  infoCore <$> infos = callCore <$> calls →
  infoCore <$> filter (λ info, info_name info = tool) infos =
  callCore <$> filter (λ c, tc_name c = tool) calls.
Proof.
  revert calls. induction infos as [|info infos IH]; intros [|c calls];
    [done..|].
  rewrite !fmap_cons. intros Hcons.
  apply (inj2 cons) in Hcons as [Hcore Hrest].
  assert (info_name info = tc_name c) as Hname.
  { by injection Hcore. }
  rewrite !filter_cons, Hname.
  destruct (decide (tc_name c = tool)).
  - rewrite !fmap_cons, Hcore. f_equal. by apply IH.
  - by apply IH.
Qed.

Lemma getTools_records before tracing after r :
  getTools (before ++ tracing :: after) = Returns r →
  tr_id tracing ∉ tr_id <$> after →
  ∃ entry,
    JsMap.get (tr_id tracing) (tracingToolCalls r) = Some entry ∧
    infoCore <$> JsMap.values (toolCalls entry) =
    callCore <$>
      omap (λ id, lastCall id (traceCalls tracing))
        (JsSet.ofList (tc_id <$> traceCalls tracing)).
Proof.
  intros Hr Hafter.
  destruct (getTools_entry_walk _ _ _ _ Hr Hafter) as (tools0 & st & Hw & Hg).
  eexists. split; [exact Hg|]. cbn [toolCalls].
  pose proof (walkOutputs_NoDup_keys _ _ _ Hw) as Hkeys.
  rewrite values_by_keys by (rewrite Hkeys; apply NoDup_ofList).
  rewrite Hkeys. apply omap_cores. intros id.
  rewrite (walkOutputs_get _ _ _ id Hw). unfold traceCalls.
  by destruct (lastCall id _).
Qed.

(** X24. The records of a matrix cell are, in the order in which their
    call ids are first requested, the last requests made under each call
    id of the trace that name the tool; the tooltip of the cell shows the
    arguments of the first of them. *)
Theorem callsForTool_records before tracing after r tool :
  getTools (before ++ tracing :: after) = Returns r →
  tr_id tracing ∉ tr_id <$> after →
  infoCore <$> callsForTool (tracingToolCalls r) tracing tool =
  callCore <$>
    filter (λ c, tc_name c = tool)
      (omap (λ id, lastCall id (traceCalls tracing))
         (JsSet.ofList (tc_id <$> traceCalls tracing))).
Proof.
  intros Hr Hafter.
  destruct (getTools_records _ _ _ _ Hr Hafter) as (entry & Hg & Hvalues).
  unfold callsForTool. rewrite Hg. by apply filter_cores.
Qed.

Lemma callsForTool_records_witness :
  let tracing :=
    traceOf [callEvent [request "c1" "search"; request "c2" "read"];
             callEvent [request "c3" "read"; request "c1" "read"]] in
  ∃ r, getTools [tracing] = Returns r ∧
       infoCore <$> callsForTool (tracingToolCalls r) tracing "read" =
       callCore <$> [request "c1" "read"; request "c2" "read";
                     request "c3" "read"].
Proof.
  intros tracing. eexists. split; [reflexivity|].
  rewrite (callsForTool_records [] tracing [] _ "read" eq_refl);
    [reflexivity|].
  by apply (bool_decide_unpack _).
Defined.

(** ** Traces with distinct call ids *)

Lemma ofList_NoDup {A} `{EqDecision A} (l : list A) :
  NoDup l → JsSet.ofList l = l.
Proof.
  induction l as [|x l IH] using rev_ind; [done|].
  rewrite NoDup_app. intros (Hnd & Hx & _). rewrite ofList_snoc, (IH Hnd).
  unfold JsSet.add. rewrite decide_False; [done|].
  intros Hin. apply (Hx x Hin), list_elem_of_here.
Qed.

Lemma firstBy_NoDup {A K} `{EqDecision K} (key : A → K) (l : list A) :
  NoDup (key <$> l) → firstBy key l = l.
Proof.
  induction l as [|x l IH] using rev_ind; [done|].
  rewrite fmap_app, NoDup_app. intros (Hnd & Hx & _).
  rewrite firstBy_snoc, (IH Hnd). rewrite decide_False; [done|].
  intros Hin. apply (Hx (key x) Hin), list_elem_of_here.
Qed.

Lemma lastCall_NoDup calls c :
  NoDup (tc_id <$> calls) → c ∈ calls → lastCall (tc_id c) calls = Some c.
Proof.
  unfold lastCall, callsWithId. intros Hnd Hc.
  assert (filter (λ c', tc_id c' = tc_id c) calls = [c]) as ->; [|done].
  induction calls as [|a calls IH]; [by apply elem_of_nil in Hc|].
  rewrite fmap_cons, NoDup_cons in Hnd. destruct Hnd as [Ha Hnd].
  rewrite filter_cons. apply elem_of_cons in Hc as [->|Hc].
  - rewrite decide_True by done. f_equal.
    clear IH Hnd. induction calls as [|b calls IH]; [done|].
    rewrite fmap_cons, not_elem_of_cons in Ha. destruct Ha as [Hb Ha].
    rewrite filter_cons, decide_False by done. by apply IH.
  - rewrite decide_False; [by apply IH|].
    intros Heq. apply Ha. rewrite Heq.
    apply list_elem_of_fmap. by exists c.
Qed.

Lemma omap_lastCall_NoDup calls :
  NoDup (tc_id <$> calls) →
  omap (λ id, lastCall id calls) (tc_id <$> calls) = calls.
Proof.
  intros Hnd.
  assert (∀ l : list ToolCall,
            (∀ c, c ∈ l → lastCall (tc_id c) calls = Some c) →
            omap (λ id, lastCall id calls) (tc_id <$> l) = l) as Hall.
  { induction l as [|c l IH]; intros Hl; [done|].
    rewrite fmap_cons. cbn [omap list_omap].
    rewrite (Hl c) by apply list_elem_of_here. f_equal.
    apply IH. intros c' Hc'. by apply Hl, list_elem_of_further. }
  apply Hall. intros c Hc. by apply lastCall_NoDup.
Qed.

(** X25. On a trace whose call ids are pairwise distinct the three
    extractions agree: the records of [getTools], the nodes of the order
    graph and the call sequence of the flow graph list the same requests
    in the same order. *)
Theorem distinct_ids_agree before tracing after r :
  getTools (before ++ tracing :: after) = Returns r →
  tr_id tracing ∉ tr_id <$> after →
  NoDup (tc_id <$> traceCalls tracing) →
  ∃ entry,
    JsMap.get (tr_id tracing) (tracingToolCalls r) = Some entry ∧
    infoCore <$> JsMap.values (toolCalls entry) =
      callCore <$> traceCalls tracing ∧
    (λ n, (on_id n, on_name n)) <$> og_nodes (extractToolCallOrder tracing) =
      (λ info, (info_id info, info_name info))
        <$> JsMap.values (toolCalls entry) ∧
    fg_callSequence (extractToolCallFlow tracing) =
      Some (info_name <$> JsMap.values (toolCalls entry)).
Proof.
  intros Hr Hafter Hnd.
  destruct (getTools_records _ _ _ _ Hr Hafter) as (entry & Hg & Hvalues).
  rewrite (ofList_NoDup _ Hnd), (omap_lastCall_NoDup _ Hnd) in Hvalues.
  exists entry. split; [done|]. split; [done|].
  assert ((λ info, (info_id info, info_name info))
            <$> JsMap.values (toolCalls entry) =
          (λ c, (tc_id c, tc_name c)) <$> traceCalls tracing) as Hpairs.
  { change (λ info, (info_id info, info_name info))
      with ((λ core : string * string * option string * option string,
               (core.1.1.1, core.1.1.2)) ∘ infoCore).
    rewrite list_fmap_compose, Hvalues, <-list_fmap_compose. done. }
  assert (info_name <$> JsMap.values (toolCalls entry) =
          tc_name <$> traceCalls tracing) as Hnames.
  { change info_name
      with ((λ core : string * string * option string * option string,
               core.1.1.2) ∘ infoCore).
    rewrite list_fmap_compose, Hvalues, <-list_fmap_compose. done. }
  split.
  - rewrite Hpairs, extractToolCallOrder_char. cbn [og_nodes].
    rewrite (firstBy_NoDup _ _ Hnd), fmap_imap. by apply imap_ignore.
  - rewrite Hnames.
    assert (∃ outputs,
              tr_outputs tracing = Some {| messages := Some outputs |})
      as [outputs Ho].
    { apply getTools_returns_walkable in Hr.
      rewrite Forall_app, Forall_cons in Hr.
      by destruct Hr as (_ & [Ho _] & _). }
    rewrite (extractToolCallFlow_char _ _ Ho). cbn [flowOf fg_callSequence].
    unfold callSequenceOf. by rewrite (firstBy_NoDup _ _ Hnd).
Qed.

Lemma distinct_ids_agree_witness :
  let tracing :=
    traceOf [callEvent [request "c1" "search"; request "c2" "read"];
             resultEvent "c1"; callEvent [request "c3" "search"]] in
  ∃ r entry,
    getTools [tracing] = Returns r ∧
    JsMap.get (tr_id tracing) (tracingToolCalls r) = Some entry ∧
    (λ n, (on_id n, on_name n)) <$> og_nodes (extractToolCallOrder tracing) =
      (λ info, (info_id info, info_name info))
        <$> JsMap.values (toolCalls entry) ∧
    fg_callSequence (extractToolCallFlow tracing) =
      Some (info_name <$> JsMap.values (toolCalls entry)).
Proof.
  intros tracing.
  destruct (distinct_ids_agree [] tracing [] _ eq_refl)
    as (entry & Hentry & _ & Hnodes & Hsequence).
  - by apply (bool_decide_unpack _).
  - by apply (bool_decide_unpack _).
  - eexists _, entry. split; [reflexivity|]. by split_and!.
Defined.

(** ** The two graph views *)

Lemma flow_callSequence tracing :
  fg_nodes (extractToolCallFlow tracing) ≠ [] →
  ∃ callSequence,
    fg_callSequence (extractToolCallFlow tracing) = Some callSequence.
Proof.
  destruct (tr_outputs tracing) as [[[outputs|]]|] eqn:Ho.
  - rewrite (extractToolCallFlow_char _ _ Ho). by eexists.
  - by rewrite extractToolCallFlow_missing by auto.
  - by rewrite extractToolCallFlow_missing by auto.
Qed.

Lemma flow_nodes_nil tracing :
  fg_nodes (extractToolCallFlow tracing) = [] ↔ traceCalls tracing = [].
Proof.
  destruct (tr_outputs tracing) as [[[outputs|]]|] eqn:Ho.
  - rewrite (extractToolCallFlow_char _ _ Ho). cbn [flowOf fg_nodes].
    unfold callSequenceOf. rewrite <-(firstBy_nil tc_id (traceCalls tracing)).
    destruct (firstBy tc_id (traceCalls tracing)) as [|c l] eqn:Hf; [done|].
    split; [|done]. rewrite fmap_cons. intros Hnil.
    assert (tc_name c ∈ JsSet.ofList (tc_name c :: (tc_name <$> l))) as Hin.
    { apply elem_of_ofList, list_elem_of_here. }
    destruct (JsSet.ofList (tc_name c :: (tc_name <$> l))); [|done].
    by apply elem_of_nil in Hin.
  - by rewrite extractToolCallFlow_missing, traceCalls_missing by auto.
  - by rewrite extractToolCallFlow_missing, traceCalls_missing by auto.
Qed.

Lemma order_nodes_nil tracing :
  og_nodes (extractToolCallOrder tracing) = [] ↔ traceCalls tracing = [].
Proof.
  rewrite extractToolCallOrder_char. cbn [og_nodes].
  rewrite <-(firstBy_nil tc_id (traceCalls tracing)).
  by destruct (firstBy tc_id (traceCalls tracing)).
Qed.


(** *** Drawing again *)

(** X27. What a graph view leaves in the mount point does not depend on
    what the mount point held: two mount points of the same styles end
    with the same drawing, whatever their children were, and the drawing
    is at most one svg. So drawing again into the mount point that has
    just been drawn into replaces the drawing by an equal one: nothing of
    the earlier drawing stays and nothing is added twice. *)
Theorem graph_views_redraw container container' tracing toolSets clientWidth
    clientHeight :
  m_styles container' = m_styles container →
  ∃ flowView graphView,
    renderToolCallFlow (Some container) (Some tracing) toolSets clientWidth
      clientHeight = Returns (Some flowView) ∧
    renderToolCallFlow (Some container') (Some tracing) toolSets clientWidth
      clientHeight = Returns (Some flowView) ∧
    renderToolCallFlow (Some flowView) (Some tracing) toolSets clientWidth
      clientHeight = Returns (Some flowView) ∧
    length (m_children flowView) ≤ 1 ∧
    renderToolCallGraph (Some container) (Some tracing) toolSets clientWidth
      clientHeight = Some graphView ∧
    renderToolCallGraph (Some container') (Some tracing) toolSets clientWidth
      clientHeight = Some graphView ∧
    renderToolCallGraph (Some graphView) (Some tracing) toolSets clientWidth
      clientHeight = Some graphView ∧
    length (m_children graphView) ≤ 1.
Proof.
  intros Hstyles.
  unfold renderToolCallFlow, renderToolCallGraph, noToolCalls, appendTo,
    removeAll.
  cbn [fst snd m_styles m_children app]. rewrite Hstyles.
  pose proof (flow_callSequence tracing) as Hsequence.
  destruct (fg_nodes (extractToolCallFlow tracing)) as [|n nodes].
  - destruct (og_nodes (extractToolCallOrder tracing)) as [|n' nodes'];
      eexists _, _; split_and!; reflexivity || (cbn; lia).
  - destruct Hsequence as [callSequence ->]; [done|].
    destruct (og_nodes (extractToolCallOrder tracing)) as [|n' nodes'];
      eexists _, _; split_and!; reflexivity || (cbn; lia).
Qed.

Lemma graph_views_redraw_witness :
  let tracing := traceOf [callEvent [request "c1" "search"]] in
  let stale :=
    {| m_styles := [];
       m_children := [Elem "svg" [] None None [Elem "g" [] None None []]] |} in
  ∃ flowView graphView,
    renderToolCallFlow (Some emptyMount) (Some tracing) [] 400 300 =
      Returns (Some flowView) ∧
    renderToolCallFlow (Some stale) (Some tracing) [] 400 300 =
      Returns (Some flowView) ∧
    length (m_children flowView) = 1 ∧
    renderToolCallGraph (Some emptyMount) (Some tracing) [] 400 300 =
      Some graphView ∧
    renderToolCallGraph (Some stale) (Some tracing) [] 400 300 =
      Some graphView ∧
    length (m_children graphView) = 1.
Proof.
  intros tracing stale.
  destruct (graph_views_redraw emptyMount stale tracing [] 400 300 eq_refl)
    as (flowView & graphView & Hflow & Hflow' & _ & _ & Hgraph & Hgraph'
        & _ & _).
  exists flowView, graphView.
  split; [exact Hflow|]. split; [exact Hflow'|].
  split; [by injection Hflow as <-|].
  split; [exact Hgraph|]. split; [exact Hgraph'|].
  by injection Hgraph as <-.
Defined.

(** *** Arrow heads *)

Lemma count_app (p : Element → bool) (l1 l2 : list Element) :
  length (List.filter p (l1 ++ l2)) =
  length (List.filter p l1) + length (List.filter p l2).
Proof. by rewrite List.filter_app, length_app. Qed.

Lemma count_allElements_map {A} (p : Element → bool) (f : A → Element)
    (l : list A) k :
  (∀ x, length (List.filter p (f x :: descendants (f x))) = k) →
  length (List.filter p (allElements (map f l))) = k * length l.
Proof.
  intros Hk. unfold allElements.
  induction l as [|x l IH]; [cbn; lia|].
  cbn [map flat_map length]. rewrite count_app, IH, Hk. lia.
Qed.

Lemma count_allElements_imap {A} (p : Element → bool)
    (f : nat → A → Element) (l : list A) k :
  (∀ i x, length (List.filter p (f i x :: descendants (f i x))) = k) →
  length (List.filter p (allElements (imap f l))) = k * length l.
Proof.
  unfold allElements. revert f.
  induction l as [|x l IH]; intros f Hk; [cbn; lia|].
  cbn [imap flat_map length]. rewrite count_app, Hk.
  rewrite (IH (f ∘ S)); [lia|]. intros i y. apply Hk.
Qed.

Lemma allElements_cons e l :
  allElements (e :: l) = (e :: descendants e) ++ allElements l.
Proof. done. Qed.

Lemma count_elem (p : Element → bool) tag attrs text datum children :
  length (List.filter p
            (Elem tag attrs text datum children
             :: descendants (Elem tag attrs text datum children))) =
  (if p (Elem tag attrs text datum children) then 1 else 0)
  + length (List.filter p (allElements children)).
Proof.
  cbn [List.filter descendants].
  by destruct (p (Elem tag attrs text datum children)).
Qed.

Lemma renderGlyph_unmarked glyphType size id :
  let glyph := renderGlyph None glyphType (Num 0) (Num 0) size in
  length (List.filter (refersTo id) (glyph :: descendants glyph)) = 0 ∧
  length (List.filter (hasId id) (glyph :: descendants glyph)) = 0 ∧
  length (List.filter isMarker (glyph :: descendants glyph)) = 0.
Proof.
  intros glyph. subst glyph. unfold renderGlyph.
  repeat case_decide; by split_and!.
Qed.

Lemma count_elem_false (p : Element → bool) tag attrs text datum children :
  p (Elem tag attrs text datum children) = false →
  length (List.filter p
            (Elem tag attrs text datum children
             :: descendants (Elem tag attrs text datum children))) =
  length (List.filter p (allElements children)).
Proof. intros Hp. by rewrite count_elem, Hp. Qed.

Lemma count_elem_true (p : Element → bool) tag attrs text datum children :
  p (Elem tag attrs text datum children) = true →
  length (List.filter p
            (Elem tag attrs text datum children
             :: descendants (Elem tag attrs text datum children))) =
  S (length (List.filter p (allElements children))).
Proof. intros Hp. by rewrite count_elem, Hp. Qed.

Lemma count_nil (p : Element → bool) :
  length (List.filter p (allElements [])) = 0.
Proof. done. Qed.

Ltac count_tree :=
  repeat first
    [ rewrite allElements_cons
    | rewrite count_app
    | rewrite count_nil
    | rewrite count_elem_false by reflexivity
    | rewrite count_elem_true by reflexivity
    | rewrite (proj1 (renderGlyph_unmarked _ _ _))
    | rewrite (proj1 (proj2 (renderGlyph_unmarked _ _ _)))
    | rewrite (proj2 (proj2 (renderGlyph_unmarked _ _ ""))) ].

Lemma flowNodeGroup_unmarked glyphSystem d id :
  let e := flowNodeGroup glyphSystem d in
  length (List.filter (refersTo id) (e :: descendants e)) = 0 ∧
  length (List.filter (hasId id) (e :: descendants e)) = 0 ∧
  length (List.filter isMarker (e :: descendants e)) = 0.
Proof.
  intros e. subst e. unfold flowNodeGroup.
  destruct (decide (1 < fn_count d)); cbn [app]; split_and!; count_tree;
    reflexivity.
Qed.

Lemma sequenceItem_unmarked glyphSystem sequenceItemWidth i d id :
  let e := sequenceItem glyphSystem sequenceItemWidth i d in
  length (List.filter (refersTo id) (e :: descendants e)) = 0 ∧
  length (List.filter (hasId id) (e :: descendants e)) = 0 ∧
  length (List.filter isMarker (e :: descendants e)) = 0.
Proof.
  intros e. subst e. unfold sequenceItem.
  split_and!; count_tree; reflexivity.
Qed.

Lemma orderNodeGroup_unmarked glyphSystem d id :
  let e := orderNodeGroup glyphSystem d in
  length (List.filter (refersTo id) (e :: descendants e)) = 0 ∧
  length (List.filter (hasId id) (e :: descendants e)) = 0.
Proof.
  intros e. subst e. unfold orderNodeGroup.
  split_and!; count_tree; reflexivity.
Qed.

(** X28. Every link of the flow view refers to the marker
    [arrowhead-flow], and the view holds no marker and no element of that
    id: the flow view defines no arrow head. The graph view refers to the
    marker [arrowhead] in every link and holds exactly one element of that
    id when it draws. *)
Theorem graph_views_arrowheads container tracing toolSets clientWidth
    clientHeight :
  ∃ flowView graphView,
    renderToolCallFlow (Some container) (Some tracing) toolSets clientWidth
      clientHeight = Returns (Some flowView) ∧
    renderToolCallGraph (Some container) (Some tracing) toolSets clientWidth
      clientHeight = Some graphView ∧
    countOf (refersTo "arrowhead-flow") flowView =
      length (fg_links (extractToolCallFlow tracing)) ∧
    countOf (hasId "arrowhead-flow") flowView = 0 ∧
    countOf isMarker flowView = 0 ∧
    countOf (refersTo "arrowhead") graphView =
      length (og_links (extractToolCallOrder tracing)) ∧
    countOf (hasId "arrowhead") graphView =
      (if decide (traceCalls tracing = []) then 0 else 1).
Proof.
  unfold renderToolCallFlow, renderToolCallGraph.
  destruct (fg_nodes (extractToolCallFlow tracing)) as [|n nodes] eqn:Hnodes.
  - assert (traceCalls tracing = []) as Hcalls by by apply flow_nodes_nil.
    rewrite (proj2 (order_nodes_nil tracing) Hcalls).
    eexists _, _. split; [done|]. split; [done|].
    rewrite decide_True by done. unfold countOf. cbn.
    rewrite extractToolCallOrder_char. cbn [og_links].
    rewrite (proj2 (firstBy_nil tc_id _) Hcalls).
    destruct (tr_outputs tracing) as [[[outputs|]]|] eqn:Ho.
    + rewrite (extractToolCallFlow_char _ _ Ho). unfold callSequenceOf.
      by rewrite (proj2 (firstBy_nil tc_id _) Hcalls).
    + by rewrite extractToolCallFlow_missing by auto.
    + by rewrite extractToolCallFlow_missing by auto.
  - destruct (flow_callSequence tracing) as [callSequence ->];
      [by rewrite Hnodes|].
    assert (traceCalls tracing ≠ []) as Hcalls.
    { intros Hnil. apply flow_nodes_nil in Hnil. by rewrite Hnodes in Hnil. }
    destruct (og_nodes (extractToolCallOrder tracing)) as [|n' nodes']
      eqn:Hnodes'; [by apply order_nodes_nil in Hnodes'|].
    rewrite <-Hnodes, <-Hnodes'.
    eexists _, _. split; [done|]. split; [done|].
    rewrite decide_False by done.
    unfold countOf, appendTo, removeAll, svgElement, arrowMarker.
    cbn [m_children fst app].
    split_and!; count_tree.
    + rewrite (count_allElements_map _ flowLinkLine _ 1) by done.
      rewrite (count_allElements_map _ flowLinkLabel _ 0) by done.
      rewrite (count_allElements_map _ (flowNodeGroup _) _ 0)
        by (intros; apply flowNodeGroup_unmarked).
      rewrite (count_allElements_imap _ (sequenceItem _ _) _ 0)
        by (intros; apply sequenceItem_unmarked).
      lia.
    + rewrite (count_allElements_map _ flowLinkLine _ 0) by done.
      rewrite (count_allElements_map _ flowLinkLabel _ 0) by done.
      rewrite (count_allElements_map _ (flowNodeGroup _) _ 0)
        by (intros; apply flowNodeGroup_unmarked).
      rewrite (count_allElements_imap _ (sequenceItem _ _) _ 0)
        by (intros; apply sequenceItem_unmarked).
      lia.
    + rewrite (count_allElements_map _ flowLinkLine _ 0) by done.
      rewrite (count_allElements_map _ flowLinkLabel _ 0) by done.
      rewrite (count_allElements_map _ (flowNodeGroup _) _ 0)
        by (intros; apply (flowNodeGroup_unmarked _ _ "")).
      rewrite (count_allElements_imap _ (sequenceItem _ _) _ 0)
        by (intros; apply (sequenceItem_unmarked _ _ _ _ "")).
      lia.
    + rewrite (count_allElements_map _ orderLinkLine _ 1) by done.
      rewrite (count_allElements_map _ (orderNodeGroup _) _ 0)
        by (intros; apply orderNodeGroup_unmarked).
      lia.
    + rewrite (count_allElements_map _ orderLinkLine _ 0) by done.
      rewrite (count_allElements_map _ (orderNodeGroup _) _ 0)
        by (intros; apply orderNodeGroup_unmarked).
      lia.
Qed.
